(** * Overlay engine of bot_nl.py: notary_replace_amount_pdf_purepy

    A shallow embedding of the PDF amount/date substitution routine
    [notary_replace_amount_pdf_purepy] of [src/bot_nl.py], together with
    the helpers it relies on ([parse_money], [now_nl_date]), the money
    formatter [fmt_eur], the typesetter of the mandate ([Typesetter.para],
    [Typesetter.kv]) and the asset lookup [asset_path].

    Modelling conventions.
    - A Python [str] is a list of Unicode code points ([text]); [len] is
      [length].  The classes [\d], [\w] and [\s] are those of Python 3.11
      (Unicode 14.0) on every code point; [str.upper] is taken on the
      letters a-z.
    - Python floats that carry coordinates and sizes are exact rationals
      ([Q]); equalities between computed coordinates are stated with [==].
    - The amount is a binary64 [float], given by sign, mantissa and
      exponent; [float(Decimal)] rounds to the nearest float and the
      format [.2f] rounds the exact value of the float to the nearest
      number of cents, ties to even in both.
    - Exceptions are values of [result]; [Raise e] is a raised exception.
    - The regular expressions are values of [regex], run by a greedy
      backtracking matcher [rx] that follows Python's [re] on the
      constructs the patterns use.
    - The loop [while words:] of [Typesetter.para] need not end: its model
      takes a bound on the number of rounds and yields [None] when the
      bound is reached with words left.
    - [pdfmetrics.stringWidth] and the file system are parameters.
    - [page.merge_page] stacks the content of the overlay page on the page
      inside a clip to the box of the overlay page ([OpClipped]). *)

From Stdlib Require Import NArith ZArith QArith Qminmax Lqa Ascii String.
From stdpp Require Import base list sorting gmap strings.

Local Open Scope N_scope.

(** ** Text as code points *)

Abbreviation cp := N.
Abbreviation text := (list N).

Definition byte_codes (s : string) : list N :=
  (λ a, N_of_ascii a) <$> list_ascii_of_string s.

(** UTF-8 decoding of a source literal (1, 2 and 3 byte sequences). *)
Fixpoint utf8_decode (bs : list N) : text :=
  match bs with
  | [] => []
  | b0 :: rest =>
    if b0 <? 128 then b0 :: utf8_decode rest
    else if b0 <? 224 then
      match rest with
      | b1 :: r => ((b0 - 192) * 64 + (b1 - 128)) :: utf8_decode r
      | [] => []
      end
    else
      match rest with
      | b1 :: b2 :: r =>
        ((b0 - 224) * 4096 + (b1 - 128) * 64 + (b2 - 128)) :: utf8_decode r
      | _ => []
      end
  end.

Definition u (s : string) : text := utf8_decode (byte_codes s).

Definition EURO : cp := 8364.
Definition SPACE : cp := 32.
Definition DOT : cp := 46.
Definition COMMA : cp := 44.
Definition MINUS : cp := 45.
Definition PLUS : cp := 43.
Definition LETTER_X : cp := 88.
Definition NEWLINE : cp := 10.
Definition UNDERSCORE : cp := 95.

Definition between (lo hi c : N) : bool := (lo <=? c) && (c <=? hi).

(** The digits zero of Unicode 14.0 (general category Nd, the table of
    Python 3.11): the nine code points after each of them are the digits
    one to nine of the same script. *)
Definition digit_zeros : list N :=
  [
    48; 1632; 1776; 1984; 2406; 2534; 2662; 2790; 2918; 3046; 3174; 3302; 3430; 3558;
    3664; 3792; 3872; 4160; 4240; 6112; 6160; 6470; 6608; 6784; 6800; 6992; 7088; 7232;
    7248; 42528; 43216; 43264; 43472; 43504; 43600; 44016; 65296; 66720; 68912; 69734;
    69872; 69942; 70096; 70384; 70736; 70864; 71248; 71360; 71472; 71904; 72016; 72784;
    73040; 73120; 92768; 92864; 93008; 120782; 120792; 120802; 120812; 120822; 123200;
    123632; 125264; 130032 ].

(** [\d] on a [str], which is also [str.isdecimal] and what [Decimal]
    reads as a digit. *)
Definition is_digit (c : cp) : bool := existsb (λ z, between z (z + 9) c) digit_zeros.
Arguments is_digit : simpl never.

(** The digit zero of the script of [c]. *)
Fixpoint zero_of (zeros : list N) (c : cp) : N :=
  match zeros with
  | [] => c
  | z :: zeros' => if between z (z + 9) c then z else zero_of zeros' c
  end.

(** [\s] and [str.isspace]. *)
Definition is_space (c : cp) : bool :=
  between 9 13 c || between 28 32 c || (c =? 133) || (c =? 160)
  || (c =? 5760) || between 8192 8202 c || (c =? 8232) || (c =? 8233)
  || (c =? 8239) || (c =? 8287) || (c =? 12288).

(** [[A-Z]] *)
Definition is_AZ (c : cp) : bool := between 65 90 c.
Definition is_az (c : cp) : bool := between 97 122 c.

(** The ranges of the word characters of Unicode 14.0: the code points
    [c] with [chr(c).isalnum()], and the underscore. *)
Definition word_ranges : list (N * N) :=
  [
    (48, 57); (65, 90); (95, 95); (97, 122); (170, 170); (178, 179); (181, 181);
    (185, 186); (188, 190); (192, 214); (216, 246); (248, 705); (710, 721); (736, 740);
    (748, 748); (750, 750); (880, 884); (886, 887); (890, 893); (895, 895); (902, 902);
    (904, 906); (908, 908); (910, 929); (931, 1013); (1015, 1153); (1162, 1327);
    (1329, 1366); (1369, 1369); (1376, 1416); (1488, 1514); (1519, 1522); (1568, 1610);
    (1632, 1641); (1646, 1647); (1649, 1747); (1749, 1749); (1765, 1766); (1774, 1788);
    (1791, 1791); (1808, 1808); (1810, 1839); (1869, 1957); (1969, 1969); (1984, 2026);
    (2036, 2037); (2042, 2042); (2048, 2069); (2074, 2074); (2084, 2084); (2088, 2088);
    (2112, 2136); (2144, 2154); (2160, 2183); (2185, 2190); (2208, 2249); (2308, 2361);
    (2365, 2365); (2384, 2384); (2392, 2401); (2406, 2415); (2417, 2432); (2437, 2444);
    (2447, 2448); (2451, 2472); (2474, 2480); (2482, 2482); (2486, 2489); (2493, 2493);
    (2510, 2510); (2524, 2525); (2527, 2529); (2534, 2545); (2548, 2553); (2556, 2556);
    (2565, 2570); (2575, 2576); (2579, 2600); (2602, 2608); (2610, 2611); (2613, 2614);
    (2616, 2617); (2649, 2652); (2654, 2654); (2662, 2671); (2674, 2676); (2693, 2701);
    (2703, 2705); (2707, 2728); (2730, 2736); (2738, 2739); (2741, 2745); (2749, 2749);
    (2768, 2768); (2784, 2785); (2790, 2799); (2809, 2809); (2821, 2828); (2831, 2832);
    (2835, 2856); (2858, 2864); (2866, 2867); (2869, 2873); (2877, 2877); (2908, 2909);
    (2911, 2913); (2918, 2927); (2929, 2935); (2947, 2947); (2949, 2954); (2958, 2960);
    (2962, 2965); (2969, 2970); (2972, 2972); (2974, 2975); (2979, 2980); (2984, 2986);
    (2990, 3001); (3024, 3024); (3046, 3058); (3077, 3084); (3086, 3088); (3090, 3112);
    (3114, 3129); (3133, 3133); (3160, 3162); (3165, 3165); (3168, 3169); (3174, 3183);
    (3192, 3198); (3200, 3200); (3205, 3212); (3214, 3216); (3218, 3240); (3242, 3251);
    (3253, 3257); (3261, 3261); (3293, 3294); (3296, 3297); (3302, 3311); (3313, 3314);
    (3332, 3340); (3342, 3344); (3346, 3386); (3389, 3389); (3406, 3406); (3412, 3414);
    (3416, 3425); (3430, 3448); (3450, 3455); (3461, 3478); (3482, 3505); (3507, 3515);
    (3517, 3517); (3520, 3526); (3558, 3567); (3585, 3632); (3634, 3635); (3648, 3654);
    (3664, 3673); (3713, 3714); (3716, 3716); (3718, 3722); (3724, 3747); (3749, 3749);
    (3751, 3760); (3762, 3763); (3773, 3773); (3776, 3780); (3782, 3782); (3792, 3801);
    (3804, 3807); (3840, 3840); (3872, 3891); (3904, 3911); (3913, 3948); (3976, 3980);
    (4096, 4138); (4159, 4169); (4176, 4181); (4186, 4189); (4193, 4193); (4197, 4198);
    (4206, 4208); (4213, 4225); (4238, 4238); (4240, 4249); (4256, 4293); (4295, 4295);
    (4301, 4301); (4304, 4346); (4348, 4680); (4682, 4685); (4688, 4694); (4696, 4696);
    (4698, 4701); (4704, 4744); (4746, 4749); (4752, 4784); (4786, 4789); (4792, 4798);
    (4800, 4800); (4802, 4805); (4808, 4822); (4824, 4880); (4882, 4885); (4888, 4954);
    (4969, 4988); (4992, 5007); (5024, 5109); (5112, 5117); (5121, 5740); (5743, 5759);
    (5761, 5786); (5792, 5866); (5870, 5880); (5888, 5905); (5919, 5937); (5952, 5969);
    (5984, 5996); (5998, 6000); (6016, 6067); (6103, 6103); (6108, 6108); (6112, 6121);
    (6128, 6137); (6160, 6169); (6176, 6264); (6272, 6276); (6279, 6312); (6314, 6314);
    (6320, 6389); (6400, 6430); (6470, 6509); (6512, 6516); (6528, 6571); (6576, 6601);
    (6608, 6618); (6656, 6678); (6688, 6740); (6784, 6793); (6800, 6809); (6823, 6823);
    (6917, 6963); (6981, 6988); (6992, 7001); (7043, 7072); (7086, 7141); (7168, 7203);
    (7232, 7241); (7245, 7293); (7296, 7304); (7312, 7354); (7357, 7359); (7401, 7404);
    (7406, 7411); (7413, 7414); (7418, 7418); (7424, 7615); (7680, 7957); (7960, 7965);
    (7968, 8005); (8008, 8013); (8016, 8023); (8025, 8025); (8027, 8027); (8029, 8029);
    (8031, 8061); (8064, 8116); (8118, 8124); (8126, 8126); (8130, 8132); (8134, 8140);
    (8144, 8147); (8150, 8155); (8160, 8172); (8178, 8180); (8182, 8188); (8304, 8305);
    (8308, 8313); (8319, 8329); (8336, 8348); (8450, 8450); (8455, 8455); (8458, 8467);
    (8469, 8469); (8473, 8477); (8484, 8484); (8486, 8486); (8488, 8488); (8490, 8493);
    (8495, 8505); (8508, 8511); (8517, 8521); (8526, 8526); (8528, 8585); (9312, 9371);
    (9450, 9471); (10102, 10131); (11264, 11492); (11499, 11502); (11506, 11507);
    (11517, 11517); (11520, 11557); (11559, 11559); (11565, 11565); (11568, 11623);
    (11631, 11631); (11648, 11670); (11680, 11686); (11688, 11694); (11696, 11702);
    (11704, 11710); (11712, 11718); (11720, 11726); (11728, 11734); (11736, 11742);
    (11823, 11823); (12293, 12295); (12321, 12329); (12337, 12341); (12344, 12348);
    (12353, 12438); (12445, 12447); (12449, 12538); (12540, 12543); (12549, 12591);
    (12593, 12686); (12690, 12693); (12704, 12735); (12784, 12799); (12832, 12841);
    (12872, 12879); (12881, 12895); (12928, 12937); (12977, 12991); (13312, 19903);
    (19968, 42124); (42192, 42237); (42240, 42508); (42512, 42539); (42560, 42606);
    (42623, 42653); (42656, 42735); (42775, 42783); (42786, 42888); (42891, 42954);
    (42960, 42961); (42963, 42963); (42965, 42969); (42994, 43009); (43011, 43013);
    (43015, 43018); (43020, 43042); (43056, 43061); (43072, 43123); (43138, 43187);
    (43216, 43225); (43250, 43255); (43259, 43259); (43261, 43262); (43264, 43301);
    (43312, 43334); (43360, 43388); (43396, 43442); (43471, 43481); (43488, 43492);
    (43494, 43518); (43520, 43560); (43584, 43586); (43588, 43595); (43600, 43609);
    (43616, 43638); (43642, 43642); (43646, 43695); (43697, 43697); (43701, 43702);
    (43705, 43709); (43712, 43712); (43714, 43714); (43739, 43741); (43744, 43754);
    (43762, 43764); (43777, 43782); (43785, 43790); (43793, 43798); (43808, 43814);
    (43816, 43822); (43824, 43866); (43868, 43881); (43888, 44002); (44016, 44025);
    (44032, 55203); (55216, 55238); (55243, 55291); (63744, 64109); (64112, 64217);
    (64256, 64262); (64275, 64279); (64285, 64285); (64287, 64296); (64298, 64310);
    (64312, 64316); (64318, 64318); (64320, 64321); (64323, 64324); (64326, 64433);
    (64467, 64829); (64848, 64911); (64914, 64967); (65008, 65019); (65136, 65140);
    (65142, 65276); (65296, 65305); (65313, 65338); (65345, 65370); (65382, 65470);
    (65474, 65479); (65482, 65487); (65490, 65495); (65498, 65500); (65536, 65547);
    (65549, 65574); (65576, 65594); (65596, 65597); (65599, 65613); (65616, 65629);
    (65664, 65786); (65799, 65843); (65856, 65912); (65930, 65931); (66176, 66204);
    (66208, 66256); (66273, 66299); (66304, 66339); (66349, 66378); (66384, 66421);
    (66432, 66461); (66464, 66499); (66504, 66511); (66513, 66517); (66560, 66717);
    (66720, 66729); (66736, 66771); (66776, 66811); (66816, 66855); (66864, 66915);
    (66928, 66938); (66940, 66954); (66956, 66962); (66964, 66965); (66967, 66977);
    (66979, 66993); (66995, 67001); (67003, 67004); (67072, 67382); (67392, 67413);
    (67424, 67431); (67456, 67461); (67463, 67504); (67506, 67514); (67584, 67589);
    (67592, 67592); (67594, 67637); (67639, 67640); (67644, 67644); (67647, 67669);
    (67672, 67702); (67705, 67742); (67751, 67759); (67808, 67826); (67828, 67829);
    (67835, 67867); (67872, 67897); (67968, 68023); (68028, 68047); (68050, 68096);
    (68112, 68115); (68117, 68119); (68121, 68149); (68160, 68168); (68192, 68222);
    (68224, 68255); (68288, 68295); (68297, 68324); (68331, 68335); (68352, 68405);
    (68416, 68437); (68440, 68466); (68472, 68497); (68521, 68527); (68608, 68680);
    (68736, 68786); (68800, 68850); (68858, 68899); (68912, 68921); (69216, 69246);
    (69248, 69289); (69296, 69297); (69376, 69415); (69424, 69445); (69457, 69460);
    (69488, 69505); (69552, 69579); (69600, 69622); (69635, 69687); (69714, 69743);
    (69745, 69746); (69749, 69749); (69763, 69807); (69840, 69864); (69872, 69881);
    (69891, 69926); (69942, 69951); (69956, 69956); (69959, 69959); (69968, 70002);
    (70006, 70006); (70019, 70066); (70081, 70084); (70096, 70106); (70108, 70108);
    (70113, 70132); (70144, 70161); (70163, 70187); (70272, 70278); (70280, 70280);
    (70282, 70285); (70287, 70301); (70303, 70312); (70320, 70366); (70384, 70393);
    (70405, 70412); (70415, 70416); (70419, 70440); (70442, 70448); (70450, 70451);
    (70453, 70457); (70461, 70461); (70480, 70480); (70493, 70497); (70656, 70708);
    (70727, 70730); (70736, 70745); (70751, 70753); (70784, 70831); (70852, 70853);
    (70855, 70855); (70864, 70873); (71040, 71086); (71128, 71131); (71168, 71215);
    (71236, 71236); (71248, 71257); (71296, 71338); (71352, 71352); (71360, 71369);
    (71424, 71450); (71472, 71483); (71488, 71494); (71680, 71723); (71840, 71922);
    (71935, 71942); (71945, 71945); (71948, 71955); (71957, 71958); (71960, 71983);
    (71999, 71999); (72001, 72001); (72016, 72025); (72096, 72103); (72106, 72144);
    (72161, 72161); (72163, 72163); (72192, 72192); (72203, 72242); (72250, 72250);
    (72272, 72272); (72284, 72329); (72349, 72349); (72368, 72440); (72704, 72712);
    (72714, 72750); (72768, 72768); (72784, 72812); (72818, 72847); (72960, 72966);
    (72968, 72969); (72971, 73008); (73030, 73030); (73040, 73049); (73056, 73061);
    (73063, 73064); (73066, 73097); (73112, 73112); (73120, 73129); (73440, 73458);
    (73648, 73648); (73664, 73684); (73728, 74649); (74752, 74862); (74880, 75075);
    (77712, 77808); (77824, 78894); (82944, 83526); (92160, 92728); (92736, 92766);
    (92768, 92777); (92784, 92862); (92864, 92873); (92880, 92909); (92928, 92975);
    (92992, 92995); (93008, 93017); (93019, 93025); (93027, 93047); (93053, 93071);
    (93760, 93846); (93952, 94026); (94032, 94032); (94099, 94111); (94176, 94177);
    (94179, 94179); (94208, 100343); (100352, 101589); (101632, 101640);
    (110576, 110579); (110581, 110587); (110589, 110590); (110592, 110882);
    (110928, 110930); (110948, 110951); (110960, 111355); (113664, 113770);
    (113776, 113788); (113792, 113800); (113808, 113817); (119520, 119539);
    (119648, 119672); (119808, 119892); (119894, 119964); (119966, 119967);
    (119970, 119970); (119973, 119974); (119977, 119980); (119982, 119993);
    (119995, 119995); (119997, 120003); (120005, 120069); (120071, 120074);
    (120077, 120084); (120086, 120092); (120094, 120121); (120123, 120126);
    (120128, 120132); (120134, 120134); (120138, 120144); (120146, 120485);
    (120488, 120512); (120514, 120538); (120540, 120570); (120572, 120596);
    (120598, 120628); (120630, 120654); (120656, 120686); (120688, 120712);
    (120714, 120744); (120746, 120770); (120772, 120779); (120782, 120831);
    (122624, 122654); (123136, 123180); (123191, 123197); (123200, 123209);
    (123214, 123214); (123536, 123565); (123584, 123627); (123632, 123641);
    (124896, 124902); (124904, 124907); (124909, 124910); (124912, 124926);
    (124928, 125124); (125127, 125135); (125184, 125251); (125259, 125259);
    (125264, 125273); (126065, 126123); (126125, 126127); (126129, 126132);
    (126209, 126253); (126255, 126269); (126464, 126467); (126469, 126495);
    (126497, 126498); (126500, 126500); (126503, 126503); (126505, 126514);
    (126516, 126519); (126521, 126521); (126523, 126523); (126530, 126530);
    (126535, 126535); (126537, 126537); (126539, 126539); (126541, 126543);
    (126545, 126546); (126548, 126548); (126551, 126551); (126553, 126553);
    (126555, 126555); (126557, 126557); (126559, 126559); (126561, 126562);
    (126564, 126564); (126567, 126570); (126572, 126578); (126580, 126583);
    (126585, 126588); (126590, 126590); (126592, 126601); (126603, 126619);
    (126625, 126627); (126629, 126633); (126635, 126651); (127232, 127244);
    (130032, 130041); (131072, 173791); (173824, 177976); (177984, 178205);
    (178208, 183969); (183984, 191456); (194560, 195101); (196608, 201546) ].

(** [\w] on a [str]; [\b] is a change of this class. *)
Definition is_word (c : cp) : bool := existsb (λ r, between r.1 r.2 c) word_ranges.
Arguments is_word : simpl never.

(** [[\d\.\s]] *)
Definition is_amount_char (c : cp) : bool :=
  is_digit c || (c =? DOT) || is_space c.

(** ** Exceptions *)

Inductive exn :=
  ValueError | StatisticsError | AttributeError | IndexError | InvalidOperation
| OSError | RuntimeError.

Inductive result (A : Type) :=
| Ok (a : A)
| Raise (e : exn).
Arguments Ok {A} a.
Arguments Raise {A} e.

Definition rbind {A B} (m : result A) (f : A → result B) : result B :=
  match m with
  | Ok a => f a
  | Raise e => Raise e
  end.

Declare Scope result_scope.
Delimit Scope result_scope with result.
Notation "'let!' x ':=' m 'in' k" := (rbind m (λ x, k))
  (at level 10, x name, m at level 100, k at level 200) : result_scope.
Local Open Scope result_scope.

(** ** Regular expressions *)

Inductive regex :=
| Lit (c : cp)                 (* a literal character *)
| Cls (p : cp → bool)          (* a character class *)
| Seq (r1 r2 : regex)
| Opt (r : regex)              (* greedy r? *)
| PlusCls (p : cp → bool)      (* greedy [class]+ *)
| Rep (n : nat) (r : regex)    (* r{n} *)
| Bol                          (* ^ *)
| Eol                          (* $ *)
| WordB.                       (* \b *)

(** Length of the maximal run of class characters at the head. *)
Fixpoint run_length (p : cp → bool) (s : text) : nat :=
  match s with
  | c :: s' => if p c then S (run_length p s') else 0%nat
  | [] => 0%nat
  end.

(** Greedy iteration: the longest run first, then shorter ones. *)
Fixpoint greedy_down (k : nat → option nat) (i n : nat) : option nat :=
  match n with
  | O => None
  | S n' =>
    match k (i + S n')%nat with
    | Some e => Some e
    | None => greedy_down k i n'
    end
  end.

Definition word_at (s : text) (i : nat) : bool :=
  match s !! i with
  | Some c => is_word c
  | None => false
  end.

Definition word_before (s : text) (i : nat) : bool :=
  match i with
  | O => false
  | S j => word_at s j
  end.

Definition at_eol (s : text) (i : nat) : bool :=
  bool_decide (i = length s)
  || (bool_decide (S i = length s) && bool_decide (s !! i = Some NEWLINE)).

(** Backtracking matcher in continuation-passing style: [rx r s i k]
    matches [r] at index [i] of [s] and hands the end index to [k]. *)
Fixpoint rx (r : regex) (s : text) (i : nat) (k : nat → option nat) : option nat :=
  match r with
  | Lit c =>
    match s !! i with
    | Some c' => if c' =? c then k (S i) else None
    | None => None
    end
  | Cls p =>
    match s !! i with
    | Some c' => if p c' then k (S i) else None
    | None => None
    end
  | Seq r1 r2 => rx r1 s i (λ j, rx r2 s j k)
  | Opt r1 =>
    match rx r1 s i k with
    | Some e => Some e
    | None => k i
    end
  | PlusCls p => greedy_down k i (run_length p (drop i s))
  | Rep n r1 =>
    (fix rep (n : nat) (i : nat) : option nat :=
       match n with
       | O => k i
       | S n' => rx r1 s i (λ j, rep n' j)
       end) n i
  | Bol => if bool_decide (i = O) then k i else None
  | Eol => if at_eol s i then k i else None
  | WordB => if xorb (word_before s i) (word_at s i) then k i else None
  end.

Definition match_at (r : regex) (s : text) (i : nat) : option nat := rx r s i Some.

Abbreviation span := (nat * nat)%type.

(** [re.finditer]: leftmost matches, scanning resumes at the end of the
    previous match (one further after an empty match). *)
Fixpoint scan (r : regex) (s : text) (starts : list nat) (next : nat) : list span :=
  match starts with
  | [] => []
  | i :: rest =>
    if bool_decide (i < next)%nat then scan r s rest next
    else
      match match_at r s i with
      | Some e => (i, e) :: scan r s rest (Nat.max e (S i))
      | None => scan r s rest next
      end
  end.

Definition finditer (r : regex) (s : text) : list span :=
  scan r s (seq 0 (S (length s))) 0.

(** [m.group(0)] and the slice [xs[a:b]]. *)
Definition slice {A} (xs : list A) (a b : nat) : list A := take (b - a) (drop a xs).
Definition group0 (s : text) (m : span) : text := slice s m.1 m.2.

(** [re.match]: a match anchored at index 0. *)
Definition re_match (r : regex) (s : text) : option nat := match_at r s 0.

(** [re.sub(r, "", s)]: the text outside the matches. *)
Fixpoint cut_spans (s : text) (pos : nat) (ms : list span) : text :=
  match ms with
  | [] => drop pos s
  | (a, b) :: ms' => slice s pos a ++ cut_spans s b ms'
  end.

Definition re_sub_empty (r : regex) (s : text) : text := cut_spans s 0 (finditer r s).

Infix "⊙" := Seq (at level 41, right associativity).

(** ** The patterns of the source *)

(** [€\s?[\d\.\s]+,\d{2}] *)
Definition money_pat_left : regex :=
  Lit EURO ⊙ Opt (Cls is_space) ⊙ PlusCls is_amount_char ⊙ Lit COMMA ⊙ Rep 2 (Cls is_digit).

(** [[\d\.\s]+,\d{2}\s?€] *)
Definition money_pat_right : regex :=
  PlusCls is_amount_char ⊙ Lit COMMA ⊙ Rep 2 (Cls is_digit) ⊙ Opt (Cls is_space) ⊙ Lit EURO.

Definition money_pats : list regex := [money_pat_left; money_pat_right].

(** [\b\d{2}-\d{2}-\d{4}\b] *)
Definition date_pat : regex :=
  WordB ⊙ Rep 2 (Cls is_digit) ⊙ Lit MINUS ⊙ Rep 2 (Cls is_digit) ⊙ Lit MINUS
  ⊙ Rep 4 (Cls is_digit) ⊙ WordB.

(** [\b\d{2}\.\d{2}\.\d{4}\b] *)
Definition date_pat_dots : regex :=
  WordB ⊙ Rep 2 (Cls is_digit) ⊙ Lit DOT ⊙ Rep 2 (Cls is_digit) ⊙ Lit DOT
  ⊙ Rep 4 (Cls is_digit) ⊙ WordB.

(** [^-?\d+(\.\d+)?$] of [parse_money] *)
Definition money_re : regex :=
  Bol ⊙ Opt (Lit MINUS) ⊙ PlusCls is_digit ⊙ Opt (Lit DOT ⊙ PlusCls is_digit) ⊙ Eol.

(** [^[A-Z]{6}\+] of [_strip_subset] *)
Definition subset_re : regex := Bol ⊙ Rep 6 (Cls is_AZ) ⊙ Lit PLUS.

(** ** String helpers *)

Fixpoint starts_with (p s : text) : bool :=
  match p, s with
  | [], _ => true
  | a :: p', b :: s' => (a =? b) && starts_with p' s'
  | _ :: _, [] => false
  end.

(** [sub in s] *)
Fixpoint contains (sub s : text) : bool :=
  starts_with sub s ||
  match s with
  | [] => false
  | _ :: s' => contains sub s'
  end.

Definition has (c : cp) (s : text) : bool := contains [c] s.

(** [s.replace(old, new)] for a non-empty [old]: occurrences are replaced
    left to right without overlap; [skip] counts the characters of an
    occurrence still to be passed over. *)
Fixpoint replace_go (old new s : text) (skip : nat) : text :=
  match s with
  | [] => []
  | c :: s' =>
    match skip with
    | S n => replace_go old new s' n
    | O =>
      if starts_with old s then new ++ replace_go old new s' (length old - 1)
      else c :: replace_go old new s' 0
    end
  end.

Definition replace (old new s : text) : text := replace_go old new s 0.

(** [str.strip] *)
Fixpoint lstrip (s : text) : text :=
  match s with
  | c :: s' => if is_space c then lstrip s' else s
  | [] => []
  end.

Definition strip (s : text) : text := rev (lstrip (rev (lstrip s))).

(** [str.upper], on the letters a-z; other code points are kept. *)
Definition upper_cp (c : cp) : cp := if is_az c then c - 32 else c.
Definition upper (s : text) : text := upper_cp <$> s.

(** ** Decimal numbers *)

(** A [decimal.Decimal]: sign, coefficient and number of fractional digits. *)
Record Decimal := mkDecimal { dec_neg : bool; dec_coeff : N; dec_places : nat }.

Definition Decimal_value (d : Decimal) : Q :=
  let m := (Z.of_N (dec_coeff d) # Pos.of_nat (10 ^ dec_places d))%Q in
  if dec_neg d then Qopp m else m.

(** The value of a digit: its distance from the zero of its script. *)
Definition digit_val (c : cp) : N := c - zero_of digit_zeros c.
Arguments digit_val : simpl never.
Definition digit_char (d : N) : cp := 48 + d.

Definition of_digits (ds : text) : N := foldl (λ acc c, acc * 10 + digit_val c) 0 ds.

Fixpoint digits_go (fuel : nat) (n : N) (acc : text) : text :=
  match fuel with
  | O => acc
  | S f =>
    let acc' := digit_char (n mod 10) :: acc in
    if n / 10 =? 0 then acc' else digits_go f (n / 10) acc'
  end.

(** Decimal digits of [n], most significant first. *)
Definition digits (n : N) : text := digits_go (S (N.to_nat (N.log2 n))) n [].

(** [Decimal(t)] on the grammar sign? digits (. digits)?, white space
    around it ignored. *)
Definition Decimal_of_text (t : text) : result Decimal :=
  let t := strip t in
  let '(neg, body) :=
    match t with
    | c :: r => if c =? MINUS then (true, r) else (false, t)
    | [] => (false, [])
    end in
  let ip := take (run_length is_digit body) body in
  match ip, drop (length ip) body with
  | _ :: _, [] => Ok (mkDecimal neg (of_digits ip) 0)
  | _ :: _, c :: fp =>
    if (c =? DOT) && bool_decide (fp ≠ []) && forallb is_digit fp
    then Ok (mkDecimal neg (of_digits (ip ++ fp)) (length fp))
    else Raise InvalidOperation
  | [], _ => Raise InvalidOperation
  end.

(** [parse_money] *)
Definition parse_money (txt : text) : result Decimal :=
  let t := upper (strip txt) in
  let t := replace [SPACE] [] (replace (u "EUR") [] (replace [EURO] [] t)) in
  let t :=
    if has COMMA t && has DOT t then replace [COMMA] [DOT] (replace [DOT] [] t)
    else if has COMMA t then replace [COMMA] [DOT] t
    else t in
  match re_match money_re t with
  | None => Raise ValueError
  | Some _ => Decimal_of_text t
  end.

(** ** Floats *)

(** A Python [float], a binary64 number: [Finite neg m e] is the number
    (-1)^neg * m * 2^e, so that zero has a sign. *)
Inductive float :=
| Finite (neg : bool) (m : N) (e : Z)
| Infinite (neg : bool)
| NaN.

(** The values of this type that binary64 holds. *)
Definition is_binary64 (v : float) : bool :=
  match v with
  | Finite _ m e => (m <? 2 ^ 53) && (-1074 <=? e)%Z && (e <=? 971)%Z
  | _ => true
  end.

(** The fraction [(n / d) / 2^e], as numerator and denominator. *)
Definition scaled (n d : N) (e : Z) : N * N :=
  match e with
  | Zneg p => (n * 2 ^ Npos p, d)
  | _ => (n, d * 2 ^ Z.to_N e)
  end.

(** The integer nearest to [n / d]; of two that are equally near, the
    even one. *)
Definition round_half_even (nd : N * N) : N :=
  let '(n, d) := nd in
  let q := n / d in
  match 2 * (n mod d) ?= d with
  | Lt => q
  | Gt => q + 1
  | Eq => if N.even q then q else q + 1
  end.

(** [float(d)] for a [Decimal]: the binary64 number nearest to the value
    of [d], ties to the even mantissa; [k] is the binary exponent of the
    value, [2^k <= n / den < 2^(k+1)]. *)
Definition float_of_Decimal (d : Decimal) : float :=
  let n := dec_coeff d in
  let den := 10 ^ N.of_nat (dec_places d) in
  if n =? 0 then Finite (dec_neg d) 0 0
  else
    let k0 := (Z.of_N (N.log2 n) - Z.of_N (N.log2 den))%Z in
    let k := if fst (scaled n den k0) <? snd (scaled n den k0) then (k0 - 1)%Z else k0 in
    let e := Z.max (k - 52) (-1074) in
    let m := round_half_even (scaled n den e) in
    let e' := if m =? 2 ^ 53 then (e + 1)%Z else e in
    let m' := if m =? 2 ^ 53 then 2 ^ 52 else m in
    if (971 <? e')%Z then Infinite (dec_neg d) else Finite (dec_neg d) m' e'.

(** ** Amount formatting *)

(** Thousands separators, on the reversed digit string. *)
Fixpoint chunk3 (k : nat) (rs : text) : text :=
  match rs with
  | [] => []
  | c :: rs' =>
    match k with
    | O => COMMA :: c :: chunk3 2 rs'
    | S k' => c :: chunk3 k' rs'
    end
  end.

Definition group3 (ds : text) : text := rev (chunk3 3 (rev ds)).

Definition pad2 (n : N) : text := [digit_char (n / 10); digit_char (n mod 10)].

(** The number of cents that the format [.2f] prints for [m * 2^e]: the
    exact value times 100, rounded to the nearest integer, ties to even. *)
Definition cents_of (m : N) (e : Z) : N := round_half_even (scaled (m * 100) 1 (- e)).

(** A sign and a number of cents written with grouped thousands, a point
    and two decimals. *)
Definition grouped_2f (neg : bool) (a : N) : text :=
  (if neg then [MINUS] else [])
  ++ group3 (digits (a / 100)) ++ [DOT] ++ pad2 (a mod 100).

(** [f"{value:,.2f}"] *)
Definition format_grouped_2f (value : float) : text :=
  match value with
  | Finite neg m e => grouped_2f neg (cents_of m e)
  | Infinite neg => (if neg then [MINUS] else []) ++ u "inf"
  | NaN => u "nan"
  end.

(** The exchange of the separators through the letter X. *)
Definition swap_separators (s : text) : text :=
  replace [LETTER_X] [DOT] (replace [DOT] [COMMA] (replace [COMMA] [LETTER_X] s)).

(** [n_str] *)
Definition number_nl (value : float) : text := swap_separators (format_grouped_2f value).

Definition eur_left (src : text) : bool := starts_with [EURO] (strip src).

(** [_format_like(src, value)] *)
Definition _format_like (src : text) (value : float) : text :=
  let n_str := number_nl value in
  if eur_left src then EURO :: SPACE :: n_str else n_str ++ [SPACE; EURO].

(** [_strip_subset]; the routine defines it and does not call it. *)
Definition _strip_subset (fn : text) : text := re_sub_empty subset_re fn.

(** [_family_and_style]: the same pair for every font name. *)
Definition _family_and_style (fontname : text) : text * text :=
  (u "TimesNewRomanPS", u "regular").

(** ** Time *)

(** The wall clock read in the zone Europe/Amsterdam. *)
Record DateTime := mkDateTime { dt_day : N; dt_month : N; dt_year : N }.

(** [strftime("%d-%m-%Y")] *)
Definition strftime_dmY (t : DateTime) : text :=
  pad2 (dt_day t) ++ [MINUS] ++ pad2 (dt_month t) ++ [MINUS] ++ digits (dt_year t).

(** What the routine reads from its surroundings: the setting
    NOTARY_OVERLAY_PCT as [float] reads it ([None] when it is unset; a
    value that [float] rejects is not modelled), whether the font
    TimesNewRomanPS is registered, and the clock in Europe/Amsterdam. *)
Record Env := mkEnv {
  env_overlay_pct : option Q;
  env_times_registered : bool;
  env_now_nl : DateTime
}.

Definition now_nl_date (env : Env) : text := strftime_dmY (env_now_nl env).

(** ** Layout (pdfminer) *)

Record LTChar := mkLTChar {
  get_text : text;
  ch_x0 : Q; ch_y0 : Q; ch_x1 : Q; ch_y1 : Q;
  ch_size : Q;
  ch_fontname : text
}.

Inductive LineItem := ItemChar (c : LTChar) | ItemAnno (t : text).
Inductive BoxItem := TextLine (items : list LineItem) | BoxOther.
Inductive LayoutItem := TextContainer (children : list BoxItem) | LayoutOther.

(** ** Numbers on lists *)

Definition Qlt_bool (a b : Q) : bool := negb (Qle_bool b a).

(** Python's two-argument [min] and [max]: the first argument wins ties. *)
Definition qmin (a b : Q) : Q := if Qlt_bool b a then b else a.
Definition qmax (a b : Q) : Q := if Qlt_bool a b then b else a.

Definition py_min (xs : list Q) : result Q :=
  match xs with
  | [] => Raise ValueError
  | x :: r => Ok (foldl qmin x r)
  end.

Definition py_max (xs : list Q) : result Q :=
  match xs with
  | [] => Raise ValueError
  | x :: r => Ok (foldl qmax x r)
  end.

Fixpoint insert_sorted (x : Q) (xs : list Q) : list Q :=
  match xs with
  | [] => [x]
  | y :: ys => if Qlt_bool x y then x :: xs else y :: insert_sorted x ys
  end.

Definition sorted (xs : list Q) : list Q := foldl (λ acc x, insert_sorted x acc) [] xs.

(** [statistics.median] *)
Definition median (xs : list Q) : result Q :=
  let data := sorted xs in
  let n := length data in
  if bool_decide (n = O) then Raise StatisticsError
  else if Nat.odd n then
    match data !! (n / 2)%nat with
    | Some x => Ok x
    | None => Raise IndexError
    end
  else
    match data !! (n / 2 - 1)%nat, data !! (n / 2)%nat with
    | Some a, Some b => Ok ((a + b) / 2)%Q
    | _, _ => Raise IndexError
    end.

(** ** Hits *)

Inductive Kind := amount | date.

Record Hit := mkHit {
  hit_kind : Kind;
  hit_x0 : Q; hit_y0 : Q; hit_x1 : Q; hit_y1 : Q;
  hit_size : Q;
  hit_family : text; hit_style : text;
  hit_src : text;
  hit_k : Q
}.

Definition overlay_pct (env : Env) : Q := default (265 # 1000)%Q (env_overlay_pct env).

Definition index0 {A} (xs : list A) : result A :=
  match xs with
  | x :: _ => Ok x
  | [] => Raise IndexError
  end.

(** The body shared by the amount loop and the date loop, from
    [a, b = m.span()] to [page_hits.append]. *)
Definition resolve_hit (env : Env) (kind : Kind) (chars : list LTChar) (txt : text)
    (m : span) : result (option Hit) :=
  let seg := slice chars m.1 m.2 in
  if bool_decide (seg = []) then Ok None
  else
    let! x0 := py_min (ch_x0 <$> seg) in
    let! x1 := py_max (ch_x1 <$> seg) in
    let! y0 := py_min (ch_y0 <$> seg) in
    let! y1 := py_max (ch_y1 <$> seg) in
    let! base_size := median (ch_size <$> seg) in
    let! first := index0 seg in
    let '(fam, style) := _family_and_style (ch_fontname first) in
    Ok (Some (mkHit kind x0 y0 x1 y1 base_size fam style (group0 txt m) (overlay_pct env))).

(** The filter on year-like matches of the amount loop. *)
Definition looks_like_year (g : text) : bool :=
  contains (u "202") g && bool_decide (length g < 12)%nat.

Definition amount_hit (env : Env) (chars : list LTChar) (txt : text) (m : span)
  : result (option Hit) :=
  if looks_like_year (group0 txt m) then Ok None
  else resolve_hit env amount chars txt m.

Definition date_hit (env : Env) (chars : list LTChar) (txt : text) (m : span)
  : result (option Hit) :=
  resolve_hit env date chars txt m.

(** [for m in pat.finditer(txt)]: hits are appended to [page_hits]. *)
Fixpoint for_matches (body : span → result (option Hit)) (ms : list span)
    (page_hits : list Hit) : result (list Hit) :=
  match ms with
  | [] => Ok page_hits
  | m :: ms' =>
    let! o := body m in
    for_matches body ms'
      (match o with Some h => page_hits ++ [h] | None => page_hits end)
  end.

(** [for pat in pats: for m in pat.finditer(txt)] *)
Fixpoint for_patterns (body : span → result (option Hit)) (txt : text)
    (pats : list regex) (page_hits : list Hit) : result (list Hit) :=
  match pats with
  | [] => Ok page_hits
  | pat :: pats' =>
    let! page_hits := for_matches body (finditer pat txt) page_hits in
    for_patterns body txt pats' page_hits
  end.

Definition line_chars (items : list LineItem) : list LTChar :=
  omap (λ it, match it with ItemChar c => Some c | ItemAnno _ => None end) items.

Definition line_text (chars : list LTChar) : text := concat (get_text <$> chars).

Definition scan_line (env : Env) (items : list LineItem) (page_hits : list Hit)
  : result (list Hit) :=
  let chars := line_chars items in
  if bool_decide (chars = []) then Ok page_hits
  else
    let txt := line_text chars in
    let! page_hits :=
      for_patterns (amount_hit env chars txt) txt money_pats page_hits in
    for_patterns (date_hit env chars txt) txt [date_pat; date_pat_dots] page_hits.

Fixpoint scan_box (env : Env) (children : list BoxItem) (page_hits : list Hit)
  : result (list Hit) :=
  match children with
  | [] => Ok page_hits
  | TextLine items :: rest =>
    let! page_hits := scan_line env items page_hits in
    scan_box env rest page_hits
  | BoxOther :: rest => scan_box env rest page_hits
  end.

Fixpoint scan_layout (env : Env) (layout : list LayoutItem) (page_hits : list Hit)
  : result (list Hit) :=
  match layout with
  | [] => Ok page_hits
  | TextContainer children :: rest =>
    let! page_hits := scan_box env children page_hits in
    scan_layout env rest page_hits
  | LayoutOther :: rest => scan_layout env rest page_hits
  end.

(** ** Documents *)

Inductive color := white | black.

#[warnings="-register-all"]
Inductive DrawOp :=
| OpRect (x y w h : Q) (fill_color stroke_color : color) (fill stroke : bool)
| OpText (x y : Q) (font : text) (size : Q) (fill_color : color) (s : text)
| OpOther (id : nat)
| OpClipped (x y w h : Q) (ops : list DrawOp).
    (* operators drawn in a graphics state of their own, inside a clip to
       the rectangle with corner (x, y), width w and height h *)

(** A page of the source file: its media box (pypdf), its content stream
    and its layout (pdfminer). *)
Record Page := mkPage {
  mediabox_width : Q;
  mediabox_height : Q;
  contents : list DrawOp;
  layout : list LayoutItem
}.

(** A page written by the canvas. *)
Record OverlayPage := mkOverlayPage {
  ov_width : Q;
  ov_height : Q;
  ov_ops : list DrawOp
}.

(** [matches_by_page]: filled while [extract_pages] is enumerated. *)
Fixpoint extract_hits (env : Env) (pages : list Page) (pageno : nat)
    (matches_by_page : gmap nat (list Hit)) : result (gmap nat (list Hit)) :=
  match pages with
  | [] => Ok matches_by_page
  | page :: rest =>
    let! page_hits := scan_layout env (layout page) [] in
    extract_hits env rest (S pageno)
      (if bool_decide (page_hits = []) then matches_by_page
       else <[pageno := page_hits]> matches_by_page)
  end.

(** ** Canvas (reportlab) *)

Record Canvas := mkCanvas {
  pagesize : Q * Q;
  fillColor : color;
  strokeColor : color;
  code : list DrawOp;
  pages_done : list OverlayPage
}.

Definition new_canvas (size : Q * Q) : Canvas := mkCanvas size black black [] [].

Definition setFillColor (c : color) (cv : Canvas) : Canvas :=
  mkCanvas (pagesize cv) c (strokeColor cv) (code cv) (pages_done cv).

Definition setStrokeColor (c : color) (cv : Canvas) : Canvas :=
  mkCanvas (pagesize cv) (fillColor cv) c (code cv) (pages_done cv).

Definition emit (op : DrawOp) (cv : Canvas) : Canvas :=
  mkCanvas (pagesize cv) (fillColor cv) (strokeColor cv) (code cv ++ [op]) (pages_done cv).

Definition rect (x y w h : Q) (fill stroke : bool) (cv : Canvas) : Canvas :=
  emit (OpRect x y w h (fillColor cv) (strokeColor cv) fill stroke) cv.

Definition drawText (x y : Q) (font : text) (size : Q) (s : text) (cv : Canvas) : Canvas :=
  emit (OpText x y font size (fillColor cv) s) cv.

(** [showPage]: the page is closed with the canvas' page size and the
    graphics state starts afresh. *)
Definition showPage (cv : Canvas) : Canvas :=
  mkCanvas (pagesize cv) black black []
    (pages_done cv ++ [mkOverlayPage (pagesize cv).1 (pagesize cv).2 (code cv)]).

(** [save]: a page with pending code is closed first. *)
Definition save (cv : Canvas) : list OverlayPage :=
  if bool_decide (code cv = []) then pages_done cv else pages_done (showPage cv).

Definition _ensure_font (env : Env) (family style : text) : text :=
  if env_times_registered env then u "TimesNewRomanPS" else u "Times-Roman".

Definition new_text (hit : Hit) (new_amount : float) (current_date : text) : text :=
  match hit_kind hit with
  | amount => _format_like (hit_src hit) new_amount
  | date => current_date
  end.

Definition hit_pad (hit : Hit) : Q := qmax (12 # 10) ((18 # 100) * hit_size hit).

(** The body of [for hit in matches_by_page.get(i, [])]. The width
    [text_w] of the new text is computed by the source and not used. *)
Definition draw_hit (env : Env) (new_amount : float) (current_date : text) (hit : Hit)
    (canv : Canvas) : Canvas :=
  let x0 := hit_x0 hit in
  let y0 := hit_y0 hit in
  let x1 := hit_x1 hit in
  let y1 := hit_y1 hit in
  let size := hit_size hit in
  let rl_font := _ensure_font env (hit_family hit) (hit_style hit) in
  let new_text := new_text hit new_amount current_date in
  let pad := hit_pad hit in
  let rect_w_min := ((x1 - x0) + 2 * pad)%Q in
  let rect_h := ((y1 - y0) + 2 * pad)%Q in
  let canv := setStrokeColor white (setFillColor white canv) in
  let canv := rect (x0 - pad) (y0 - pad) rect_w_min rect_h true false canv in
  let canv := setStrokeColor black (setFillColor black canv) in
  let new_x := x0 in
  drawText new_x (y0 + (y1 - y0) * hit_k hit) rl_font size new_text canv.

(** A method call on [canv], which is [None] until the first page. *)
Definition on_canvas {A} (canv : option Canvas) (f : Canvas → A) : result A :=
  match canv with
  | Some cv => Ok (f cv)
  | None => Raise AttributeError
  end.

Fixpoint draw_hits (env : Env) (new_amount : float) (current_date : text)
    (hits : list Hit) (canv : option Canvas) : result (option Canvas) :=
  match hits with
  | [] => Ok canv
  | hit :: rest =>
    let! cv := on_canvas canv (draw_hit env new_amount current_date hit) in
    draw_hits env new_amount current_date rest (Some cv)
  end.

(** [for i, page in enumerate(reader.pages)] of the overlay loop. *)
Fixpoint draw_pages (env : Env) (new_amount : float) (current_date : text)
    (matches_by_page : gmap nat (list Hit)) (pages : list Page) (i : nat)
    (canv : option Canvas) : result (option Canvas) :=
  match pages with
  | [] => Ok canv
  | page :: rest =>
    let w := mediabox_width page in
    let h := mediabox_height page in
    let canv := if bool_decide (i = O) then Some (new_canvas (w, h)) else canv in
    let! canv :=
      draw_hits env new_amount current_date (default [] (matches_by_page !! i)) canv in
    let! cv := on_canvas canv showPage in
    draw_pages env new_amount current_date matches_by_page rest (S i) (Some cv)
  end.

(** ** Compositing (pypdf) *)

(** [page.merge_page(over)]: the content of the overlay page is stacked
    on the page inside a clip to the box of the overlay page, which for a
    page written by the canvas is the rectangle from (0, 0) to the page size
    of the canvas; the media box of [page] is kept. *)
Definition merge_page (page : Page) (over : OverlayPage) : Page :=
  mkPage (mediabox_width page) (mediabox_height page)
    (contents page ++ [OpClipped 0 0 (ov_width over) (ov_height over) (ov_ops over)])
    (layout page).

Fixpoint compose (pages : list Page) (over_pages : list OverlayPage) (i : nat)
    (writer : list Page) : list Page :=
  match pages with
  | [] => writer
  | page :: rest =>
    let page :=
      if bool_decide (i < length over_pages)%nat then
        match over_pages !! i with
        | Some o => merge_page page o
        | None => page
        end
      else page in
    compose rest over_pages (S i) (writer ++ [page])
  end.

(** The overlay document: one canvas for all pages, saved at the end. *)
Definition build_overlay (env : Env) (new_amount : float) (current_date : text)
    (matches_by_page : gmap nat (list Hit)) (pages : list Page)
  : result (list OverlayPage) :=
  let! canv := draw_pages env new_amount current_date matches_by_page pages 0 None in
  on_canvas canv save.

(** [notary_replace_amount_pdf_purepy] on a document that both readers
    have parsed; the result is the list of pages that is written out. *)
Definition notary_replace_amount_pdf_purepy (env : Env) (doc : list Page)
    (new_amount : float) : result (list Page) :=
  let current_date := now_nl_date env in
  let! matches_by_page := extract_hits env doc 0 ∅ in
  let! over_pages := build_overlay env new_amount current_date matches_by_page doc in
  Ok (compose doc over_pages 0 []).

(** ** Sample documents *)

(** A line whose glyphs are one character wide boxes in a row. *)
Definition glyph_at (i : nat) (c : cp) : LTChar :=
  mkLTChar [c] (inject_Z (6 * Z.of_nat i)) 700 (inject_Z (6 * Z.of_nat i + 6)) 712 12
    (u "ABCDEF+TimesNewRomanPSMT").

Definition glyph_line (s : text) : list LineItem :=
  imap (λ i c, ItemChar (glyph_at i c)) s.

Definition page_of_lines (w h : Q) (lines : list text) : Page :=
  mkPage w h [OpOther 0] [TextContainer ((λ s, TextLine (glyph_line s)) <$> lines)].

Definition env0 : Env := mkEnv None true (mkDateTime 3 11 2026).

(** ** Definitions used to state the properties *)

Definition made {A} (r : result (option A)) : option A :=
  match r with
  | Ok o => o
  | Raise _ => None
  end.

(** The hit that [resolve_hit] builds over a non-empty glyph slice. *)
Definition hit_over (env : Env) (kind : Kind) (txt : text) (m : span)
    (g : LTChar) (rest : list LTChar) (sz : Q) : Hit :=
  mkHit kind
    (foldl qmin (ch_x0 g) (ch_x0 <$> rest)) (foldl qmin (ch_y0 g) (ch_y0 <$> rest))
    (foldl qmax (ch_x1 g) (ch_x1 <$> rest)) (foldl qmax (ch_y1 g) (ch_y1 <$> rest))
    sz (_family_and_style (ch_fontname g)).1 (_family_and_style (ch_fontname g)).2
    (group0 txt m) (overlay_pct env).

(** The hits one pattern contributes on a line. *)
Definition pattern_hits (body : span → result (option Hit)) (pat : regex) (txt : text)
  : list Hit :=
  omap (λ m, made (body m)) (finditer pat txt).

Definition line_hits (env : Env) (chars : list LTChar) : list Hit :=
  let txt := line_text chars in
  pattern_hits (amount_hit env chars txt) money_pat_left txt
  ++ pattern_hits (amount_hit env chars txt) money_pat_right txt
  ++ pattern_hits (date_hit env chars txt) date_pat txt
  ++ pattern_hits (date_hit env chars txt) date_pat_dots txt.

(** The two operators a hit leaves on its page. *)
Definition hit_ops (env : Env) (new_amount : float) (current_date : text) (hit : Hit)
  : list DrawOp :=
  let pad := hit_pad hit in
  [ OpRect (hit_x0 hit - pad) (hit_y0 hit - pad)
      ((hit_x1 hit - hit_x0 hit) + 2 * pad) ((hit_y1 hit - hit_y0 hit) + 2 * pad)
      white white true false;
    OpText (hit_x0 hit) (hit_y0 hit + (hit_y1 hit - hit_y0 hit) * hit_k hit)
      (_ensure_font env (hit_family hit) (hit_style hit)) (hit_size hit) black
      (new_text hit new_amount current_date) ]%Q.

(** The overlay pages written for [n] source pages from index [i] on, by a
    canvas of page size [ps]. *)
Fixpoint overlay_pages (env : Env) (new_amount : float) (current_date : text)
    (matches_by_page : gmap nat (list Hit)) (ps : Q * Q) (n i : nat)
  : list OverlayPage :=
  match n with
  | O => []
  | S n' =>
    mkOverlayPage ps.1 ps.2
      (default [] (matches_by_page !! i) ≫= hit_ops env new_amount current_date)
    :: overlay_pages env new_amount current_date matches_by_page ps n' (S i)
  end.

(** What the compositor writes for the page at index [i]. *)
Definition composed_page (over_pages : list OverlayPage) (i : nat) (page : Page) : Page :=
  match over_pages !! i with
  | Some o => merge_page page o
  | None => page
  end.

(** A line of one-character glyphs in a given font. *)
Definition line_in (font : text) (s : text) : list LTChar :=
  imap (λ i c, mkLTChar [c] (inject_Z (6 * Z.of_nat i)) 700
                 (inject_Z (6 * Z.of_nat i + 6)) 712 12 font) s.

(** Sample inputs. *)
Definition doc_two_sizes : list Page :=
  [page_of_lines 595 842 [u "€ 5.000,00 op 01.01.2024"]; page_of_lines 842 595 []].

(** A line whose first glyph carries eight characters: the text is longer
    than the list of glyphs. *)
Definition line_wide_glyph : list LTChar :=
  mkLTChar (u "Totaal: ") 0 700 48 712 12 (u "Helvetica")
  :: line_chars (glyph_line (u "€ 5,00")).

Definition line_1202 : list LTChar := line_chars (glyph_line (u "€ 1.202,00")).
Definition line_date_dots : list LTChar := line_chars (glyph_line (u "01.01.2024")).

Definition has_subset_prefix (fn : text) : bool :=
  forallb is_AZ (take 6 fn) && bool_decide (fn !! 6%nat = Some PLUS).

(** Least number of characters a pattern consumes. *)
Fixpoint min_len (r : regex) : nat :=
  match r with
  | Lit _ | Cls _ | PlusCls _ => 1
  | Seq r1 r2 => min_len r1 + min_len r2
  | Rep n r1 => n * min_len r1
  | Opt _ | Bol | Eol | WordB => 0
  end.

(** A span ends before another starts. *)
Definition before (m1 m2 : span) : Prop := (m1.2 ≤ m2.1)%nat.

(** Two spans share a character position. *)
Definition overlap (m1 m2 : span) : Prop := (m1.1 < m2.2)%nat ∧ (m2.1 < m1.2)%nat.

Definition date_re (sep : cp) : regex :=
  WordB ⊙ Rep 2 (Cls is_digit) ⊙ Lit sep ⊙ Rep 2 (Cls is_digit) ⊙ Lit sep
  ⊙ Rep 4 (Cls is_digit) ⊙ WordB.

(** What position [j] of a ten character date holds. *)
Definition date_field (sep : cp) (j : nat) (c : cp) : bool :=
  match j with
  | 2%nat | 5%nat => c =? sep
  | _ => is_digit c
  end.

Definition date_like (sep : cp) (s : text) (a : nat) : Prop :=
  (∀ j, (j < 10)%nat → ∃ c, s !! (a + j)%nat = Some c ∧ date_field sep j c = true)
  ∧ xorb (word_before s a) (word_at s a) = true.

(** The matches of a pattern that make a hit, each with its hit. *)
Definition span_hits (body : span → result (option Hit)) (pat : regex) (txt : text)
  : list (span * Hit) :=
  omap (λ m, (λ h, (m, h)) <$> made (body m)) (finditer pat txt).

Definition line_both_sides : list LineItem := glyph_line (u "€ 5.000,00 €").

(** The exchange of separators made by the three [replace] calls. *)
Definition nl_char (c : cp) : cp :=
  if c =? COMMA then DOT else if c =? DOT then COMMA else c.

Definition digit_or (sep : cp) (c : cp) : Prop := is_digit c = true ∨ c = sep.

(** The digits before the decimal comma, grouped with dots. *)
Definition nl_body (a : N) : text := nl_char <$> group3 (digits (a / 100)).

(** The class run stops at the end of [l]. *)
Definition run_stops (p : cp → bool) (r : text) : Prop :=
  match r with
  | [] => True
  | c :: _ => p c = false
  end.

(** [parse_money] split in two for the proofs: the part after the
    clean-up steps, and the clean-up steps. *)
Definition parse_cleaned (t : text) : result Decimal :=
  let t :=
    if has COMMA t && has DOT t then replace [COMMA] [DOT] (replace [DOT] [] t)
    else if has COMMA t then replace [COMMA] [DOT] t
    else t in
  match re_match money_re t with
  | None => Raise ValueError
  | Some _ => Decimal_of_text t
  end.

Definition cleaned (txt : text) : text :=
  replace [SPACE] [] (replace (u "EUR") [] (replace [EURO] [] (upper (strip txt)))).

(** The characters of a formatted amount. *)
Definition plain (c : cp) : Prop :=
  is_digit c = true ∨ c = DOT ∨ c = COMMA ∨ c = SPACE ∨ c = EURO.

Definition keep (s : text) : text :=
  filter (λ c, c ≠ SPACE) (filter (λ c, c ≠ EURO) s).

(** ** Further definitions: the engine page by page *)

(** The hits the scan finds on one page. *)
Definition page_hits_of (env : Env) (page : Page) : list Hit :=
  match scan_layout env (layout page) [] with
  | Ok hits => hits
  | Raise _ => []
  end.

(** A page with the operators of its own hits stacked on its content,
    inside a clip to the box of an overlay page of size [ps]. *)
Definition rewritten_page (env : Env) (new_amount : float) (ps : Q * Q) (page : Page)
  : Page :=
  mkPage (mediabox_width page) (mediabox_height page)
    (contents page
     ++ [OpClipped 0 0 ps.1 ps.2
           (page_hits_of env page ≫= hit_ops env new_amount (now_nl_date env))])
    (layout page).

(** The text lines of a box and of a page, as the scan visits them. *)
Definition box_lines (children : list BoxItem) : list (list LineItem) :=
  omap (λ b, match b with TextLine items => Some items | BoxOther => None end) children.

Definition page_lines (page : Page) : list (list LineItem) :=
  layout page ≫= λ it,
    match it with
    | TextContainer children => box_lines children
    | LayoutOther => []
    end.

(** The glyphs of a page. *)
Definition page_glyphs (page : Page) : list LTChar := page_lines page ≫= line_chars.

(** Every glyph carries one character, so that the offsets of a match in
    the text of a line are positions in its list of glyphs. *)
Definition one_char_glyphs (chars : list LTChar) : Prop :=
  Forall (λ g, length (get_text g) = 1%nat) chars.

Definition box_line_texts (children : list BoxItem) : list text :=
  omap (λ b, match b with
             | TextLine items => Some (line_text (line_chars items))
             | BoxOther => None
             end) children.

(** The texts of the lines of a page, as the scan reads them. *)
Definition page_line_texts (page : Page) : list text :=
  layout page ≫= λ it,
    match it with
    | TextContainer children => box_line_texts children
    | LayoutOther => []
    end.

(** A glyph box inside another box given by its corners. *)
Definition glyph_inside (g : LTChar) (x0 y0 x1 y1 : Q) : Prop :=
  (x0 <= ch_x0 g)%Q ∧ (ch_x1 g <= x1)%Q ∧ (y0 <= ch_y0 g)%Q ∧ (ch_y1 g <= y1)%Q.

Definition glyph_well_formed (g : LTChar) : Prop :=
  (ch_x0 g <= ch_x1 g)%Q ∧ (ch_y0 g <= ch_y1 g)%Q ∧ (0 < ch_size g)%Q.

Definition doc_mixed : list Page :=
  [page_of_lines 595 842 [u "€ 5.000,00"]; page_of_lines 595 842 [u "geen bedrag"]].

(** ** Further definitions: amounts as text *)

(** An argument of type [float | Decimal]. *)
Inductive Number := NumFloat (v : float) | NumDecimal (d : Decimal).

(** [fmt_eur]: a [Decimal] is turned into a float first. *)
Definition fmt_eur (v : Number) : text :=
  let v := match v with NumDecimal d => float_of_Decimal d | NumFloat v => v end in
  number_nl v ++ [SPACE; EURO].

(** [fmt_eur_nl_with_cents] *)
Definition fmt_eur_nl_with_cents (v : Number) : text := fmt_eur v.

(** A sign and a number of cents as [n_str] shows them. *)
Definition number_nl_of (neg : bool) (a : N) : text := swap_separators (grouped_2f neg a).

(** The amount 7500.50 as the handler passes it on. *)
Definition sample_amount : float := float_of_Decimal (mkDecimal false 750050 2).

(** The sign in front of a number. *)
Definition sign_text (neg : bool) : text := if neg then [MINUS] else [].

(** The step of [parse_money] that turns the separators into a decimal
    point. *)
Definition decimal_point (t : text) : text :=
  if has COMMA t && has DOT t then replace [COMMA] [DOT] (replace [DOT] [] t)
  else if has COMMA t then replace [COMMA] [DOT] t
  else t.

(** Characters that [upper] and the removal of "EUR" leave alone. *)
Definition not_a_letter (c : cp) : Prop := is_az c = false ∧ c ≠ 69.

(** Whether a pattern has an atom that consumes the character [c]. *)
Fixpoint consumes (r : regex) (c : cp) : bool :=
  match r with
  | Lit c' => c =? c'
  | Cls p | PlusCls p => p c
  | Seq r1 r2 => consumes r1 c || consumes r2 c
  | Opt r1 | Rep _ r1 => consumes r1 c
  | Bol | Eol | WordB => false
  end.

(** The characters [parse_money] can digest: white space, digits, the two
    separators, the minus sign, the euro sign and the letters of "EUR" in
    either case. *)
Definition money_char (c : cp) : bool :=
  is_space c || is_digit (upper_cp c)
  || bool_decide (upper_cp c ∈ [DOT; COMMA; MINUS; EURO; 69; 85; 82]).

(** ** The typesetter of the mandate (class [Typesetter]) *)

(** reportlab units: [mm] points per millimetre, and the A4 sheet. *)
Definition mm : Q := 72 / (254 # 10).
Definition A4 : Q * Q := (210 * mm, 297 * mm)%Q.

(** What the typesetter leaves on its canvas. *)
Inductive TOp := DrawString (x y : Q) (font : text) (size : Q) (s : text).

(** The canvas as the typesetter uses it: the current font and the strings
    drawn so far. *)
Record TCanvas := mkTCanvas { tc_font : text; tc_size : Q; tc_code : list TOp }.

Definition setFont (font : text) (size : Q) (c : TCanvas) : TCanvas :=
  mkTCanvas font size (tc_code c).

Definition drawString (x y : Q) (s : text) (c : TCanvas) : TCanvas :=
  mkTCanvas (tc_font c) (tc_size c) (tc_code c ++ [DrawString x y (tc_font c) (tc_size c) s]).

Record Typesetter := mkTypesetter {
  ts_c : TCanvas;
  ts_left : Q;
  ts_x : Q;
  ts_y : Q;
  ts_line_h : Q;
  ts_font_r : text;
  ts_font_b : text;
  ts_size : Q
}.

(** [Typesetter.__init__]; the fonts are the two registered at import. *)
Definition Typesetter_init (canv : TCanvas) (F_MONO F_MONO_B : text)
    (left : option Q) (top : option Q) (line_h : option Q) : Typesetter :=
  let left := default (18 * mm)%Q left in
  mkTypesetter canv left left
    (match top with Some t => t | None => (A4.2 - 18 * mm)%Q end)
    (default (142 # 10)%Q line_h) F_MONO F_MONO_B 11.

(** [v or d] for an optional number: [None] and zero give [d]. *)
Definition or_default (v : option Q) (d : Q) : Q :=
  match v with
  | Some q => if Qeq_bool q 0 then d else q
  | None => d
  end.

Definition ts_font (ts : Typesetter) (bold : bool) : text :=
  if bold then ts_font_b ts else ts_font_r ts.

(** [Typesetter._w]; [stringWidth] is [pdfmetrics.stringWidth]. *)
Definition _w (stringWidth : text → text → Q → Q) (ts : Typesetter) (s : text)
    (bold : bool) (size : option Q) : Q :=
  let size := or_default size (ts_size ts) in
  stringWidth s (ts_font ts bold) size.

(** [str.split()]: the runs of characters between white space. *)
Fixpoint split_go (s cur : text) : list text :=
  match s with
  | [] => if bool_decide (cur = []) then [] else [cur]
  | c :: s' =>
    if is_space c then
      if bool_decide (cur = []) then split_go s' [] else cur :: split_go s' []
    else split_go s' (cur ++ [c])
  end.

Definition split_ws (s : text) : list text := split_go s [].

(** The four statements that draw a line of a paragraph: set the font,
    draw at the left margin (indented while [first]), move down. *)
Definition draw_line (font : text) (size indent : Q) (ts : Typesetter)
    (first : bool) (line : text) : Typesetter :=
  let c := setFont font size (ts_c ts) in
  let x0 := (ts_left ts + (if first then indent else 0))%Q in
  let c := drawString x0 (ts_y ts) line c in
  mkTypesetter c (ts_left ts) (ts_x ts) (ts_y ts - ts_line_h ts)%Q (ts_line_h ts)
    (ts_font_r ts) (ts_font_b ts) (ts_size ts).

(** The loop [while words:] of [Typesetter.para]. [None] when the fuel
    runs out before [words] is empty. *)
Fixpoint para_loop (stringWidth : text → text → Q → Q) (fuel : nat) (bold : bool)
    (size max_w indent : Q) (words : list text) (line : text) (first : bool)
    (ts : Typesetter) : option (text * bool * Typesetter) :=
  match words with
  | [] => Some (line, first, ts)
  | w :: rest =>
    match fuel with
    | O => None
    | S fuel' =>
      let trial := strip (line ++ [SPACE] ++ w) in
      if Qle_bool (_w stringWidth ts trial bold (Some size))
           (max_w - (if first then indent else 0))
      then para_loop stringWidth fuel' bold size max_w indent rest trial first ts
      else
        para_loop stringWidth fuel' bold size max_w indent words [] false
          (draw_line (ts_font ts bold) size indent ts first line)
    end
  end.

(** [Typesetter.para] *)
Definition para (stringWidth : text → text → Q → Q) (fuel : nat) (ts : Typesetter)
    (text_ : text) (bold : bool) (size : option Q) (indent : Q) (max_w : option Q)
  : option Typesetter :=
  let size := or_default size (ts_size ts) in
  let max_w := or_default max_w (A4.1 - ts_left ts * 2)%Q in
  let words := split_ws text_ in
  match para_loop stringWidth fuel bold size max_w indent words [] true ts with
  | None => None
  | Some (line, first, ts) =>
    Some (if bool_decide (line = []) then ts
          else draw_line (ts_font ts bold) size indent ts first line)
  end.

(** [Typesetter.kv]; the label is the text [label] followed by ": ". *)
Definition kv (stringWidth : text → text → Q → Q) (fuel : nat) (ts : Typesetter)
    (label value : text) (size : option Q) (max_w : option Q) : option Typesetter :=
  let size := or_default size (ts_size ts) in
  let max_w := or_default max_w (A4.1 - ts_left ts * 2)%Q in
  let label_txt := label ++ [58; SPACE] in
  let lw := _w stringWidth ts label_txt true (Some size) in
  let c := drawString (ts_left ts) (ts_y ts) label_txt (setFont (ts_font_b ts) size (ts_c ts)) in
  let rem_w := (max_w - lw)%Q in
  let old_left := ts_left ts in
  let ts1 := mkTypesetter c (ts_left ts + lw)%Q (ts_x ts) (ts_y ts) (ts_line_h ts)
               (ts_font_r ts) (ts_font_b ts) (ts_size ts) in
  match para stringWidth fuel ts1 value false (Some size) 0 (Some rem_w) with
  | None => None
  | Some ts2 =>
    Some (mkTypesetter (ts_c ts2) old_left (ts_x ts2) (ts_y ts2) (ts_line_h ts2)
            (ts_font_r ts2) (ts_font_b ts2) (ts_size ts2))
  end.

(** Words joined by single blanks. *)
Fixpoint unwords (ws : list text) : text :=
  match ws with
  | [] => []
  | [w] => w
  | w :: ws' => w ++ SPACE :: unwords ws'
  end.

(** A word as [split_ws] yields them. *)
Definition good_word (w : text) : Prop := w ≠ [] ∧ Forall (λ c, is_space c = false) w.

(** The height of the pen after [k] lines. *)
Definition y_after (k : nat) (y line_h : Q) : Q := Nat.iter k (λ v, (v - line_h)%Q) y.

(** The typesetter after the listed lines have been drawn, each with its
    [first] flag. *)
Definition draw_lines (font : text) (size indent : Q) (ts : Typesetter)
    (lines : list (bool * list text)) : Typesetter :=
  foldl (λ t l, draw_line font size indent t l.1 (unwords l.2)) ts lines.

Definition sample_width (s font : text) (size : Q) : Q := inject_Z (Z.of_nat (length s)) * 6.

Definition sample_ts : Typesetter :=
  Typesetter_init (mkTCanvas (u "Helvetica") 12 []) (u "PTMono") (u "PTMono-Bold")
    None None None.

(** A line of a paragraph fits the column: it is blank, or its width as
    measured is at most the column, less the indent on the first line. *)
Definition fits (stringWidth : text → text → Q → Q) (font : text) (size max_w indent : Q)
    (l : bool * list text) : Prop :=
  l.2 = [] ∨ (stringWidth (unwords l.2) font size <= max_w - (if l.1 then indent else 0))%Q.

(** The string drawn for the [k]-th line of a paragraph. *)
Definition line_op (font : text) (size indent : Q) (ts : Typesetter) (k : nat)
    (l : bool * list text) : TOp :=
  DrawString (ts_left ts + (if l.1 then indent else 0))%Q
    (y_after k (ts_y ts) (ts_line_h ts)) font size (unwords l.2).

(** The string drawn for the [k]-th line of a paragraph that starts at
    height [y] with left margin [left]: only the first line is indented. *)
Definition para_op (font : text) (size indent left y line_h : Q) (k : nat)
    (words : list text) : TOp :=
  DrawString (left + (if k is O then indent else 0))%Q (y_after k y line_h)
    font size (unwords words).

Definition op_y (o : TOp) : Q := let 'DrawString _ y _ _ _ := o in y.

Definition sample_para : text := u "aan de notaris te Amsterdam".
Definition sample_iban : text := u "IBAN NL91ABNA0417164300".

(** ** Looking up an asset ([asset_path]) *)

(** The file system as [asset_path] sees it: [joinpath] is [root / name],
    [resolve] is [Path.resolve] and [exists_] is [Path.exists], either of
    which returns or raises (a ValueError for a name with a NUL character,
    an OSError, a RuntimeError); [BASE_DIR] is the directory of the module
    and [cwd] is [Path.cwd()]. *)
Section AssetPath.
Variable Path : Type.
Variable joinpath : Path → text → Path.
Variable resolve : Path → result Path.
Variable exists_ : Path → result bool.
Variables BASE_DIR BASE_DIR_parent cwd : Path.

Definition asset_roots : list Path :=
  [ joinpath BASE_DIR (u "assets");
    joinpath BASE_DIR_parent (u "assets");
    joinpath cwd (u "assets");
    BASE_DIR ].

(** The inner loop [for root in roots]. *)
Fixpoint first_under (roots : list Path) (name : text) : result (option Path) :=
  match roots with
  | [] => Ok None
  | root :: roots' =>
    let! p := resolve (joinpath root name) in
    let! found := exists_ p in
    if found then Ok (Some p) else first_under roots' name
  end.

(** The outer loop [for name in candidates]. *)
Fixpoint first_found (roots : list Path) (candidates : list text)
  : result (option Path) :=
  match candidates with
  | [] => Ok None
  | name :: candidates' =>
    let! o := first_under roots name in
    match o with
    | Some p => Ok (Some p)
    | None => first_found roots candidates'
    end
  end.

Definition asset_path (candidates : list text) : result Path :=
  let! o := first_found asset_roots candidates in
  match o with
  | Some p => Ok p
  | None =>
    match candidates !! 0%nat with
    | Some c => resolve (joinpath (joinpath BASE_DIR (u "assets")) c)
    | None => Raise IndexError
    end
  end.

(** The outcomes of trying [name] under [root]. *)
Definition found_at (root : Path) (name : text) (p : Path) : Prop :=
  resolve (joinpath root name) = Ok p ∧ exists_ p = Ok true.

Definition missing_at (root : Path) (name : text) : Prop :=
  ∃ q, resolve (joinpath root name) = Ok q ∧ exists_ q = Ok false.


End AssetPath.

(** A sample file system: paths are texts, one file exists. *)
Definition sample_join (root name : text) : text := root ++ u "/" ++ name.
Definition sample_resolve (p : text) : result text :=
  if bool_decide (0 ∈ p) then Raise ValueError else Ok p.
Definition sample_exists (p : text) : result bool :=
  Ok (bool_decide (p = u "/srv/bot/ing.png")).

(** * Properties *)

(** ** The result monad and the statistics *)

Lemma insert_sorted_length x xs : length (insert_sorted x xs) = S (length xs).
Proof.
  induction xs as [|y ys IH]; simpl; [done|].
  destruct (Qlt_bool x y); simpl; [done|]. by rewrite IH.
Qed.

Lemma sorted_length xs : length (sorted xs) = length xs.
Proof.
  unfold sorted.
  assert (H : ∀ acc, length (foldl (λ acc x, insert_sorted x acc) acc xs)
                     = (length acc + length xs)%nat).
  { induction xs as [|x xs IH]; intros acc; simpl; [lia|].
    rewrite IH, insert_sorted_length. lia. }
  by rewrite H.
Qed.

Lemma median_nonempty x xs : ∃ m, median (x :: xs) = Ok m.
Proof.
  unfold median.
  pose proof (sorted_length (x :: xs)) as Hlen. simpl in Hlen.
  set (data := sorted (x :: xs)) in *.
  rewrite bool_decide_eq_false_2 by lia.
  assert (Hhalf : (length data / 2 < length data)%nat).
  { apply Nat.div_lt; lia. }
  destruct (Nat.odd (length data)).
  - destruct (lookup_lt_is_Some_2 data (length data / 2)%nat Hhalf) as [v ->]. eauto.
  - destruct (lookup_lt_is_Some_2 data (length data / 2)%nat Hhalf) as [v ->].
    assert (Hprev : (length data / 2 - 1 < length data)%nat) by lia.
    destruct (lookup_lt_is_Some_2 data _ Hprev) as [w ->]. eauto.
Qed.

Lemma resolve_hit_cases env kind chars txt m :
  match slice chars m.1 m.2 with
  | [] => resolve_hit env kind chars txt m = Ok None
  | g :: rest =>
    ∃ sz, median (ch_size <$> g :: rest) = Ok sz
          ∧ resolve_hit env kind chars txt m = Ok (Some (hit_over env kind txt m g rest sz))
  end.
Proof.
  unfold resolve_hit. destruct (slice chars m.1 m.2) as [|g rest] eqn:Hseg.
  - by rewrite bool_decide_eq_true_2.
  - rewrite bool_decide_eq_false_2 by done.
    destruct (median_nonempty (ch_size g) (ch_size <$> rest)) as [sz Hsz].
    exists sz. rewrite fmap_cons. split; [done|].
    rewrite !fmap_cons. unfold py_min, py_max. cbn [rbind]. rewrite Hsz. done.
Qed.

Lemma resolve_hit_ok env kind chars txt m :
  resolve_hit env kind chars txt m = Ok (made (resolve_hit env kind chars txt m)).
Proof.
  pose proof (resolve_hit_cases env kind chars txt m) as H.
  destruct (slice chars m.1 m.2); [by rewrite H|].
  destruct H as (sz & _ & ->). done.
Qed.

Lemma amount_hit_ok env chars txt m :
  amount_hit env chars txt m = Ok (made (amount_hit env chars txt m)).
Proof.
  unfold amount_hit. destruct (looks_like_year _); [done|]. apply resolve_hit_ok.
Qed.

Lemma date_hit_ok env chars txt m :
  date_hit env chars txt m = Ok (made (date_hit env chars txt m)).
Proof. apply resolve_hit_ok. Qed.

Section Loops.
Variable body : span → result (option Hit).
Hypothesis body_ok : ∀ m, body m = Ok (made (body m)).

Lemma for_matches_ok ms page_hits :
  for_matches body ms page_hits = Ok (page_hits ++ omap (λ m, made (body m)) ms).
Proof.
  revert page_hits. induction ms as [|m ms IH]; intros ph; simpl.
  - by rewrite app_nil_r.
  - rewrite body_ok. simpl. rewrite IH.
    destruct (made (body m)); simpl; [by rewrite <- app_assoc|done].
Qed.

Lemma for_patterns_ok txt pats page_hits :
  for_patterns body txt pats page_hits
  = Ok (page_hits ++ (pats ≫= λ pat, omap (λ m, made (body m)) (finditer pat txt))).
Proof.
  revert page_hits. induction pats as [|pat pats IH]; intros ph; simpl.
  - by rewrite app_nil_r.
  - rewrite for_matches_ok. simpl. rewrite IH. by rewrite <- app_assoc.
Qed.
End Loops.

Lemma scan_line_ok env items page_hits :
  scan_line env items page_hits = Ok (page_hits ++ line_hits env (line_chars items)).
Proof.
  unfold scan_line, line_hits.
  destruct (line_chars items) as [|c chars] eqn:Hc.
  - rewrite bool_decide_eq_true_2 by done. simpl. by rewrite app_nil_r.
  - rewrite bool_decide_eq_false_2 by done.
    rewrite (for_patterns_ok _ (amount_hit_ok env _ _)). cbn [rbind].
    rewrite (for_patterns_ok _ (date_hit_ok env _ _)).
    unfold money_pats, pattern_hits. cbn [mbind list_bind].
    by rewrite !app_nil_r, <- !app_assoc.
Qed.

Lemma scan_box_ok env children page_hits :
  ∃ hits, scan_box env children page_hits = Ok hits.
Proof.
  revert page_hits. induction children as [|[items|] rest IH]; intros ph; simpl; eauto.
  rewrite scan_line_ok. simpl. apply IH.
Qed.

Lemma scan_layout_ok env lay page_hits :
  ∃ hits, scan_layout env lay page_hits = Ok hits.
Proof.
  revert page_hits. induction lay as [|[children|] rest IH]; intros ph; simpl; eauto.
  destruct (scan_box_ok env children ph) as [hits ->]. simpl. apply IH.
Qed.

Lemma extract_hits_ok env pages pageno mbp :
  ∃ mbp', extract_hits env pages pageno mbp = Ok mbp'.
Proof.
  revert pageno mbp. induction pages as [|page rest IH]; intros n mbp; simpl; eauto.
  destruct (scan_layout_ok env (layout page) []) as [hits ->]. simpl. apply IH.
Qed.

(** ** Drawing and compositing *)

Lemma draw_hit_eq env new_amount current_date hit cv :
  draw_hit env new_amount current_date hit cv
  = mkCanvas (pagesize cv) black black
      (code cv ++ hit_ops env new_amount current_date hit) (pages_done cv).
Proof.
  unfold draw_hit, drawText, rect, emit, setStrokeColor, setFillColor, hit_ops.
  cbn [pagesize fillColor strokeColor code pages_done].
  by rewrite <- app_assoc.
Qed.

Lemma draw_hits_Some env new_amount current_date hits cv :
  ∃ fc sc,
    draw_hits env new_amount current_date hits (Some cv)
    = Ok (Some (mkCanvas (pagesize cv) fc sc
                  (code cv ++ (hits ≫= hit_ops env new_amount current_date))
                  (pages_done cv))).
Proof.
  revert cv. induction hits as [|hit hits IH]; intros cv.
  - exists (fillColor cv), (strokeColor cv). cbn. rewrite app_nil_r. by destruct cv.
  - cbn [draw_hits on_canvas rbind]. rewrite draw_hit_eq.
    destruct (IH (mkCanvas (pagesize cv) black black
                    (code cv ++ hit_ops env new_amount current_date hit)
                    (pages_done cv))) as (fc & sc & ->).
    exists fc, sc. cbn [pagesize code pages_done mbind list_bind].
    by rewrite <- app_assoc.
Qed.

Lemma overlay_pages_length env new_amount current_date mbp ps n i :
  length (overlay_pages env new_amount current_date mbp ps n i) = n.
Proof. revert i. induction n as [|n IH]; intros i; simpl; [done|]. by rewrite IH. Qed.

Lemma overlay_pages_size env new_amount current_date mbp ps n i o :
  o ∈ overlay_pages env new_amount current_date mbp ps n i →
  ov_width o = ps.1 ∧ ov_height o = ps.2.
Proof.
  revert i. induction n as [|n IH]; intros i; simpl.
  - by intros ?%elem_of_nil.
  - intros [->|Hin]%elem_of_cons; [done|]. by apply (IH (S i)).
Qed.

Lemma draw_pages_Some env new_amount current_date mbp pages i ps done :
  i ≠ O →
  draw_pages env new_amount current_date mbp pages i (Some (mkCanvas ps black black [] done))
  = Ok (Some (mkCanvas ps black black []
                (done ++ overlay_pages env new_amount current_date mbp ps (length pages) i))).
Proof.
  revert i done. induction pages as [|page rest IH]; intros i done Hi.
  - cbn. by rewrite app_nil_r.
  - cbn [draw_pages]. rewrite bool_decide_eq_false_2 by done.
    destruct (draw_hits_Some env new_amount current_date (default [] (mbp !! i))
                (mkCanvas ps black black [] done)) as (fc & sc & ->).
    cbn [rbind on_canvas]. unfold showPage. cbn [pagesize code pages_done app].
    rewrite IH by done. cbn [length overlay_pages]. by rewrite <- app_assoc.
Qed.

Lemma build_overlay_cons env new_amount current_date mbp page rest :
  build_overlay env new_amount current_date mbp (page :: rest)
  = Ok (overlay_pages env new_amount current_date mbp
          (mediabox_width page, mediabox_height page) (S (length rest)) 0).
Proof.
  unfold build_overlay. cbn [draw_pages]. rewrite bool_decide_eq_true_2 by done.
  destruct (draw_hits_Some env new_amount current_date (default [] (mbp !! O))
              (new_canvas (mediabox_width page, mediabox_height page)))
    as (fc & sc & ->).
  cbn [rbind on_canvas]. unfold showPage, new_canvas.
  cbn [pagesize code pages_done app].
  rewrite draw_pages_Some by done. cbn [rbind on_canvas]. unfold save.
  cbn [code pages_done].
  by rewrite bool_decide_eq_true_2.
Qed.

Lemma build_overlay_nil env new_amount current_date mbp :
  build_overlay env new_amount current_date mbp [] = Raise AttributeError.
Proof. done. Qed.

Lemma compose_eq pages over_pages i writer :
  compose pages over_pages i writer
  = writer ++ imap (λ j, composed_page over_pages (i + j)) pages.
Proof.
  revert i writer. induction pages as [|page rest IH]; intros i writer.
  - cbn. by rewrite app_nil_r.
  - cbn [compose imap]. rewrite IH, <- app_assoc. cbn [app].
    f_equal. f_equal.
    + unfold composed_page. rewrite Nat.add_0_r. case_bool_decide as Hlt; [done|].
      by rewrite lookup_ge_None_2 by lia.
    + apply imap_ext. intros j x _. cbn. f_equal. lia.
Qed.

Lemma composed_page_size over_pages i page :
  mediabox_width (composed_page over_pages i page) = mediabox_width page
  ∧ mediabox_height (composed_page over_pages i page) = mediabox_height page.
Proof. unfold composed_page. by destruct (over_pages !! i). Qed.

Lemma composed_page_prefix over_pages i page :
  contents page `prefix_of` contents (composed_page over_pages i page).
Proof.
  unfold composed_page. destruct (over_pages !! i); [|done].
  by apply prefix_app_r.
Qed.

Lemma notary_cons env page rest new_amount :
  ∃ mbp,
    extract_hits env (page :: rest) 0 ∅ = Ok mbp
    ∧ notary_replace_amount_pdf_purepy env (page :: rest) new_amount
      = Ok (imap (composed_page
                    (overlay_pages env new_amount (now_nl_date env) mbp
                       (mediabox_width page, mediabox_height page) (S (length rest)) 0))
              (page :: rest)).
Proof.
  destruct (extract_hits_ok env (page :: rest) 0 ∅) as [mbp Hmbp].
  exists mbp. split; [done|].
  unfold notary_replace_amount_pdf_purepy. rewrite Hmbp. cbn [rbind].
  rewrite build_overlay_cons. cbn [rbind]. rewrite compose_eq. done.
Qed.

(** ** Page structure (C1, C8, C9) *)

(** C1. For a document with at least one page the routine returns a
    document with as many pages as the input; the page at index [i] of
    the output has the media box width and height of input page [i] and
    starts with that page's own content, so the order is kept. *)
Theorem output_pages_match_input env doc new_amount :
  doc ≠ [] →
  ∃ out,
    notary_replace_amount_pdf_purepy env doc new_amount = Ok out
    ∧ length out = length doc
    ∧ ∀ i page, doc !! i = Some page →
        ∃ opage, out !! i = Some opage
                 ∧ mediabox_width opage = mediabox_width page
                 ∧ mediabox_height opage = mediabox_height page
                 ∧ contents page `prefix_of` contents opage.
Proof.
  destruct doc as [|page rest]; [done|]. intros _.
  destruct (notary_cons env page rest new_amount) as (mbp & _ & ->).
  eexists. split; [done|]. split; [by rewrite length_imap|].
  intros i p Hp. rewrite list_lookup_imap, Hp.
  eexists. split; [reflexivity|].
  split; [apply composed_page_size|]. split; [apply composed_page_size|].
  apply composed_page_prefix.
Qed.

Lemma output_pages_match_input_witness :
  ∃ out,
    notary_replace_amount_pdf_purepy env0 doc_two_sizes sample_amount = Ok out
    ∧ length out = length doc_two_sizes
    ∧ ∀ i page, doc_two_sizes !! i = Some page →
        ∃ opage, out !! i = Some opage
                 ∧ mediabox_width opage = mediabox_width page
                 ∧ mediabox_height opage = mediabox_height page
                 ∧ contents page `prefix_of` contents opage.
Proof. apply (output_pages_match_input env0 doc_two_sizes sample_amount). discriminate. Defined.

Example empty_document_raises :
  notary_replace_amount_pdf_purepy env0 [] sample_amount = Raise AttributeError.
Proof. reflexivity. Qed.

Example page_without_tokens_gets_empty_overlay :
  notary_replace_amount_pdf_purepy env0 [page_of_lines 595 842 [u "geen bedrag"]] sample_amount
  = Ok [merge_page (page_of_lines 595 842 [u "geen bedrag"]) (mkOverlayPage 595 842 [])].
Proof. vm_compute. reflexivity. Qed.

(** C8, as the code has it. Two source pages and a one-page overlay: the
    page counts differ, yet compositing returns a document; the second
    page is written without an overlay. *)
Lemma compose_mismatch_counterexample :
  let pages := [mkPage 595 842 [OpOther 0] []; mkPage 595 842 [OpOther 1] []] in
  let over_pages := [mkOverlayPage 595 842 [OpOther 7]] in
  length pages ≠ length over_pages
  ∧ compose pages over_pages 0 []
    = [mkPage 595 842 [OpOther 0; OpClipped 0 0 595 842 [OpOther 7]] [];
       mkPage 595 842 [OpOther 1] []].
Proof. split; [discriminate|reflexivity]. Qed.

(** C8, amended. Compositing never fails: every source page is written,
    merged with the overlay page of its index when there is one and
    unchanged otherwise; and for a document with at least one page the
    overlay has exactly one page per source page. *)
Theorem compose_total_and_aligned env new_amount current_date mbp page rest
    (pages : list Page) (over_pages : list OverlayPage) :
  compose pages over_pages 0 [] = imap (composed_page over_pages) pages
  ∧ length (compose pages over_pages 0 []) = length pages
  ∧ ∃ over,
      build_overlay env new_amount current_date mbp (page :: rest) = Ok over
      ∧ length over = length (page :: rest).
Proof.
  rewrite compose_eq. cbn [app]. split; [done|]. split; [by rewrite length_imap|].
  rewrite build_overlay_cons. eexists. split; [done|].
  by rewrite overlay_pages_length.
Qed.

(** C9, on the code. In a two-page document whose pages are 595 x 842 and
    842 x 595, the overlay page drawn for the second page is 595 x 842:
    the canvas keeps the page size it was created with for page 0. *)
Theorem overlay_page_keeps_first_page_size :
  ∃ o0 o1,
    build_overlay env0 sample_amount (now_nl_date env0) ∅ doc_two_sizes = Ok [o0; o1]
    ∧ (doc_two_sizes !! 1%nat ≫= λ p, Some (mediabox_width p, mediabox_height p))
      = Some (842, 595)%Q
    ∧ (ov_width o1, ov_height o1) = (595, 842)%Q.
Proof. do 2 eexists. split; [reflexivity|]. split; reflexivity. Qed.

(** Every overlay page has the size of the first source page. *)
Lemma overlay_pages_first_page_size env new_amount current_date mbp page rest over o :
  build_overlay env new_amount current_date mbp (page :: rest) = Ok over →
  o ∈ over →
  ov_width o = mediabox_width page ∧ ov_height o = mediabox_height page.
Proof.
  rewrite build_overlay_cons. intros Hov Hin.
  assert (Heq : over = overlay_pages env new_amount current_date mbp
                  (mediabox_width page, mediabox_height page) (S (length rest)) 0)
    by congruence.
  rewrite Heq in Hin. by apply overlay_pages_size in Hin.
Qed.

(** ** Drawing a hit (C5, C6) *)

Lemma qmax_Qmax a b : (qmax a b == Qmax a b)%Q.
Proof.
  unfold qmax, Qlt_bool. destruct (Qle_bool b a) eqn:E; cbn.
  - apply Qle_bool_iff in E. symmetry. by apply Q.max_l.
  - assert (a <= b)%Q.
    { destruct (Qlt_le_dec a b) as [Hlt|Hle]; [by apply Qlt_le_weak|].
      apply Qle_bool_iff in Hle. congruence. }
    symmetry. by apply Q.max_r.
Qed.

Lemma date_hit_kind env chars txt m h :
  date_hit env chars txt m = Ok (Some h) → hit_kind h = date.
Proof.
  unfold date_hit. pose proof (resolve_hit_cases env date chars txt m) as H.
  destruct (slice chars m.1 m.2).
  - rewrite H. discriminate.
  - destruct H as (sz & _ & ->). by intros [= <-].
Qed.

(** ** Scanning with [finditer] *)

Lemma scan_nothing r s starts next :
  (∀ i, i ∈ starts → (next ≤ i)%nat → match_at r s i = None) →
  scan r s starts next = [].
Proof.
  induction starts as [|i starts IH]; intros H; cbn [scan]; [done|].
  case_bool_decide as Hlt.
  - apply IH. intros j Hj. apply H. by apply list_elem_of_further.
  - rewrite H; [|apply list_elem_of_here|lia].
    apply IH. intros j Hj. apply H. by apply list_elem_of_further.
Qed.

Lemma finditer_head r s :
  finditer r s
  = match match_at r s 0 with
    | Some e => (O, e) :: scan r s (seq 1 (length s)) (Nat.max e 1)
    | None => scan r s (seq 1 (length s)) 0
    end.
Proof. unfold finditer. cbn [seq scan]. by rewrite bool_decide_eq_false_2 by lia. Qed.

(** ** The subset prefix of a font name (C7) *)

Lemma subset_re_later s i : i ≠ O → match_at subset_re s i = None.
Proof.
  intros Hi. unfold match_at, subset_re. cbn [rx].
  by rewrite bool_decide_eq_false_2.
Qed.

Lemma subset_re_start s :
  match_at subset_re s 0 = if has_subset_prefix s then Some 7%nat else None.
Proof.
  unfold match_at, subset_re, has_subset_prefix.
  destruct s as [|c1 [|c2 [|c3 [|c4 [|c5 [|c6 [|c7 s]]]]]]]; cbn;
    repeat (match goal with |- context [is_AZ ?c] => destruct (is_AZ c) end; cbn);
    try done.
  rewrite (bool_decide_eq_true_2 (O = O)) by done.
  destruct (N.eqb_spec c7 PLUS) as [->|Hne].
  - by rewrite bool_decide_eq_true_2.
  - rewrite bool_decide_eq_false_2; [done|]. congruence.
Qed.

Lemma strip_subset_spec fn :
  _strip_subset fn = if has_subset_prefix fn then drop 7 fn else fn.
Proof.
  unfold _strip_subset, re_sub_empty. rewrite finditer_head, subset_re_start.
  destruct (has_subset_prefix fn).
  - rewrite scan_nothing.
    + cbn. unfold slice. by rewrite take_0.
    + intros i Hi _. apply subset_re_later.
      apply elem_of_seq in Hi. lia.
  - rewrite scan_nothing; [done|].
    intros i Hi _. apply subset_re_later. apply elem_of_seq in Hi. lia.
Qed.

(** ** Matches without glyphs (C10) and the year filter (C2) *)

(** C10. A match whose span selects no glyph makes no hit, in the amount
    loop and in the date loop. Over a non-empty selection the minima,
    maxima and the median all return a value and the hit is built from
    them (in the amount loop unless the year filter drops the match); so
    neither the resolver nor the scan of a line or of a document raises. *)
Theorem hit_resolution_never_fails env kind chars txt m :
  match slice chars m.1 m.2 with
  | [] =>
    resolve_hit env kind chars txt m = Ok None
    ∧ amount_hit env chars txt m = Ok None
    ∧ date_hit env chars txt m = Ok None
  | g :: rest =>
    ∃ x0 x1 y0 y1 sz,
      let hit k :=
        mkHit k x0 y0 x1 y1 sz
          (_family_and_style (ch_fontname g)).1 (_family_and_style (ch_fontname g)).2
          (group0 txt m) (overlay_pct env) in
      py_min (ch_x0 <$> g :: rest) = Ok x0 ∧ py_max (ch_x1 <$> g :: rest) = Ok x1
      ∧ py_min (ch_y0 <$> g :: rest) = Ok y0 ∧ py_max (ch_y1 <$> g :: rest) = Ok y1
      ∧ median (ch_size <$> g :: rest) = Ok sz
      ∧ resolve_hit env kind chars txt m = Ok (Some (hit kind))
      ∧ date_hit env chars txt m = Ok (Some (hit date))
      ∧ amount_hit env chars txt m
        = Ok (if looks_like_year (group0 txt m) then None else Some (hit amount))
  end
  ∧ (∀ items page_hits, ∃ hits, scan_line env items page_hits = Ok hits)
  ∧ (∀ pages, ∃ mbp, extract_hits env pages 0 ∅ = Ok mbp).
Proof.
  split.
  { unfold amount_hit, date_hit.
    pose proof (resolve_hit_cases env kind chars txt m) as Hk.
    pose proof (resolve_hit_cases env amount chars txt m) as Ha.
    pose proof (resolve_hit_cases env date chars txt m) as Hd.
    destruct (slice chars m.1 m.2) as [|g rest].
    - rewrite Ha. split; [done|]. split; [by destruct (looks_like_year _)|done].
    - destruct Hk as (sz & Hsz & Hk). destruct Ha as (sz' & Hsz' & Ha).
      destruct Hd as (sz'' & Hsz'' & Hd).
      assert (sz' = sz) as -> by congruence. assert (sz'' = sz) as -> by congruence.
      do 5 eexists. cbv zeta.
      repeat split; [reflexivity..|exact Hsz|exact Hk|exact Hd|].
      rewrite Ha. by destruct (looks_like_year _). }
  split; [intros; rewrite scan_line_ok; eauto|].
  intros. apply extract_hits_ok.
Qed.

Lemma resolve_hit_src env kind chars txt m h :
  resolve_hit env kind chars txt m = Ok (Some h) → hit_src h = group0 txt m.
Proof.
  pose proof (resolve_hit_cases env kind chars txt m) as H.
  destruct (slice chars m.1 m.2) as [|g rest].
  - rewrite H. discriminate.
  - destruct H as (sz & _ & ->). by intros [= <-].
Qed.

Example match_beyond_glyphs_makes_no_hit :
  line_text line_wide_glyph = u "Totaal: € 5,00"
  ∧ finditer money_pat_left (line_text line_wide_glyph) = [(8, 14)%nat]
  ∧ slice line_wide_glyph 8 14 = []
  ∧ amount_hit env0 line_wide_glyph (line_text line_wide_glyph) (8, 14)%nat = Ok None.
Proof. repeat split; vm_compute; reflexivity. Qed.

(** C2. For a match of either money pattern on a line: when the matched
    text contains "202" and is shorter than 12 characters no hit is made;
    otherwise the filter lets the match through to the resolver, which
    makes a hit carrying the matched text as soon as the span covers a
    glyph. *)
Theorem year_like_amount_is_skipped env chars txt pat m :
  pat ∈ money_pats →
  m ∈ finditer pat txt →
  let g := group0 txt m in
  (contains (u "202") g = true ∧ (length g < 12)%nat →
   amount_hit env chars txt m = Ok None)
  ∧ (¬ (contains (u "202") g = true ∧ (length g < 12)%nat) →
     amount_hit env chars txt m = resolve_hit env amount chars txt m
     ∧ (slice chars m.1 m.2 ≠ [] →
        ∃ h, amount_hit env chars txt m = Ok (Some h) ∧ hit_src h = g)).
Proof.
  intros _ _ g. unfold amount_hit, looks_like_year. fold g. split.
  - intros [-> Hlen]. by rewrite bool_decide_eq_true_2.
  - intros Hno.
    assert (contains (u "202") g && bool_decide (length g < 12)%nat = false) as ->.
    { apply andb_false_iff. destruct (contains (u "202") g); [right|by left].
      apply bool_decide_eq_false_2. intros Hlen. by apply Hno. }
    split; [done|]. intros Hseg.
    pose proof (resolve_hit_cases env amount chars txt m) as H.
    destruct (slice chars m.1 m.2) as [|c rest]; [done|].
    destruct H as (sz & _ & H). eexists. split; [exact H|]. done.
Qed.

Lemma year_like_amount_is_skipped_witness :
  (0, 10)%nat ∈ finditer money_pat_left (u "€ 1.202,00")
  ∧ group0 (u "€ 1.202,00") (0, 10)%nat = u "€ 1.202,00"
  ∧ amount_hit env0 line_1202 (u "€ 1.202,00") (0, 10)%nat = Ok None.
Proof.
  split; [apply (bool_decide_unpack _); vm_compute; exact I|].
  split; [reflexivity|].
  apply (year_like_amount_is_skipped env0 line_1202 (u "€ 1.202,00")
           money_pat_left (0, 10)%nat).
  - apply list_elem_of_here.
  - apply (bool_decide_unpack _). vm_compute. exact I.
  - split; [vm_compute; reflexivity|]. vm_compute. lia.
Defined.

(** ** Bounds on matches *)

Lemma run_length_le p s : (run_length p s ≤ length s)%nat.
Proof. induction s as [|c s IH]; cbn; [lia|]. destruct (p c); lia. Qed.

Lemma greedy_down_inv k i n e :
  greedy_down k i n = Some e →
  ∃ j, (1 ≤ j ≤ n)%nat ∧ k (i + j)%nat = Some e.
Proof.
  induction n as [|n IH]; cbn; [done|].
  destruct (k (i + S n)%nat) eqn:Hk.
  - intros [= <-]. exists (S n). split; [lia|done].
  - intros (j & Hj & Hkj)%IH. exists j. split; [lia|done].
Qed.

Lemma rx_bounds r s i k e :
  rx r s i k = Some e →
  ∃ j, (i + min_len r ≤ j)%nat ∧ (j ≤ Nat.max i (length s))%nat ∧ k j = Some e.
Proof.
  revert i k. induction r as [c|p|r1 IH1 r2 IH2|r1 IH1|p|n r1 IH1| | |];
    intros i k; cbn [rx min_len].
  - destruct (s !! i) as [c'|] eqn:Hi; [|done]. destruct (c' =? c); [|done].
    apply lookup_lt_Some in Hi. intros Hk. exists (S i). split; [lia|]. split; [lia|done].
  - destruct (s !! i) as [c'|] eqn:Hi; [|done]. destruct (p c'); [|done].
    apply lookup_lt_Some in Hi. intros Hk. exists (S i). split; [lia|]. split; [lia|done].
  - intros (j1 & H1 & H1' & (j2 & H2 & H2' & Hk)%IH2)%IH1.
    exists j2. split; [lia|]. split; [lia|done].
  - destruct (rx r1 s i k) eqn:Hr.
    + intros [= <-]. apply IH1 in Hr as (j & H1 & H2 & Hk).
      exists j. split; [lia|]. split; [lia|done].
    + intros Hk. exists i. split; [lia|]. split; [lia|done].
  - intros (j & Hj & Hk)%greedy_down_inv.
    pose proof (run_length_le p (drop i s)) as Hle. rewrite length_drop in Hle.
    exists (i + j)%nat. split; [lia|]. split; [lia|done].
  - revert i. induction n as [|n IHn]; intros i.
    + intros Hk. exists i. split; [lia|]. split; [lia|done].
    + intros (j1 & H1 & H1' & (j2 & H2 & H2' & Hk)%IHn)%IH1.
      exists j2. split; [lia|]. split; [lia|done].
  - case_bool_decide; [|done]. intros Hk. exists i. split; [lia|]. split; [lia|done].
  - destruct (at_eol s i); [|done]. intros Hk. exists i. split; [lia|]. split; [lia|done].
  - destruct (xorb _ _); [|done]. intros Hk. exists i. split; [lia|]. split; [lia|done].
Qed.

Lemma match_at_bounds r s i e :
  match_at r s i = Some e → (i + min_len r ≤ e)%nat ∧ (e ≤ Nat.max i (length s))%nat.
Proof.
  intros (j & H1 & H2 & [= <-])%rx_bounds. done.
Qed.

Lemma before_no_overlap m1 m2 : before m1 m2 → ¬ overlap m1 m2.
Proof. unfold before, overlap. lia. Qed.

Lemma scan_from r s starts next :
  Forall (λ m, (next ≤ m.1)%nat) (scan r s starts next)
  ∧ StronglySorted before (scan r s starts next).
Proof.
  revert next. induction starts as [|i starts IH]; intros next; cbn [scan].
  - split; constructor.
  - case_bool_decide as Hlt; [apply IH|].
    destruct (match_at r s i) as [e|]; [|apply IH].
    destruct (IH (Nat.max e (S i))) as [Hall Hsorted]. split.
    + constructor; [cbn; lia|].
      eapply Forall_impl; [exact Hall|]. cbn. intros m Hm. lia.
    + constructor; [done|].
      eapply Forall_impl; [exact Hall|]. unfold before. cbn. intros m Hm. lia.
Qed.

Lemma scan_spans r s starts next :
  Forall (λ i, (i ≤ length s)%nat) starts →
  Forall (λ m, (m.1 + min_len r ≤ m.2)%nat ∧ (m.2 ≤ length s)%nat) (scan r s starts next).
Proof.
  revert next. induction starts as [|i starts IH]; intros next Hst; cbn [scan].
  - constructor.
  - apply Forall_cons in Hst as [Hi Hst].
    case_bool_decide as Hlt; [by apply IH|].
    destruct (match_at r s i) as [e|] eqn:He; [|by apply IH].
    constructor; [|by apply IH].
    apply match_at_bounds in He. cbn. lia.
Qed.

Lemma finditer_sorted r s : StronglySorted before (finditer r s).
Proof. apply scan_from. Qed.

Lemma finditer_spans r s :
  Forall (λ m, (m.1 + min_len r ≤ m.2)%nat ∧ (m.2 ≤ length s)%nat) (finditer r s).
Proof.
  apply scan_spans. apply Forall_forall. intros i Hi%elem_of_seq. lia.
Qed.

(** ** The two date patterns never overlap *)

Lemma date_match_shape sep s a e :
  match_at (date_re sep) s a = Some e → e = (a + 10)%nat ∧ date_like sep s a.
Proof.
  unfold match_at, date_re. cbn [rx]. intros H.
  destruct (xorb (word_before s a) (word_at s a)) eqn:Hwb; [|done].
  repeat (match type of H with
          | context [match s !! ?i with _ => _ end] =>
            destruct (s !! i) as [?c|] eqn:?Hc; [|discriminate]
          end;
          match type of H with
          | (if ?b then _ else _) = _ => destruct b eqn:?Hb; [|discriminate]
          end).
  match type of H with
  | (if ?b then _ else _) = _ => destruct b; [|discriminate]
  end.
  injection H as <-.
  split; [lia|]. split; [|done].
  intros j Hj.
  do 10 (destruct j as [|j];
         [rewrite ?Nat.add_succ_r, Nat.add_0_r; eexists; split; [eassumption|];
          cbn [date_field]; assumption|]).
  lia.
Qed.

Lemma date_field_other sep1 sep2 j :
  sep1 ≠ sep2 → is_digit sep2 = false → date_field sep1 j sep2 = false.
Proof.
  intros Hne Hd. unfold date_field.
  assert ((sep2 =? sep1) = false) by (apply N.eqb_neq; congruence).
  by destruct j as [|[|[|[|[|[|?]]]]]].
Qed.

(** A property of every digit, checked on the table. *)
Lemma digit_forall (P : cp → bool) :
  forallb (λ z, forallb (λ k, P (z + k)) [0; 1; 2; 3; 4; 5; 6; 7; 8; 9]) digit_zeros = true →
  ∀ c, is_digit c = true → P c = true.
Proof.
  intros Hall c Hc. unfold is_digit in Hc.
  apply existsb_exists in Hc as (z & Hz & Hb).
  rewrite forallb_forall in Hall. specialize (Hall z Hz). rewrite forallb_forall in Hall.
  unfold between in Hb. apply andb_true_iff in Hb as [H1%N.leb_le H2%N.leb_le].
  replace c with (z + (c - z)) by lia. apply Hall.
  assert (c - z = 0 ∨ c - z = 1 ∨ c - z = 2 ∨ c - z = 3 ∨ c - z = 4 ∨ c - z = 5
          ∨ c - z = 6 ∨ c - z = 7 ∨ c - z = 8 ∨ c - z = 9) as Hk by lia.
  repeat (destruct Hk as [->|Hk]; [cbn; tauto|]). rewrite Hk. cbn. tauto.
Qed.

Lemma digit_is_word c : is_digit c = true → is_word c = true.
Proof. apply (digit_forall is_word). vm_compute. reflexivity. Qed.

Lemma date_like_word sep s a j :
  date_like sep s a → (j < 10)%nat → j ≠ 2%nat → j ≠ 5%nat →
  word_at s (a + j) = true.
Proof.
  intros [Hf _] Hj H2 H5. destruct (Hf j Hj) as (c & Hc & Hd).
  unfold word_at. rewrite Hc. apply digit_is_word.
  unfold date_field in Hd.
  by destruct j as [|[|[|[|[|[|?]]]]]].
Qed.

Lemma date_shapes_ordered sep1 sep2 s a b :
  sep1 ≠ sep2 → is_digit sep2 = false →
  date_like sep1 s a → date_like sep2 s b → (a ≤ b)%nat → (a + 10 ≤ b)%nat.
Proof.
  intros Hne Hd Ha Hb Hab.
  destruct (decide (a + 10 ≤ b)%nat) as [|Hclose]; [done|]. exfalso.
  destruct (decide (b - a ≤ 7)%nat) as [Hnear|Hfar].
  - destruct Ha as [Hfa _]. destruct Hb as [Hfb _].
    destruct (Hfa (b - a + 2)%nat ltac:(lia)) as (c & Hc & Hfc).
    destruct (Hfb 2%nat ltac:(lia)) as (c' & Hc' & Hfc').
    replace (a + (b - a + 2))%nat with (b + 2)%nat in Hc by lia.
    assert (c = c') as -> by congruence.
    cbn [date_field] in Hfc'. apply N.eqb_eq in Hfc' as ->.
    by rewrite date_field_other in Hfc.
  - assert (Hprev : word_at s (a + (b - a - 1)) = true).
    { apply (date_like_word sep1); [done|lia..]. }
    assert (Hhere : word_at s (b + 0) = true).
    { apply (date_like_word sep2); [done|lia..]. }
    destruct Hb as [_ Hwb]. rewrite Nat.add_0_r in Hhere.
    destruct b as [|b]; [lia|]. cbn [word_before] in Hwb.
    replace (a + (S b - a - 1))%nat with b in Hprev by lia.
    by rewrite Hprev, Hhere in Hwb.
Qed.

Lemma date_matches_apart s a b ea eb :
  match_at date_pat s a = Some ea → match_at date_pat_dots s b = Some eb →
  ¬ overlap (a, ea) (b, eb).
Proof.
  intros [-> Ha]%(date_match_shape MINUS) [-> Hb]%(date_match_shape DOT).
  unfold overlap. cbn [fst snd].
  destruct (decide (a ≤ b)%nat).
  - pose proof (date_shapes_ordered MINUS DOT s a b) as H.
    specialize (H ltac:(done) ltac:(done) Ha Hb ltac:(done)). lia.
  - pose proof (date_shapes_ordered DOT MINUS s b a) as H.
    specialize (H ltac:(done) ltac:(done) Hb Ha ltac:(lia)). lia.
Qed.

Lemma scan_elem r s starts next m :
  m ∈ scan r s starts next → match_at r s m.1 = Some m.2.
Proof.
  revert next. induction starts as [|i starts IH]; intros next; cbn [scan].
  - by intros ?%elem_of_nil.
  - case_bool_decide; [apply IH|].
    destruct (match_at r s i) as [e|] eqn:He; [|apply IH].
    intros [->|Hin]%elem_of_cons; [done|]. by apply IH in Hin.
Qed.

Lemma finditer_elem r s m : m ∈ finditer r s → match_at r s m.1 = Some m.2.
Proof. apply scan_elem. Qed.

Lemma date_spans_apart s :
  Forall (λ ma, Forall (λ mb, ¬ overlap ma mb) (finditer date_pat_dots s))
    (finditer date_pat s).
Proof.
  apply Forall_forall. intros [a ea] Ha%finditer_elem.
  apply Forall_forall. intros [b eb] Hb%finditer_elem.
  by eapply date_matches_apart.
Qed.

(** ** Spans of the hits on a line (C4) *)

Lemma span_hits_hits body pat txt :
  (span_hits body pat txt).*2 = pattern_hits body pat txt.
Proof.
  unfold span_hits, pattern_hits.
  induction (finditer pat txt) as [|m ms IH]; cbn; [done|].
  destruct (made (body m)); cbn; by rewrite IH.
Qed.

Lemma span_hits_spans body pat txt :
  (span_hits body pat txt).*1 `sublist_of` finditer pat txt.
Proof.
  unfold span_hits.
  induction (finditer pat txt) as [|m ms IH]; cbn; [done|].
  destruct (made (body m)); cbn; by constructor.
Qed.

Lemma sublist_Forall {A} (P : A → Prop) (l1 l2 : list A) :
  l1 `sublist_of` l2 → Forall P l2 → Forall P l1.
Proof.
  intros Hsub. induction Hsub as [|x l1 l2 Hsub IH|x l1 l2 Hsub IH];
    intros Hall; [done|..].
  - apply Forall_cons in Hall as [Hx Hall]. constructor; [done|by apply IH].
  - apply Forall_cons in Hall as [_ Hall]. by apply IH.
Qed.

Lemma sublist_StronglySorted {A} (R : A → A → Prop) (l1 l2 : list A) :
  l1 `sublist_of` l2 → StronglySorted R l2 → StronglySorted R l1.
Proof.
  intros Hsub. induction Hsub as [|x l1 l2 Hsub IH|x l1 l2 Hsub IH];
    intros Hs; [done|..].
  - apply StronglySorted_inv in Hs as [Hs Hall]. constructor; [by apply IH|].
    eapply sublist_Forall; eauto.
  - apply StronglySorted_inv in Hs as [Hs _]. by apply IH.
Qed.

Lemma span_hits_sorted body pat txt :
  StronglySorted before (span_hits body pat txt).*1.
Proof.
  eapply sublist_StronglySorted; [apply span_hits_spans|apply finditer_sorted].
Qed.

Lemma span_hits_dates_apart env chars txt :
  Forall (λ ma, Forall (λ mb, ¬ overlap ma mb)
                  (span_hits (date_hit env chars txt) date_pat_dots txt).*1)
    (span_hits (date_hit env chars txt) date_pat txt).*1.
Proof.
  eapply sublist_Forall; [apply span_hits_spans|].
  eapply Forall_impl; [apply date_spans_apart|]. intros ma Hma.
  eapply sublist_Forall; [apply span_hits_spans|exact Hma].
Qed.

(** C4, as the code has it. On the line "€ 5.000,00 €" the symbol-left
    pattern makes a hit on the span 0-10 and the symbol-right pattern
    makes a hit on the span 1-12: both hits are kept and they share the
    characters 1 to 9. *)
Lemma overlapping_hits_counterexample :
  let chars := line_chars line_both_sides in
  let txt := line_text chars in
  ∃ h1 h2,
    span_hits (amount_hit env0 chars txt) money_pat_left txt = [((0, 10)%nat, h1)]
    ∧ span_hits (amount_hit env0 chars txt) money_pat_right txt = [((1, 12)%nat, h2)]
    ∧ overlap (0, 10)%nat (1, 12)%nat
    ∧ hit_src h1 = u "€ 5.000,00" ∧ hit_src h2 = u " 5.000,00 €"
    ∧ scan_line env0 line_both_sides [] = Ok [h1; h2].
Proof.
  do 2 eexists. split; [vm_compute; reflexivity|]. split; [vm_compute; reflexivity|].
  split; [unfold overlap; cbn; lia|].
  split; [reflexivity|]. split; [reflexivity|]. vm_compute. reflexivity.
Qed.

(** C4, amended. On a line the hits are made pattern by pattern in the
    order symbol-left amount, symbol-right amount, dash date, dot date.
    The hits of one pattern lie on pairwise non-overlapping spans, each
    ending before the next starts, and a span is non-empty and inside the
    line; a dash date hit and a dot date hit never overlap either. Hits of
    an amount pattern and of another pattern are not kept apart. *)
Theorem hits_of_one_pattern_do_not_overlap env items page_hits :
  let chars := line_chars items in
  let txt := line_text chars in
  let left := span_hits (amount_hit env chars txt) money_pat_left txt in
  let right := span_hits (amount_hit env chars txt) money_pat_right txt in
  let dash := span_hits (date_hit env chars txt) date_pat txt in
  let dots := span_hits (date_hit env chars txt) date_pat_dots txt in
  scan_line env items page_hits
  = Ok (page_hits ++ left.*2 ++ right.*2 ++ dash.*2 ++ dots.*2)
  ∧ StronglySorted before left.*1 ∧ StronglySorted before right.*1
  ∧ StronglySorted before dash.*1 ∧ StronglySorted before dots.*1
  ∧ Forall (λ m, (m.1 < m.2 ≤ length txt)%nat) (left.*1 ++ right.*1 ++ dash.*1 ++ dots.*1)
  ∧ Forall (λ ma, Forall (λ mb, ¬ overlap ma mb) dots.*1) dash.*1.
Proof.
  intros chars txt left right dash dots. subst left right dash dots.
  split. { rewrite scan_line_ok. unfold line_hits. by rewrite !span_hits_hits. }
  do 4 (split; [apply span_hits_sorted|]).
  split; [|apply span_hits_dates_apart].
  assert (Hspan : ∀ body pat, (1 ≤ min_len pat)%nat →
            Forall (λ m, (m.1 < m.2 ≤ length txt)%nat) (span_hits body pat txt).*1).
  { intros body pat Hmin. eapply sublist_Forall; [apply span_hits_spans|].
    eapply Forall_impl; [apply finditer_spans|]. cbn. intros m Hm. lia. }
  rewrite !Forall_app. repeat split; apply Hspan; cbn; lia.
Qed.

(** ** Strings: replace, strip, upper *)

Lemma replace_single_map old new s :
  replace [old] [new] s = (λ c, if c =? old then new else c) <$> s.
Proof.
  unfold replace. induction s as [|c s IH]; [done|].
  cbn [replace_go starts_with length fmap list_fmap].
  rewrite (N.eqb_sym old c). destruct (c =? old); cbn; by rewrite IH.
Qed.

Lemma replace_single_filter old s :
  replace [old] [] s = filter (λ c, c ≠ old) s.
Proof.
  unfold replace. induction s as [|c s IH]; [done|].
  cbn [replace_go starts_with length].
  rewrite (N.eqb_sym old c). destruct (N.eqb_spec c old) as [->|Hne]; cbn -[filter].
  - rewrite filter_cons_False by (intros H; by apply H). exact IH.
  - rewrite filter_cons_True by done. by rewrite IH.
Qed.

Lemma replace_absent c old new s :
  Forall (λ x, x ≠ c) s → replace (c :: old) new s = s.
Proof.
  unfold replace. induction 1 as [|x s Hx Hs IH]; [done|].
  cbn [replace_go starts_with].
  assert ((c =? x) = false) as -> by (apply N.eqb_neq; congruence).
  cbn. by rewrite IH.
Qed.

Lemma lstrip_id c s : is_space c = false → lstrip (c :: s) = c :: s.
Proof. intros H. cbn. by rewrite H. Qed.

Lemma strip_id c s d :
  is_space c = false → last (c :: s) = Some d → is_space d = false →
  strip (c :: s) = c :: s.
Proof.
  intros Hc Hlast Hd. unfold strip. rewrite lstrip_id by done.
  destruct (rev (c :: s)) as [|d' r] eqn:Hrev.
  - apply (f_equal length) in Hrev. rewrite length_rev in Hrev. done.
  - assert (d' = d) as ->.
    { rewrite <- (rev_involutive (c :: s)), Hrev in Hlast. cbn [rev] in Hlast.
      rewrite last_snoc in Hlast. congruence. }
    rewrite lstrip_id by done. rewrite <- Hrev. apply rev_involutive.
Qed.

Lemma upper_id s : Forall (λ c, is_az c = false) s → upper s = s.
Proof.
  unfold upper, upper_cp. induction 1 as [|c s Hc Hs IH]; [done|].
  cbn. rewrite Hc. by rewrite IH.
Qed.

Lemma has_spec c s : has c s = true ↔ c ∈ s.
Proof.
  unfold has. induction s as [|x s IH]; cbn.
  - split; [done|by intros ?%elem_of_nil].
  - rewrite elem_of_cons, <- IH, orb_true_iff, andb_true_r, N.eqb_eq.
    destruct s; cbn; tauto.
Qed.

Lemma has_false c s : Forall (λ x, x ≠ c) s → has c s = false.
Proof.
  intros H. destruct (has c s) eqn:E; [|done].
  apply has_spec in E. rewrite Forall_forall in H. by destruct (H c E).
Qed.

(** ** Decimal digits *)

Lemma of_digits_app l1 l2 :
  of_digits (l1 ++ l2) = of_digits l1 * 10 ^ N.of_nat (length l2) + of_digits l2.
Proof.
  unfold of_digits. rewrite foldl_app.
  generalize (foldl (λ acc c, acc * 10 + digit_val c) 0 l1). intros a.
  revert a. induction l2 as [|c l2 IH]; intros a.
  - cbn. lia.
  - cbn [foldl length]. rewrite IH, (IH (0 * 10 + digit_val c)).
    rewrite Nat2N.inj_succ, N.pow_succ_r'. lia.
Qed.

Lemma digit_char_val d : d < 10 → digit_val (digit_char d) = d ∧ is_digit (digit_char d) = true.
Proof.
  intros Hd.
  assert (d = 0 ∨ d = 1 ∨ d = 2 ∨ d = 3 ∨ d = 4 ∨ d = 5 ∨ d = 6 ∨ d = 7 ∨ d = 8 ∨ d = 9)
    as Hk by lia.
  repeat (destruct Hk as [->|Hk]; [by vm_compute|]). rewrite Hk. by vm_compute.
Qed.

Lemma digits_go_spec fuel n acc :
  n < 2 ^ N.of_nat fuel → (0 < fuel)%nat →
  ∃ ds, digits_go fuel n acc = ds ++ acc ∧ ds ≠ []
        ∧ Forall (λ c, is_digit c = true) ds ∧ of_digits ds = n.
Proof.
  revert n acc. induction fuel as [|f IH]; intros n acc Hn Hf; [lia|].
  cbn [digits_go].
  assert (Hmod : n `mod` 10 < 10) by (apply N.mod_lt; lia).
  destruct (digit_char_val _ Hmod) as [Hval Hdig].
  destruct (N.eqb_spec (n / 10) 0) as [Hz|Hnz].
  - exists [digit_char (n `mod` 10)]. split; [done|]. split; [done|].
    split; [by constructor|]. unfold of_digits. cbn. rewrite Hval.
    pose proof (N.div_mod n 10 ltac:(lia)). lia.
  - assert (Hdiv : n / 10 < 2 ^ N.of_nat f).
    { rewrite Nat2N.inj_succ, N.pow_succ_r' in Hn.
      apply N.Div0.div_lt_upper_bound. lia. }
    assert (0 < f)%nat.
    { destruct f; [|lia]. change (N.of_nat 0) with 0 in Hdiv.
      rewrite N.pow_0_r in Hdiv. exfalso. apply Hnz. by apply N.lt_1_r. }
    destruct (IH (n / 10) (digit_char (n `mod` 10) :: acc) Hdiv ltac:(done))
      as (ds & -> & Hne & Hall & Hof).
    exists (ds ++ [digit_char (n `mod` 10)]). split; [by rewrite <- app_assoc|].
    split; [by destruct ds|]. split.
    + apply Forall_app. split; [done|by constructor].
    + rewrite of_digits_app, Hof. unfold of_digits at 1. cbn. rewrite Hval.
      pose proof (N.div_mod n 10 ltac:(lia)). lia.
Qed.

Lemma digits_spec n :
  digits n ≠ [] ∧ Forall (λ c, is_digit c = true) (digits n) ∧ of_digits (digits n) = n.
Proof.
  unfold digits.
  destruct (digits_go_spec (S (N.to_nat (N.log2 n))) n []) as (ds & -> & H); [|lia|].
  - rewrite Nat2N.inj_succ, N2Nat.id.
    destruct (N.eq_dec n 0) as [->|Hn]; [done|].
    apply N.log2_spec. lia.
  - by rewrite app_nil_r.
Qed.

Lemma pad2_spec n :
  n < 100 →
  ∃ f1 f2, pad2 n = [f1; f2] ∧ is_digit f1 = true ∧ is_digit f2 = true
           ∧ of_digits [f1; f2] = n.
Proof.
  intros Hn. unfold pad2.
  assert (H1 : n / 10 < 10) by (apply N.Div0.div_lt_upper_bound; lia).
  assert (H2 : n `mod` 10 < 10) by (apply N.mod_lt; lia).
  destruct (digit_char_val _ H1) as [Hv1 Hd1].
  destruct (digit_char_val _ H2) as [Hv2 Hd2].
  do 2 eexists. split; [done|]. split; [done|]. split; [done|].
  unfold of_digits. cbn. rewrite Hv1, Hv2.
  pose proof (N.div_mod n 10 ltac:(lia)). lia.
Qed.

(** ** The formatted number *)

Lemma digit_basic c :
  is_digit c = true → nl_char c = c ∧ is_az c = false ∧ is_space c = false.
Proof.
  intros Hd.
  pose proof (digit_forall (λ c, (nl_char c =? c) && negb (is_az c) && negb (is_space c))
                ltac:(vm_compute; reflexivity) c Hd) as H.
  apply andb_true_iff in H as [[H1%N.eqb_eq H2%negb_true_iff]%andb_true_iff H3%negb_true_iff].
  done.
Qed.

Ltac by_digit c H :=
  let H1 := fresh in let H2 := fresh in let H3 := fresh in
  destruct (digit_basic c H) as (H1 & H2 & H3); try done; try tauto.

Lemma filter_rev {A} (P : A → Prop) `{!∀ x, Decision (P x)} (l : list A) :
  filter P (rev l) = rev (filter P l).
Proof.
  induction l as [|x l IH]; [done|]. cbn [rev]. rewrite filter_app, IH.
  destruct (decide (P x)).
  - rewrite (filter_cons_True P x l), (filter_cons_True P x []) by done.
    done.
  - rewrite (filter_cons_False P x l), (filter_cons_False P x []) by done.
    by rewrite app_nil_r.
Qed.

Lemma filter_all {A} (P : A → Prop) `{!∀ x, Decision (P x)} (l : list A) :
  Forall P l → filter P l = l.
Proof.
  induction 1 as [|x l Hx Hl IH]; [done|].
  rewrite filter_cons_True by done. by rewrite IH.
Qed.

Lemma digit_ne c d : is_digit c = true → is_digit d = false → c ≠ d.
Proof. intros Hc Hd ->. congruence. Qed.

Lemma chunk3_spec k rs :
  Forall (λ c, is_digit c = true) rs →
  Forall (digit_or COMMA) (chunk3 k rs)
  ∧ filter (λ c, c ≠ COMMA) (chunk3 k rs) = rs
  ∧ (rs ≠ [] → chunk3 k rs ≠ []).
Proof.
  intros Hall. revert k. induction Hall as [|c rs Hc Hrs IH]; intros k.
  - cbn. split; [constructor|]. done.
  - assert (c ≠ COMMA) by (by apply digit_ne).
    destruct k as [|k]; cbn [chunk3].
    + destruct (IH 2%nat) as (H1 & H2 & _). split; [|split; [|done]].
      * constructor; [by right|]. constructor; [by left|done].
      * rewrite filter_cons_False by (intros Hn; by apply Hn).
        rewrite filter_cons_True by done. by rewrite H2.
    + destruct (IH k) as (H1 & H2 & _). split; [|split; [|done]].
      * constructor; [by left|done].
      * rewrite filter_cons_True by done. by rewrite H2.
Qed.

Lemma group3_spec ds :
  Forall (λ c, is_digit c = true) ds →
  Forall (digit_or COMMA) (group3 ds)
  ∧ filter (λ c, c ≠ COMMA) (group3 ds) = ds
  ∧ (ds ≠ [] → group3 ds ≠ []).
Proof.
  intros Hall. unfold group3.
  assert (Hrev : Forall (λ c, is_digit c = true) (rev ds)).
  { apply Forall_forall. intros c Hc%list_elem_of_In%in_rev%list_elem_of_In.
    rewrite Forall_forall in Hall. by apply Hall. }
  destruct (chunk3_spec 3 (rev ds) Hrev) as (H1 & H2 & H3).
  split; [|split].
  - apply Forall_forall. intros c Hc%list_elem_of_In%in_rev%list_elem_of_In.
    rewrite Forall_forall in H1. by apply H1.
  - rewrite filter_rev, H2. apply rev_involutive.
  - intros Hne Hnil. apply H3.
    + intros Hr. apply Hne. rewrite <- (rev_involutive ds), Hr. done.
    + rewrite <- (rev_involutive (chunk3 3 (rev ds))), Hnil. done.
Qed.

Lemma nl_body_spec l :
  Forall (digit_or COMMA) l →
  Forall (digit_or DOT) (nl_char <$> l)
  ∧ filter (λ c, c ≠ DOT) (nl_char <$> l) = filter (λ c, c ≠ COMMA) l.
Proof.
  induction 1 as [|c l Hc Hl [IH1 IH2]]; [split; [constructor|done]|].
  cbn [fmap list_fmap]. destruct Hc as [Hd| ->].
  - assert (nl_char c = c) as -> by (by_digit c Hd).
    assert (c ≠ DOT) by (by apply digit_ne).
    assert (c ≠ COMMA) by (by apply digit_ne).
    split; [constructor; [by left|done]|].
    rewrite !filter_cons_True by done. by rewrite IH2.
  - change (nl_char COMMA) with DOT. split; [constructor; [by right|done]|].
    rewrite !filter_cons_False by (intros Hn; by apply Hn). done.
Qed.

Lemma swap_chain_map s :
  Forall (λ c, c ≠ LETTER_X) s →
  replace [LETTER_X] [DOT] (replace [DOT] [COMMA] (replace [COMMA] [LETTER_X] s))
  = nl_char <$> s.
Proof.
  intros Hall. rewrite !replace_single_map, <- !list_fmap_compose.
  apply Forall_fmap_ext. eapply Forall_impl; [exact Hall|].
  intros c Hc. cbn. unfold nl_char.
  destruct (N.eqb_spec c COMMA) as [->|Hcomma]; [done|].
  destruct (N.eqb_spec c DOT) as [->|Hdot]; [done|].
  destruct (N.eqb_spec c LETTER_X); [done|]. done.
Qed.

Lemma number_nl_of_eq neg a :
  number_nl_of neg a = sign_text neg ++ nl_body a ++ COMMA :: pad2 (a `mod` 100).
Proof.
  unfold number_nl_of, swap_separators, grouped_2f, nl_body.
  destruct (digits_spec (a / 100)) as (_ & Hdig & _).
  destruct (group3_spec _ Hdig) as (Hgrp & _ & _).
  destruct (pad2_spec (a `mod` 100)) as (f1 & f2 & Hpad & Hf1 & Hf2 & _).
  { apply N.mod_lt. lia. }
  rewrite swap_chain_map.
  - rewrite !fmap_app. f_equal; [by destruct neg|]. f_equal.
    cbn [fmap list_fmap app]. change (nl_char DOT) with COMMA. f_equal.
    rewrite Hpad. cbn. f_equal; [by_digit f1 Hf1|f_equal; by_digit f2 Hf2].
  - apply Forall_app. split; [by destruct neg; repeat constructor|].
    apply Forall_app. split.
    + eapply Forall_impl; [exact Hgrp|]. intros c [Hd| ->]; [|done].
      by apply digit_ne.
    + constructor; [done|]. rewrite Hpad.
      constructor; [by apply digit_ne|]. constructor; [by apply digit_ne|constructor].
Qed.

Lemma number_nl_finite neg m e :
  number_nl (Finite neg m e) = number_nl_of neg (cents_of m e).
Proof. reflexivity. Qed.

(** ** Running the matcher along a known text *)

Lemma drop_head {A} (s : list A) i c r : drop i s = c :: r → s !! i = Some c.
Proof.
  intros H. pose proof (lookup_drop s i 0) as Hl.
  rewrite H, Nat.add_0_r in Hl. done.
Qed.

Lemma drop_next {A} (s : list A) i c r : drop i s = c :: r → drop (S i) s = r.
Proof.
  intros H. pose proof (drop_head _ _ _ _ H) as Hc.
  rewrite (drop_S _ _ _ Hc) in H. congruence.
Qed.

Lemma drop_past {A} (s : list A) i l r : drop i s = l ++ r → drop (i + length l) s = r.
Proof. intros H. by rewrite <- drop_drop, H, drop_app_length. Qed.

Lemma rx_seq r1 r2 s i k : rx (r1 ⊙ r2) s i k = rx r1 s i (λ j, rx r2 s j k).
Proof. done. Qed.

Lemma rx_rep_S n r s i k : rx (Rep (S n) r) s i k = rx r s i (λ j, rx (Rep n r) s j k).
Proof. done. Qed.

Lemma rx_rep_0 r s i k : rx (Rep 0 r) s i k = k i.
Proof. done. Qed.

Lemma rx_lit_step s i c r k : drop i s = c :: r → rx (Lit c) s i k = k (S i).
Proof. intros H%drop_head. cbn [rx]. by rewrite H, N.eqb_refl. Qed.

Lemma rx_lit_miss s i c c' r k : drop i s = c' :: r → c' ≠ c → rx (Lit c) s i k = None.
Proof.
  intros H%drop_head Hne. cbn [rx]. rewrite H.
  by assert ((c' =? c) = false) as -> by (by apply N.eqb_neq).
Qed.

Lemma rx_lit_end s c k : rx (Lit c) s (length s) k = None.
Proof. cbn [rx]. by rewrite lookup_ge_None_2. Qed.

Lemma rx_cls_step p s i c r k :
  drop i s = c :: r → p c = true → rx (Cls p) s i k = k (S i).
Proof. intros H%drop_head Hp. cbn [rx]. by rewrite H, Hp. Qed.

Lemma rx_opt_hit r s i k e : rx r s i k = Some e → rx (Opt r) s i k = Some e.
Proof. intros H. cbn [rx]. by rewrite H. Qed.

Lemma rx_opt_miss r s i k : rx r s i k = None → rx (Opt r) s i k = k i.
Proof. intros H. cbn [rx]. by rewrite H. Qed.

Lemma rx_bol_0 s k : rx Bol s 0 k = k O.
Proof. done. Qed.

Lemma rx_eol_end s k : rx Eol s (length s) k = k (length s).
Proof. cbn [rx]. unfold at_eol. by rewrite bool_decide_eq_true_2. Qed.

Lemma run_length_app p l r :
  Forall (λ c, p c = true) l → run_stops p r → run_length p (l ++ r) = length l.
Proof.
  intros Hall Hr. induction Hall as [|c l Hc Hl IH]; cbn.
  - destruct r as [|c r]; [done|]. cbn in *. by rewrite Hr.
  - cbn beta in Hc. by rewrite Hc, IH.
Qed.

Lemma rx_plus_step p s i l r k e :
  drop i s = l ++ r → l ≠ [] → Forall (λ c, p c = true) l → run_stops p r →
  k (i + length l)%nat = Some e →
  rx (PlusCls p) s i k = Some e.
Proof.
  intros Hdrop Hne Hall Hr Hk. cbn [rx]. rewrite Hdrop, run_length_app by done.
  destruct l as [|c l]; [done|]. cbn [length greedy_down]. cbn [length] in Hk.
  by rewrite Hk.
Qed.

Lemma rx_plus_end p s k : rx (PlusCls p) s (length s) k = None.
Proof. cbn [rx]. by rewrite drop_all. Qed.

Lemma finditer_full r s :
  s ≠ [] → match_at r s 0 = Some (length s) → match_at r s (length s) = None →
  finditer r s = [(O, length s)].
Proof.
  intros Hne H0 Hend. rewrite finditer_head, H0. f_equal.
  apply scan_nothing. intros i Hi%elem_of_seq Hle.
  assert (i = length s) as -> by (destruct s; [done|]; cbn [length] in *; lia).
  done.
Qed.

Lemma amount_char_digit_or c : digit_or DOT c → is_amount_char c = true.
Proof.
  unfold is_amount_char. intros [-> | ->]; [done|].
  by rewrite orb_true_r.
Qed.

Section Formatted.
Variables (body : text) (f1 f2 : cp).
Hypothesis body_ne : body ≠ [].
Hypothesis body_ok : Forall (digit_or DOT) body.
Hypothesis f1_digit : is_digit f1 = true.
Hypothesis f2_digit : is_digit f2 = true.

Let body_class : Forall (λ c, is_amount_char c = true) body.
Proof. eapply Forall_impl; [exact body_ok|]. apply amount_char_digit_or. Qed.

Lemma left_matches_all :
  let s := EURO :: SPACE :: body ++ [COMMA; f1; f2] in
  finditer money_pat_left s = [(O, length s)].
Proof.
  intros s. apply finditer_full; [done| |].
  - unfold match_at, money_pat_left.
    rewrite rx_seq, (rx_lit_step s 0 EURO (SPACE :: body ++ [COMMA; f1; f2])) by done.
    rewrite rx_seq. apply rx_opt_hit.
    rewrite (rx_cls_step _ s 1 SPACE (body ++ [COMMA; f1; f2])) by done.
    rewrite rx_seq.
    apply (rx_plus_step _ s 2 body [COMMA; f1; f2]); [done..|].
    assert (Hd : drop (2 + length body) s = [COMMA; f1; f2]).
    { apply (drop_past s 2 body). done. }
    rewrite rx_seq, (rx_lit_step s _ COMMA [f1; f2]) by done.
    apply drop_next in Hd.
    rewrite rx_rep_S, (rx_cls_step _ s _ f1 [f2]) by done.
    apply drop_next in Hd.
    rewrite rx_rep_S, (rx_cls_step _ s _ f2 []) by done.
    rewrite rx_rep_0. f_equal. subst s. cbn [length]. rewrite length_app.
    cbn [length]. lia.
  - unfold match_at, money_pat_left. rewrite rx_seq. apply rx_lit_end.
Qed.

Lemma right_matches_all :
  let s := (body ++ [COMMA; f1; f2]) ++ [SPACE; EURO] in
  finditer money_pat_right s = [(O, length s)].
Proof.
  intros s.
  assert (Hs : s = body ++ [COMMA; f1; f2; SPACE; EURO]).
  { subst s. by rewrite <- app_assoc. }
  apply finditer_full; [by destruct body| |].
  - unfold match_at, money_pat_right. rewrite rx_seq.
    apply (rx_plus_step _ s 0 body [COMMA; f1; f2; SPACE; EURO]); [done..|].
    assert (Hd : drop (0 + length body) s = [COMMA; f1; f2; SPACE; EURO]).
    { apply (drop_past s 0 body). done. }
    rewrite rx_seq, (rx_lit_step s _ COMMA [f1; f2; SPACE; EURO]) by done.
    apply drop_next in Hd.
    rewrite rx_seq, rx_rep_S, (rx_cls_step _ s _ f1 [f2; SPACE; EURO]) by done.
    apply drop_next in Hd.
    rewrite rx_rep_S, (rx_cls_step _ s _ f2 [SPACE; EURO]) by done.
    apply drop_next in Hd.
    rewrite rx_rep_0, rx_seq. apply rx_opt_hit.
    rewrite (rx_cls_step _ s _ SPACE [EURO]) by done.
    apply drop_next in Hd.
    rewrite (rx_lit_step s _ EURO []) by done.
    f_equal. rewrite Hs, length_app. cbn [length]. lia.
  - unfold match_at, money_pat_right. rewrite rx_seq. apply rx_plus_end.
Qed.
End Formatted.

(** ** Parsing a formatted amount *)

Lemma parse_money_cleaned txt : parse_money txt = parse_cleaned (cleaned txt).
Proof. done. Qed.

Lemma plain_facts c : plain c → is_az c = false ∧ c ≠ 69.
Proof.
  intros [Hd|[->|[->|[->| ->]]]]; [|done..].
  split; [by_digit c Hd|]. intros ->. done.
Qed.

Lemma keep_app a b : keep (a ++ b) = keep a ++ keep b.
Proof. unfold keep. by rewrite !filter_app. Qed.

Lemma cleaned_plain c s d :
  Forall plain (c :: s) → is_space c = false → last (c :: s) = Some d →
  is_space d = false →
  cleaned (c :: s) = keep (c :: s).
Proof.
  intros Hall Hc Hlast Hd. unfold cleaned, keep.
  rewrite (strip_id c s d) by done.
  rewrite upper_id.
  2:{ eapply Forall_impl; [exact Hall|]. intros x Hx. by apply plain_facts. }
  rewrite (replace_single_filter EURO).
  change (u "EUR") with [69; 85; 82].
  rewrite (replace_absent 69).
  2:{ apply Forall_forall. intros x [_ Hx]%list_elem_of_filter.
      rewrite Forall_forall in Hall. by apply plain_facts, Hall. }
  by rewrite replace_single_filter.
Qed.

Lemma digit_or_plain sep c : sep = DOT ∨ sep = COMMA → digit_or sep c → plain c.
Proof. unfold plain. intros [-> | ->] [Hd | ->]; tauto. Qed.

Lemma digit_not_space c : is_digit c = true → is_space c = false.
Proof. intros Hd. by_digit c Hd. Qed.

Lemma digit_or_not_space c : digit_or DOT c → is_space c = false.
Proof. intros [Hd| ->]; [by apply digit_not_space|done]. Qed.

Lemma number_plain body f1 f2 :
  Forall (digit_or DOT) body → is_digit f1 = true → is_digit f2 = true →
  Forall plain (body ++ [COMMA; f1; f2]).
Proof.
  intros Hb H1 H2. apply Forall_app. split.
  - eapply Forall_impl; [exact Hb|]. intros c. apply digit_or_plain. by left.
  - unfold plain. repeat constructor; tauto.
Qed.

Lemma number_without c body f1 f2 :
  is_digit c = false → c ≠ DOT → c ≠ COMMA →
  Forall (digit_or DOT) body → is_digit f1 = true → is_digit f2 = true →
  Forall (λ x, x ≠ c) (body ++ [COMMA; f1; f2]).
Proof.
  intros Hc Hdot Hcomma Hb H1 H2. apply Forall_app. split.
  - eapply Forall_impl; [exact Hb|]. intros x [Hd| ->]; [|done].
    by apply digit_ne.
  - repeat constructor; by (done || apply digit_ne).
Qed.

Lemma keep_number body f1 f2 :
  Forall (digit_or DOT) body → is_digit f1 = true → is_digit f2 = true →
  keep (body ++ [COMMA; f1; f2]) = body ++ [COMMA; f1; f2].
Proof.
  intros Hb H1 H2. unfold keep.
  rewrite (filter_all (λ c, c ≠ EURO)) by (by apply number_without).
  rewrite filter_all by (by apply number_without). done.
Qed.

Lemma cleaned_number body f1 f2 :
  body ≠ [] → Forall (digit_or DOT) body → is_digit f1 = true → is_digit f2 = true →
  cleaned (body ++ [COMMA; f1; f2]) = body ++ [COMMA; f1; f2].
Proof.
  intros Hne Hb H1 H2.
  pose proof (keep_number body f1 f2 Hb H1 H2) as Hkeep.
  pose proof (number_plain body f1 f2 Hb H1 H2) as Hplain.
  assert (Hlast : last (body ++ [COMMA; f1; f2]) = Some f2) by (by rewrite last_app).
  destruct body as [|b body']; [done|].
  assert (is_space b = false).
  { apply digit_or_not_space. by apply Forall_cons in Hb as [? _]. }
  cbn [app] in *.
  rewrite (cleaned_plain b _ f2); [done..|by apply digit_not_space].
Qed.

Lemma cleaned_left body f1 f2 :
  Forall (digit_or DOT) body → is_digit f1 = true → is_digit f2 = true →
  cleaned (EURO :: SPACE :: body ++ [COMMA; f1; f2]) = body ++ [COMMA; f1; f2].
Proof.
  intros Hb H1 H2.
  rewrite (cleaned_plain EURO _ f2); [| |done| |by apply digit_not_space].
  - change (EURO :: SPACE :: body ++ [COMMA; f1; f2])
      with ([EURO; SPACE] ++ body ++ [COMMA; f1; f2]).
    by rewrite keep_app, keep_number.
  - constructor; [unfold plain; tauto|]. constructor; [unfold plain; tauto|].
    by apply number_plain.
  - change (EURO :: SPACE :: body ++ [COMMA; f1; f2])
      with (([EURO; SPACE] ++ body) ++ [COMMA; f1; f2]).
    by rewrite last_app.
Qed.

Lemma cleaned_right body f1 f2 :
  body ≠ [] → Forall (digit_or DOT) body → is_digit f1 = true → is_digit f2 = true →
  cleaned ((body ++ [COMMA; f1; f2]) ++ [SPACE; EURO]) = body ++ [COMMA; f1; f2].
Proof.
  intros Hne Hb H1 H2.
  assert (Hkeep : keep ((body ++ [COMMA; f1; f2]) ++ [SPACE; EURO])
                  = body ++ [COMMA; f1; f2]).
  { rewrite keep_app, keep_number by done.
    change (keep [SPACE; EURO]) with (@nil N). by rewrite app_nil_r. }
  assert (Hplain : Forall plain ((body ++ [COMMA; f1; f2]) ++ [SPACE; EURO])).
  { apply Forall_app. split; [by apply number_plain|].
    unfold plain. repeat constructor; tauto. }
  assert (Hlast : last ((body ++ [COMMA; f1; f2]) ++ [SPACE; EURO]) = Some EURO)
    by (by rewrite last_app).
  destruct body as [|b body']; [done|].
  assert (is_space b = false).
  { apply digit_or_not_space. by apply Forall_cons in Hb as [? _]. }
  cbn [app] in *.
  rewrite (cleaned_plain b _ EURO); done.
Qed.

Lemma comma_to_dot ds f1 f2 :
  Forall (λ c, is_digit c = true) ds → is_digit f1 = true → is_digit f2 = true →
  replace [COMMA] [DOT] (ds ++ [COMMA; f1; f2]) = ds ++ [DOT; f1; f2].
Proof.
  intros Hds H1 H2. rewrite replace_single_map, fmap_app. f_equal.
  - rewrite <- (list_fmap_id ds) at 2. apply Forall_fmap_ext.
    eapply Forall_impl; [exact Hds|]. intros c Hc. cbn.
    by assert ((c =? COMMA) = false) as -> by (by apply N.eqb_neq, digit_ne).
  - cbn. f_equal.
    assert ((f1 =? COMMA) = false) as -> by (by apply N.eqb_neq, digit_ne).
    by assert ((f2 =? COMMA) = false) as -> by (by apply N.eqb_neq, digit_ne).
Qed.

Lemma decimal_point_form body ds f1 f2 :
  Forall (digit_or DOT) body → filter (λ c, c ≠ DOT) body = ds →
  Forall (λ c, is_digit c = true) ds → is_digit f1 = true → is_digit f2 = true →
  let t := body ++ [COMMA; f1; f2] in
  (if has COMMA t && has DOT t then replace [COMMA] [DOT] (replace [DOT] [] t)
   else if has COMMA t then replace [COMMA] [DOT] t
   else t)
  = ds ++ [DOT; f1; f2].
Proof.
  intros Hb Hf Hds H1 H2 t.
  assert (has COMMA t = true) as ->.
  { apply has_spec. subst t. rewrite elem_of_app. right. apply list_elem_of_here. }
  cbn [andb]. destruct (has DOT t) eqn:Hdot.
  - rewrite replace_single_filter. subst t. rewrite filter_app, Hf.
    rewrite (filter_all _ [COMMA; f1; f2]).
    + by apply comma_to_dot.
    + repeat constructor; by (done || apply digit_ne).
  - assert (body = ds) as ->.
    { rewrite <- Hf. symmetry. apply filter_all. apply Forall_forall. intros c Hc ->.
      assert (has DOT t = true); [|congruence].
      apply has_spec. subst t. rewrite elem_of_app. by left. }
    by apply comma_to_dot.
Qed.

Lemma money_re_accepts ds f1 f2 :
  ds ≠ [] → Forall (λ c, is_digit c = true) ds →
  is_digit f1 = true → is_digit f2 = true →
  let t := ds ++ [DOT; f1; f2] in
  re_match money_re t = Some (length t).
Proof.
  intros Hne Hds H1 H2 t. unfold re_match, match_at, money_re.
  rewrite rx_seq, rx_bol_0, rx_seq, rx_opt_miss.
  2:{ destruct ds as [|d ds'] eqn:Hd; [done|].
      apply (rx_lit_miss t 0 MINUS d (ds' ++ [DOT; f1; f2])); [done|].
      apply Forall_cons in Hds as [Hdig _]. by apply digit_ne. }
  rewrite rx_seq. apply (rx_plus_step _ t 0 ds [DOT; f1; f2]); [done..|].
  assert (Hd : drop (0 + length ds) t = [DOT; f1; f2]).
  { apply (drop_past t 0 ds). done. }
  rewrite rx_seq. apply rx_opt_hit.
  rewrite rx_seq, (rx_lit_step t _ DOT [f1; f2]) by done.
  apply drop_next in Hd.
  apply (rx_plus_step _ t _ [f1; f2] []); [by rewrite app_nil_r|done| |done|].
  { by repeat constructor. }
  assert (Hlen : (S (0 + length ds) + length [f1; f2])%nat = length t).
  { subst t. rewrite length_app. cbn [length]. lia. }
  rewrite Hlen. apply rx_eol_end.
Qed.

Lemma Decimal_of_point_form ds f1 f2 :
  ds ≠ [] → Forall (λ c, is_digit c = true) ds →
  is_digit f1 = true → is_digit f2 = true →
  Decimal_of_text (ds ++ [DOT; f1; f2])
  = Ok (mkDecimal false (of_digits (ds ++ [f1; f2])) 2).
Proof.
  intros Hne Hds H1 H2. unfold Decimal_of_text.
  assert (Hrun : run_length is_digit (ds ++ [DOT; f1; f2]) = length ds)
    by (by apply run_length_app).
  assert (Hlast : last (ds ++ [DOT; f1; f2]) = Some f2) by (by rewrite last_app).
  destruct ds as [|d ds']; [done|].
  pose proof Hds as [Hd _]%Forall_cons.
  cbn [app] in *.
  rewrite (strip_id d _ f2); [|by apply digit_not_space|done|by apply digit_not_space].
  assert ((d =? MINUS) = false) as -> by (by apply N.eqb_neq, digit_ne).
  rewrite Hrun.
  change (d :: ds' ++ [DOT; f1; f2]) with ((d :: ds') ++ [DOT; f1; f2]).
  rewrite take_app_length, drop_app_length.
  cbn [app]. rewrite N.eqb_refl. cbn [andb forallb]. rewrite H1, H2.
  by rewrite bool_decide_eq_true_2.
Qed.

Lemma parse_number body ds f1 f2 :
  Forall (digit_or DOT) body → filter (λ c, c ≠ DOT) body = ds →
  ds ≠ [] → Forall (λ c, is_digit c = true) ds →
  is_digit f1 = true → is_digit f2 = true →
  parse_cleaned (body ++ [COMMA; f1; f2])
  = Ok (mkDecimal false (of_digits (ds ++ [f1; f2])) 2).
Proof.
  intros Hb Hf Hne Hds H1 H2. unfold parse_cleaned.
  rewrite (decimal_point_form body ds f1 f2) by done.
  rewrite money_re_accepts by done. by apply Decimal_of_point_form.
Qed.

(** ** Rounding to a float and to cents *)

Lemma round_half_even_err n d :
  0 < d →
  2 * (round_half_even (n, d) * d) <= 2 * n + d
  ∧ 2 * n <= 2 * (round_half_even (n, d) * d) + d.
Proof.
  intros Hd. unfold round_half_even.
  pose proof (N.div_mod n d ltac:(lia)) as Hdm.
  pose proof (N.mod_lt n d ltac:(lia)) as Hlt.
  generalize dependent (n / d). generalize dependent (n `mod` d). intros r Hlt q Hdm.
  rewrite (N.mul_comm d q) in Hdm.
  destruct (N.compare_spec (2 * r) d) as [He|Hl|Hg].
  - destruct (N.even q); lia.
  - lia.
  - lia.
Qed.

Lemma round_half_even_near x d c :
  0 < d → 2 * x < 2 * (c * d) + d → 2 * (c * d) < 2 * x + d →
  round_half_even (x, d) = c.
Proof.
  intros Hd H1 H2. unfold round_half_even.
  pose proof (N.div_mod x d ltac:(lia)) as Hdm.
  pose proof (N.mod_lt x d ltac:(lia)) as Hlt.
  generalize dependent (x / d). generalize dependent (x `mod` d). intros r Hlt q Hdm.
  assert (Hq : q = c ∨ q + 1 = c).
  { destruct (N.lt_trichotomy q c) as [Hlt'|[Heq|Hgt]]; [right|by left|exfalso].
    - destruct (N.lt_ge_cases (q + 1) c) as [Hfar|Hnear]; [exfalso|lia].
      assert (d * (q + 2) <= d * c) by (apply N.mul_le_mono_l; lia). lia.
    - assert (d * (c + 1) <= d * q) by (apply N.mul_le_mono_l; lia). lia. }
  destruct (N.compare_spec (2 * r) d) as [He|Hl|Hg].
  - exfalso. destruct Hq as [Hq|Hq]; subst; lia.
  - destruct Hq as [Hq|Hq]; [done|subst; lia].
  - destruct Hq as [Hq|Hq]; [subst; lia|done].
Qed.

Lemma scaled_neg n d e : (e < 0)%Z → scaled n d e = (n * 2 ^ Z.to_N (- e), d).
Proof. destruct e; try lia. intros _. reflexivity. Qed.

Lemma scaled_nonneg n d e : (0 <= e)%Z → scaled n d e = (n, d * 2 ^ Z.to_N e).
Proof. destruct e; try lia; intros _; reflexivity. Qed.

Lemma pow2_ge_128 t : 7 <= t → 128 <= 2 ^ t.
Proof.
  intros Ht. replace t with (7 + (t - 7)) by lia. rewrite N.pow_add_r.
  change (2 ^ 7) with 128. pose proof (N.pow_nonzero 2 (t - 7) ltac:(lia)). nia.
Qed.

(** Rounding [c / 100] to a float whose last place is worth [2^e] with
    [e <= -7], and printing the float with two decimals, gives [c]. *)
Lemma cents_of_rounded c (e : Z) :
  (e <= -7)%Z →
  let m := round_half_even (scaled c 100 e) in
  let e' := if m =? 2 ^ 53 then (e + 1)%Z else e in
  let m' := if m =? 2 ^ 53 then 2 ^ 52 else m in
  cents_of m' e' = c.
Proof.
  intros He. cbv zeta. rewrite (scaled_neg c 100 e) by lia.
  set (t := Z.to_N (- e)). assert (Ht : 7 <= t) by (subst t; lia).
  pose proof (pow2_ge_128 t Ht) as Hp.
  destruct (round_half_even_err (c * 2 ^ t) 100 ltac:(lia)) as [H1 H2].
  set (m := round_half_even (c * 2 ^ t, 100)) in *.
  unfold cents_of. destruct (N.eqb_spec m (2 ^ 53)) as [Hm|Hm].
  - rewrite scaled_nonneg by lia.
    replace (Z.to_N (- (e + 1))) with (t - 1) by (subst t; lia).
    assert (Hs : 2 ^ t = 2 * 2 ^ (t - 1)).
    { replace t with (N.succ (t - 1)) at 1 by lia. apply N.pow_succ_r'. }
    rewrite N.mul_1_l. apply round_half_even_near; [lia| |].
    + rewrite Hm in H1. change (2 ^ 53) with (2 * 2 ^ 52) in H1. nia.
    + rewrite Hm in H2. change (2 ^ 53) with (2 * 2 ^ 52) in H2. nia.
  - rewrite scaled_nonneg by lia. fold t.
    rewrite N.mul_1_l. apply round_half_even_near; [lia| |]; nia.
Qed.

(** Below 2^46 a value with two decimals survives the conversion to a
    float: the float prints with the same number of cents. *)
Lemma float_of_cents neg c :
  c < 2 ^ 46 * 100 →
  ∃ m e, float_of_Decimal (mkDecimal neg c 2) = Finite neg m e ∧ cents_of m e = c.
Proof.
  intros Hc. unfold float_of_Decimal. cbn [dec_coeff dec_places dec_neg].
  change (10 ^ N.of_nat 2) with 100.
  destruct (N.eqb_spec c 0) as [->|Hnz].
  - exists 0, 0%Z. split; reflexivity.
  - change (N.log2 100) with 6.
    set (k0 := (Z.of_N (N.log2 c) - Z.of_N 6)%Z).
    set (k := if fst (scaled c 100 k0) <? snd (scaled c 100 k0) then (k0 - 1)%Z else k0).
    assert (HL : N.log2 c <= 52).
    { assert (N.log2 c < 53); [|lia]. apply N.log2_lt_pow2; [lia|].
      change (2 ^ 53) with 9007199254740992.
      change (2 ^ 46 * 100) with 7036874417766400 in Hc. lia. }
    assert (Hk : (-7 <= k <= 45)%Z).
    { subst k.
      destruct (N.ltb_spec (fst (scaled c 100 k0)) (snd (scaled c 100 k0))) as [Hlt|Hge].
      - subst k0. lia.
      - assert (N.log2 c ≠ 52); [|subst k0; lia]. intros HL52.
        subst k0. rewrite HL52 in Hge.
        change (scaled c 100 (Z.of_N 52 - Z.of_N 6)) with (c, 100 * 2 ^ 46) in Hge.
        cbn [fst snd] in Hge. lia. }
    rewrite Z.max_l by lia.
    pose proof (cents_of_rounded c (k - 52) ltac:(lia)) as Hround. cbv zeta in Hround.
    set (m := round_half_even (scaled c 100 (k - 52))) in *.
    set (e' := if m =? 2 ^ 53 then (k - 52 + 1)%Z else (k - 52)%Z) in *.
    assert ((971 <? e')%Z = false) as ->.
    { apply Z.ltb_ge. subst e'. destruct (m =? 2 ^ 53); lia. }
    eexists _, _. split; [reflexivity|exact Hround].
Qed.

(** ** Formatting and parsing back (C3) *)

Lemma number_nl_parts (a : N) :
  ∃ body ds f1 f2,
    number_nl_of false a = body ++ [COMMA; f1; f2]
    ∧ body ≠ [] ∧ Forall (digit_or DOT) body
    ∧ filter (λ c, c ≠ DOT) body = ds
    ∧ ds ≠ [] ∧ Forall (λ c, is_digit c = true) ds
    ∧ is_digit f1 = true ∧ is_digit f2 = true
    ∧ of_digits (ds ++ [f1; f2]) = a.
Proof.
  destruct (digits_spec (a / 100)) as (Hne & Hdig & Hof).
  destruct (group3_spec _ Hdig) as (Hgrp & Hfil & Hgne).
  destruct (nl_body_spec _ Hgrp) as (Hbody & Hbfil).
  destruct (pad2_spec (a `mod` 100)) as (f1 & f2 & Hpad & Hf1 & Hf2 & Hpof).
  { apply N.mod_lt. lia. }
  exists (nl_body a), (digits (a / 100)), f1, f2.
  split. { rewrite number_nl_of_eq. cbn [sign_text app]. by rewrite Hpad. }
  split. { unfold nl_body. intros Hnil%fmap_nil_inv. by apply Hgne. }
  split; [done|]. split. { unfold nl_body. by rewrite Hbfil. }
  split; [done|]. split; [done|]. split; [done|]. split; [done|].
  rewrite of_digits_app, Hof, Hpof. cbn [length].
  change (10 ^ N.of_nat 2) with 100.
  pose proof (N.div_mod a 100 ltac:(lia)). lia.
Qed.

(** What is read back from the text made for a float that is not
    negative: the number of cents the float prints with. *)
Lemma format_like_reads_back (src : text) (m : N) (e : Z) :
  let out := _format_like src (Finite false m e) in
  let pat := if eur_left src then money_pat_left else money_pat_right in
  finditer pat out = [(O, length out)]
  ∧ parse_money out = Ok (mkDecimal false (cents_of m e) 2)
  ∧ parse_money (number_nl (Finite false m e)) = Ok (mkDecimal false (cents_of m e) 2).
Proof.
  intros out pat. set (a := cents_of m e).
  destruct (number_nl_parts a)
    as (body & ds & f1 & f2 & Hnum & Hne & Hbody & Hfil & Hdne & Hds & H1 & H2 & Hof).
  assert (Hparse : parse_cleaned (body ++ [COMMA; f1; f2]) = Ok (mkDecimal false a 2)).
  { rewrite (parse_number body ds f1 f2) by done. by rewrite Hof. }
  split; [|split].
  - subst out pat. unfold _format_like. rewrite number_nl_finite. fold a. rewrite Hnum.
    destruct (eur_left src).
    + by apply left_matches_all.
    + by apply right_matches_all.
  - subst out. unfold _format_like. rewrite number_nl_finite. fold a.
    rewrite Hnum, parse_money_cleaned.
    destruct (eur_left src).
    + by rewrite cleaned_left.
    + by rewrite cleaned_right.
  - rewrite number_nl_finite. fold a. by rewrite Hnum, parse_money_cleaned, cleaned_number.
Qed.

Example format_symbol_left : _format_like (u "€ 5.000,00") sample_amount = u "€ 7.500,50".
Proof. vm_compute. reflexivity. Qed.

Example format_symbol_right :
  _format_like (u "1.200,00 €") (float_of_Decimal (mkDecimal false 98000 2)) = u "980,00 €".
Proof. vm_compute. reflexivity. Qed.

(** The float 0.125 lies halfway between two values with two decimals and
    is printed with the even one. *)
Example format_tie_to_even : number_nl (Finite false 1 (-3)) = u "0,12".
Proof. vm_compute. reflexivity. Qed.

(** C3, as stated, fails in two ways. For the negative value -5.00 the
    symbol-left text is "€ -5,00", which the symbol-left pattern does not
    match at all, and the symbol-right text is "-5,00 €", of which the
    symbol-right pattern matches only the part after the sign. For the
    value 70368744177664.01 the float that [float] makes of it is
    2^46 + 2^-6, which is printed with 02 as its decimals, so that
    [parse_money] reads another value back. *)
Lemma format_round_trip_counterexample :
  _format_like (u "€ 5.000,00") (float_of_Decimal (mkDecimal true 500 2)) = u "€ -5,00"
  ∧ finditer money_pat_left (u "€ -5,00") = []
  ∧ _format_like (u "5.000,00 €") (float_of_Decimal (mkDecimal true 500 2)) = u "-5,00 €"
  ∧ finditer money_pat_right (u "-5,00 €") = [(1, 7)%nat]
  ∧ length (u "-5,00 €") = 7%nat
  ∧ float_of_Decimal (mkDecimal false 7036874417766401 2) = Finite false (2 ^ 52 + 1) (-6)
  ∧ _format_like (u "5.000,00 €") (float_of_Decimal (mkDecimal false 7036874417766401 2))
    = u "70.368.744.177.664,02 €"
  ∧ parse_money (u "70.368.744.177.664,02 €") = Ok (mkDecimal false 7036874417766402 2).
Proof. repeat split; vm_compute; reflexivity. Qed.

(** C3, amended. For every value V of at least zero and below 2^46 with
    two decimals, given by its number of cents, and for either placement
    of the euro sign: the text that [_format_like] makes of the float
    [float(V)] is matched from its first to its last character by the
    money pattern of that placement, and [parse_money] reads both the text
    and its number part back as V. *)
Theorem format_then_parse_round_trip (src : text) (cents : N) :
  cents < 2 ^ 46 * 100 →
  let V := mkDecimal false cents 2 in
  let out := _format_like src (float_of_Decimal V) in
  let pat := if eur_left src then money_pat_left else money_pat_right in
  finditer pat out = [(O, length out)]
  ∧ parse_money out = Ok V
  ∧ parse_money (number_nl (float_of_Decimal V)) = Ok V
  ∧ (Decimal_value V == Z.of_N cents # 100)%Q.
Proof.
  intros Hc V out pat.
  destruct (float_of_cents false cents Hc) as (m & e & Hf & Hcents).
  destruct (format_like_reads_back src m e) as (Hm & Hp & Hn).
  subst out V. rewrite Hf. rewrite Hcents in Hp, Hn.
  split; [exact Hm|]. split; [exact Hp|]. split; [exact Hn|]. reflexivity.
Qed.

Lemma format_then_parse_round_trip_witness :
  _format_like (u "€ 5.000,00") (float_of_Decimal (mkDecimal false 750050 2)) = u "€ 7.500,50"
  ∧ finditer money_pat_left (_format_like (u "€ 5.000,00")
                               (float_of_Decimal (mkDecimal false 750050 2)))
    = [(O, length (_format_like (u "€ 5.000,00")
                     (float_of_Decimal (mkDecimal false 750050 2))))]
  ∧ parse_money (_format_like (u "€ 5.000,00") (float_of_Decimal (mkDecimal false 750050 2)))
    = Ok (mkDecimal false 750050 2).
Proof.
  split; [vm_compute; reflexivity|].
  pose proof (format_then_parse_round_trip (u "€ 5.000,00") 750050 ltac:(done))
    as (Hm & Hp & _).
  split; [exact Hm|exact Hp].
Defined.

(** * Further properties of the engine *)

(** ** The bounding box of a hit *)

Lemma Qlt_bool_true a b : Qlt_bool a b = true → (a < b)%Q.
Proof.
  unfold Qlt_bool. intros H%negb_true_iff.
  destruct (Qlt_le_dec a b) as [|Hle]; [done|].
  apply Qle_bool_iff in Hle. congruence.
Qed.

Lemma Qlt_bool_false a b : Qlt_bool a b = false → (b <= a)%Q.
Proof. unfold Qlt_bool. intros H%negb_false_iff. by apply Qle_bool_iff. Qed.

Lemma qmin_le a b : (qmin a b <= a)%Q ∧ (qmin a b <= b)%Q.
Proof.
  unfold qmin. destruct (Qlt_bool b a) eqn:E.
  - apply Qlt_bool_true in E. split; [by apply Qlt_le_weak|apply Qle_refl].
  - apply Qlt_bool_false in E. split; [apply Qle_refl|done].
Qed.

Lemma qmax_ge a b : (a <= qmax a b)%Q ∧ (b <= qmax a b)%Q.
Proof.
  unfold qmax. destruct (Qlt_bool a b) eqn:E.
  - apply Qlt_bool_true in E. split; [by apply Qlt_le_weak|apply Qle_refl].
  - apply Qlt_bool_false in E. split; [apply Qle_refl|done].
Qed.

Lemma foldl_qmin_le a l :
  (foldl qmin a l <= a)%Q ∧ Forall (λ y, (foldl qmin a l <= y)%Q) l.
Proof.
  revert a. induction l as [|y l IH]; intros a; cbn [foldl].
  - split; [apply Qle_refl|constructor].
  - destruct (IH (qmin a y)) as [H1 H2]. destruct (qmin_le a y) as [Ha Hy].
    split; [by eapply Qle_trans|]. constructor; [by eapply Qle_trans|done].
Qed.

Lemma foldl_qmax_ge a l :
  (a <= foldl qmax a l)%Q ∧ Forall (λ y, (y <= foldl qmax a l)%Q) l.
Proof.
  revert a. induction l as [|y l IH]; intros a; cbn [foldl].
  - split; [apply Qle_refl|constructor].
  - destruct (IH (qmax a y)) as [H1 H2]. destruct (qmax_ge a y) as [Ha Hy].
    split; [by eapply Qle_trans|]. constructor; [by eapply Qle_trans|done].
Qed.

Lemma foldl_qmin_attained a l : foldl qmin a l ∈ a :: l.
Proof.
  revert a. induction l as [|y l IH]; intros a; cbn [foldl].
  - apply list_elem_of_here.
  - specialize (IH (qmin a y)). apply elem_of_cons in IH as [->|IH].
    + unfold qmin. destruct (Qlt_bool y a).
      * apply list_elem_of_further, list_elem_of_here.
      * apply list_elem_of_here.
    + by do 2 apply list_elem_of_further.
Qed.

Lemma foldl_qmax_attained a l : foldl qmax a l ∈ a :: l.
Proof.
  revert a. induction l as [|y l IH]; intros a; cbn [foldl].
  - apply list_elem_of_here.
  - specialize (IH (qmax a y)). apply elem_of_cons in IH as [->|IH].
    + unfold qmax. destruct (Qlt_bool a y).
      * apply list_elem_of_further, list_elem_of_here.
      * apply list_elem_of_here.
    + by do 2 apply list_elem_of_further.
Qed.

Lemma hit_over_encloses env kind txt m g rest sz :
  let h := hit_over env kind txt m g rest sz in
  Forall (λ c, glyph_inside c (hit_x0 h) (hit_y0 h) (hit_x1 h) (hit_y1 h)) (g :: rest).
Proof.
  intros h. subst h. unfold hit_over, glyph_inside. cbn [hit_x0 hit_y0 hit_x1 hit_y1].
  destruct (foldl_qmin_le (ch_x0 g) (ch_x0 <$> rest)) as [Hx0 Hx0s].
  destruct (foldl_qmin_le (ch_y0 g) (ch_y0 <$> rest)) as [Hy0 Hy0s].
  destruct (foldl_qmax_ge (ch_x1 g) (ch_x1 <$> rest)) as [Hx1 Hx1s].
  destruct (foldl_qmax_ge (ch_y1 g) (ch_y1 <$> rest)) as [Hy1 Hy1s].
  constructor; [done|].
  rewrite Forall_fmap in Hx0s, Hy0s, Hx1s, Hy1s.
  rewrite Forall_forall in Hx0s, Hy0s, Hx1s, Hy1s.
  apply Forall_forall. intros c Hc. cbn in *.
  repeat split; [by apply Hx0s|by apply Hx1s|by apply Hy0s|by apply Hy1s].
Qed.

Lemma resolve_hit_inv env kind chars txt m h :
  resolve_hit env kind chars txt m = Ok (Some h) →
  ∃ g rest sz,
    slice chars m.1 m.2 = g :: rest
    ∧ median (ch_size <$> g :: rest) = Ok sz
    ∧ h = hit_over env kind txt m g rest sz.
Proof.
  intros Hh. pose proof (resolve_hit_cases env kind chars txt m) as H.
  destruct (slice chars m.1 m.2) as [|g rest].
  - rewrite H in Hh. discriminate.
  - destruct H as (sz & Hsz & H). exists g, rest, sz.
    split; [done|]. split; [done|]. congruence.
Qed.

Lemma concat_ones_drop {A} (ls : list (list A)) n :
  Forall (λ l, length l = 1%nat) ls → drop n (concat ls) = concat (drop n ls).
Proof.
  intros Hall. revert n. induction Hall as [|l ls Hl _ IH]; intros n.
  - by destruct n.
  - destruct l as [|x [|? ?]]; try done. destruct n as [|n]; [done|].
    cbn [concat app drop]. apply IH.
Qed.

Lemma concat_ones_take {A} (ls : list (list A)) n :
  Forall (λ l, length l = 1%nat) ls → take n (concat ls) = concat (take n ls).
Proof.
  intros Hall. revert n. induction Hall as [|l ls Hl _ IH]; intros n.
  - by destruct n.
  - destruct l as [|x [|? ?]]; try done. destruct n as [|n]; [done|].
    cbn [concat app take]. by rewrite IH.
Qed.

(** With one character per glyph, the glyphs cut out at the offsets of a
    match carry the matched text. *)
Lemma one_char_slice chars a b :
  one_char_glyphs chars →
  line_text (slice chars a b) = slice (line_text chars) a b.
Proof.
  intros Hall. unfold line_text, slice.
  assert (Htexts : Forall (λ l : text, length l = 1%nat) (get_text <$> chars)).
  { by apply Forall_fmap. }
  rewrite fmap_take, fmap_drop, concat_ones_drop by done.
  rewrite concat_ones_take; [done|]. by apply Forall_drop.
Qed.

(** X1. On a line whose glyphs carry one character each, the glyphs cut
    out for a match are the glyphs that carry the matched text, and the box
    stored in the hit is the smallest box around them: each of them lies
    inside it, and each of its four sides is a side of one of them. *)
Theorem hit_box_is_tight env kind chars m h :
  one_char_glyphs chars →
  resolve_hit env kind chars (line_text chars) m = Ok (Some h) →
  let seg := slice chars m.1 m.2 in
  line_text seg = group0 (line_text chars) m
  ∧ hit_src h = group0 (line_text chars) m
  ∧ Forall (λ g, glyph_inside g (hit_x0 h) (hit_y0 h) (hit_x1 h) (hit_y1 h)) seg
  ∧ hit_x0 h ∈ ch_x0 <$> seg ∧ hit_y0 h ∈ ch_y0 <$> seg
  ∧ hit_x1 h ∈ ch_x1 <$> seg ∧ hit_y1 h ∈ ch_y1 <$> seg.
Proof.
  intros Hone (g & rest & sz & Hseg & _ & ->)%resolve_hit_inv seg.
  split; [by apply one_char_slice|]. split; [done|].
  subst seg. rewrite Hseg. split; [apply hit_over_encloses|].
  rewrite !fmap_cons. unfold hit_over. cbn [hit_x0 hit_y0 hit_x1 hit_y1].
  repeat split; (apply foldl_qmin_attained || apply foldl_qmax_attained).
Qed.

Lemma hit_box_is_tight_witness :
  ∃ h,
    resolve_hit env0 amount (line_chars line_both_sides)
      (line_text (line_chars line_both_sides)) (0, 10)%nat = Ok (Some h)
    ∧ line_text (slice (line_chars line_both_sides) 0 10) = u "€ 5.000,00"
    ∧ Forall (λ g, glyph_inside g (hit_x0 h) (hit_y0 h) (hit_x1 h) (hit_y1 h))
        (slice (line_chars line_both_sides) 0 10)
    ∧ (hit_x0 h, hit_y0 h, hit_x1 h, hit_y1 h) = (0, 700, 60, 712)%Q.
Proof.
  eexists. split; [vm_compute; reflexivity|].
  split; [vm_compute; reflexivity|]. split; [|reflexivity].
  apply (hit_box_is_tight env0 amount (line_chars line_both_sides) (0, 10)%nat).
  - vm_compute. repeat constructor.
  - vm_compute. reflexivity.
Defined.

(** ** Occlusion and placement *)

Lemma hit_pad_ge hit : (12 # 10 <= hit_pad hit)%Q.
Proof. unfold hit_pad. apply qmax_ge. Qed.

(** ** Sizes *)

Lemma insert_sorted_elem x y xs : y ∈ insert_sorted x xs → y = x ∨ y ∈ xs.
Proof.
  induction xs as [|z zs IH]; cbn [insert_sorted].
  - intros ->%list_elem_of_singleton. by left.
  - destruct (Qlt_bool x z).
    + intros [->|H]%elem_of_cons; [by left|by right].
    + intros [->|H]%elem_of_cons; [right; apply list_elem_of_here|].
      destruct (IH H) as [->|Hin]; [by left|right; by apply list_elem_of_further].
Qed.

Lemma sorted_elem y xs : y ∈ sorted xs → y ∈ xs.
Proof.
  unfold sorted.
  assert (H : ∀ acc, y ∈ foldl (λ acc x, insert_sorted x acc) acc xs → y ∈ acc ∨ y ∈ xs).
  { induction xs as [|x xs IH]; intros acc; cbn [foldl]; [by left|].
    intros [Hin|Hin]%IH.
    - apply insert_sorted_elem in Hin as [->|Hin]; [right; apply list_elem_of_here|by left].
    - right. by apply list_elem_of_further. }
  intros [Hin|Hin]%H; [by apply elem_of_nil in Hin|done].
Qed.

(** The median is an element of the list or the mean of two of them. *)
Lemma median_elem xs m :
  median xs = Ok m →
  m ∈ xs ∨ ∃ a b, a ∈ xs ∧ b ∈ xs ∧ m = ((a + b) / 2)%Q.
Proof.
  unfold median. cbv zeta. case_bool_decide; [done|]. destruct (Nat.odd _).
  - destruct (sorted xs !! _) as [x|] eqn:Hx; [|done]. intros Heq. left.
    inversion Heq; subst.
    apply sorted_elem. eapply list_elem_of_lookup_2. eassumption.
  - destruct (sorted xs !! (_ - 1)%nat) as [a|] eqn:Ha; [|done].
    destruct (sorted xs !! (length (sorted xs) / 2)%nat) as [b|] eqn:Hb; [|done].
    intros Heq. right.
    exists a, b. split; [|split].
    + apply sorted_elem. eapply list_elem_of_lookup_2. exact Ha.
    + apply sorted_elem. eapply list_elem_of_lookup_2. exact Hb.
    + by inversion Heq.
Qed.

Lemma hit_box_not_inverted env kind chars txt m h :
  resolve_hit env kind chars txt m = Ok (Some h) →
  Forall glyph_well_formed (slice chars m.1 m.2) →
  (hit_x0 h <= hit_x1 h)%Q ∧ (hit_y0 h <= hit_y1 h)%Q.
Proof.
  intros Hh Hwf.
  destruct (resolve_hit_inv _ _ _ _ _ _ Hh) as (g & rest & sz & Hseg & Hsz & ->).
  rewrite Hseg in Hwf.
  pose proof (hit_over_encloses env kind txt m g rest sz) as Hin. cbv zeta in Hin.
  apply Forall_cons in Hin as [(H1 & H2 & H3 & H4) _].
  pose proof Hwf as [(Hgx & Hgy & _) _]%Forall_cons.
  split; lra.
Qed.

(** X3. When the glyphs of a match are well formed (left of right, bottom
    below top, positive size) the hit is too: its box is not inverted and
    its size, the median glyph size, is positive and lies between any two
    bounds that hold for all the glyph sizes. *)
Theorem hit_is_well_formed env kind chars txt m h (lo hi : Q) :
  resolve_hit env kind chars txt m = Ok (Some h) →
  Forall glyph_well_formed (slice chars m.1 m.2) →
  Forall (λ g, (lo <= ch_size g <= hi)%Q) (slice chars m.1 m.2) →
  (hit_x0 h <= hit_x1 h)%Q ∧ (hit_y0 h <= hit_y1 h)%Q
  ∧ (0 < hit_size h)%Q ∧ (lo <= hit_size h <= hi)%Q.
Proof.
  intros Hh Hwf Hb.
  destruct (hit_box_not_inverted _ _ _ _ _ _ Hh Hwf) as [Hx Hy].
  split; [done|]. split; [done|].
  destruct (resolve_hit_inv _ _ _ _ _ _ Hh) as (g & rest & sz & Hseg & Hsz & ->).
  rewrite Hseg in Hwf, Hb.
  assert (Hsize : ∀ s, s ∈ ch_size <$> g :: rest → (0 < s)%Q ∧ (lo <= s <= hi)%Q).
  { intros s (c & -> & Hc)%list_elem_of_fmap.
    rewrite Forall_forall in Hwf, Hb. split; [by apply Hwf|by apply Hb]. }
  unfold hit_over. cbn [hit_size].
  destruct (median_elem _ _ Hsz) as [Hin|(a & b & Ha & Hb' & ->)].
  - apply Hsize in Hin. tauto.
  - apply Hsize in Ha as (Ha0 & Ha1 & Ha2). apply Hsize in Hb' as (Hb0 & Hb1 & Hb2).
    split; [|split].
    + apply Qlt_shift_div_l; lra.
    + apply Qle_shift_div_l; lra.
    + apply Qle_shift_div_r; lra.
Qed.

Lemma hit_is_well_formed_witness :
  ∃ h,
    resolve_hit env0 amount (line_chars line_both_sides)
      (line_text (line_chars line_both_sides)) (0, 10)%nat = Ok (Some h)
    ∧ (hit_x0 h <= hit_x1 h)%Q ∧ (hit_y0 h <= hit_y1 h)%Q
    ∧ (0 < hit_size h)%Q ∧ (12 <= hit_size h <= 12)%Q.
Proof.
  eexists. split; [vm_compute; reflexivity|].
  apply (hit_is_well_formed env0 amount (line_chars line_both_sides)
           (line_text (line_chars line_both_sides)) (0, 10)%nat).
  - vm_compute. reflexivity.
  - repeat constructor; vm_compute; congruence.
  - repeat constructor; vm_compute; congruence.
Defined.

(** ** The document that is written, page by page *)

Lemma page_hits_of_scan env page :
  scan_layout env (layout page) [] = Ok (page_hits_of env page).
Proof.
  unfold page_hits_of. by destruct (scan_layout_ok env (layout page) []) as [hits ->].
Qed.

Lemma extract_hits_lookup env pages n mbp mbp' :
  (∀ k, (n ≤ k)%nat → mbp !! k = None) →
  extract_hits env pages n mbp = Ok mbp' →
  (∀ j page, pages !! j = Some page →
     default [] (mbp' !! (n + j)%nat) = page_hits_of env page)
  ∧ (∀ k, (k < n)%nat → mbp' !! k = mbp !! k).
Proof.
  revert n mbp. induction pages as [|page rest IH]; intros n mbp Hfree; cbn [extract_hits].
  - intros [= <-]. split; [|done]. intros j page Hj. by rewrite lookup_nil in Hj.
  - rewrite page_hits_of_scan. cbn [rbind]. intros Hrest.
    set (mbp1 := if bool_decide (page_hits_of env page = []) then mbp
                 else <[n:=page_hits_of env page]> mbp) in *.
    assert (Hfree1 : ∀ k, (S n ≤ k)%nat → mbp1 !! k = None).
    { intros k Hk. subst mbp1. case_bool_decide; [apply Hfree; lia|].
      rewrite lookup_insert_ne by lia. apply Hfree. lia. }
    destruct (IH (S n) mbp1 Hfree1 Hrest) as [Hlater Hearlier]. split.
    + intros [|j] p Hp.
      * cbn in Hp. injection Hp as <-. rewrite Nat.add_0_r, Hearlier by lia.
        subst mbp1. case_bool_decide as Hnil.
        -- rewrite Hfree by lia. by rewrite Hnil.
        -- by rewrite lookup_insert_eq.
      * cbn in Hp. replace (n + S j)%nat with (S n + j)%nat by lia. by apply Hlater.
    + intros k Hk. rewrite Hearlier by lia. subst mbp1.
      case_bool_decide; [done|]. by rewrite lookup_insert_ne by lia.
Qed.

Lemma overlay_pages_lookup env new_amount current_date mbp ps n i j :
  (j < n)%nat →
  overlay_pages env new_amount current_date mbp ps n i !! j
  = Some (mkOverlayPage ps.1 ps.2
            (default [] (mbp !! (i + j)%nat) ≫= hit_ops env new_amount current_date)).
Proof.
  revert i j. induction n as [|n IH]; intros i j Hj; [lia|].
  cbn [overlay_pages]. destruct j as [|j]; cbn [lookup list_lookup].
  - by rewrite Nat.add_0_r.
  - change (overlay_pages env new_amount current_date mbp ps n (S i) !! j
            = Some (mkOverlayPage ps.1 ps.2
                      (default [] (mbp !! (i + S j)%nat)
                       ≫= hit_ops env new_amount current_date))).
    rewrite IH by lia. by replace (S i + j)%nat with (i + S j)%nat by lia.
Qed.

Lemma notary_writes env page0 rest new_amount :
  notary_replace_amount_pdf_purepy env (page0 :: rest) new_amount
  = Ok (rewritten_page env new_amount (mediabox_width page0, mediabox_height page0)
          <$> page0 :: rest).
Proof.
  destruct (notary_cons env page0 rest new_amount) as (mbp & Hmbp & ->).
  f_equal. apply list_eq. intros i.
  rewrite list_lookup_imap, list_lookup_fmap.
  destruct ((page0 :: rest) !! i) as [p|] eqn:Hp; [|done].
  cbn [fmap option_fmap option_map]. f_equal. unfold composed_page.
  pose proof (lookup_lt_Some _ _ _ Hp) as Hi. cbn [length] in Hi.
  rewrite overlay_pages_lookup by done.
  destruct (extract_hits_lookup env (page0 :: rest) 0 ∅ mbp) as [Hhits _]; [done..|].
  specialize (Hhits i p Hp). cbn [Nat.add] in Hhits |- *.
  unfold merge_page, rewritten_page. cbn [ov_ops ov_width ov_height fst snd].
  by rewrite Hhits.
Qed.

(** The page written at an index where the document has a page. *)
Lemma notary_page env doc new_amount i page :
  doc !! i = Some page →
  ∃ out page0,
    head doc = Some page0
    ∧ notary_replace_amount_pdf_purepy env doc new_amount = Ok out
    ∧ out !! i
      = Some (rewritten_page env new_amount (mediabox_width page0, mediabox_height page0)
                page).
Proof.
  intros Hp. destruct doc as [|page0 rest]; [done|].
  eexists _, page0. split; [done|]. split; [apply notary_writes|].
  by rewrite list_lookup_fmap, Hp.
Qed.

(** The hits of a page are the hits of its lines, in the order of the
    lines. *)
Lemma scan_box_lines env children ph :
  scan_box env children ph
  = Ok (ph ++ (box_lines children ≫= λ items, line_hits env (line_chars items))).
Proof.
  revert ph. induction children as [|[items|] rest IH]; intros ph.
  - cbn. by rewrite app_nil_r.
  - cbn [scan_box]. rewrite scan_line_ok. cbn [rbind]. rewrite IH.
    change (box_lines (TextLine items :: rest)) with (items :: box_lines rest).
    by rewrite bind_cons, <- app_assoc.
  - cbn [scan_box]. apply IH.
Qed.

Lemma scan_layout_lines env lay ph :
  scan_layout env lay ph
  = Ok (ph ++ ((lay ≫= λ it, match it with
                             | TextContainer children => box_lines children
                             | LayoutOther => []
                             end)
               ≫= λ items, line_hits env (line_chars items))).
Proof.
  revert ph. induction lay as [|[children|] rest IH]; intros ph.
  - cbn. by rewrite app_nil_r.
  - cbn [scan_layout]. rewrite scan_box_lines. cbn [rbind].
    by rewrite IH, bind_cons, bind_app, <- app_assoc.
  - cbn [scan_layout]. by rewrite IH, bind_cons.
Qed.

Lemma page_hits_of_lines env page :
  page_hits_of env page = page_lines page ≫= λ items, line_hits env (line_chars items).
Proof. unfold page_hits_of, page_lines. by rewrite scan_layout_lines. Qed.

Lemma page_hits_of_eq env page hits :
  scan_layout env (layout page) [] = Ok hits → hits = page_hits_of env page.
Proof. rewrite page_hits_of_scan. by intros [= <-]. Qed.

Lemma page_hit_intro env page items h :
  items ∈ page_lines page → h ∈ line_hits env (line_chars items) →
  h ∈ page_hits_of env page.
Proof.
  intros Hit Hh. rewrite page_hits_of_lines. apply list_elem_of_bind. eauto.
Qed.

Lemma pattern_hits_intro body pat txt m h :
  m ∈ finditer pat txt → body m = Ok (Some h) → h ∈ pattern_hits body pat txt.
Proof.
  intros Hm Hb. unfold pattern_hits. apply list_elem_of_omap.
  exists m. split; [done|]. by rewrite Hb.
Qed.

Lemma date_hit_in_line env chars pat m h :
  pat ∈ [date_pat; date_pat_dots] →
  m ∈ finditer pat (line_text chars) →
  date_hit env chars (line_text chars) m = Ok (Some h) →
  h ∈ line_hits env chars.
Proof.
  intros Hpat Hm Hh. unfold line_hits. rewrite !elem_of_app.
  apply elem_of_cons in Hpat as [->|Hpat].
  - right. right. left. by apply (pattern_hits_intro _ _ _ m).
  - apply list_elem_of_singleton in Hpat as ->.
    right. right. right. by apply (pattern_hits_intro _ _ _ m).
Qed.

(** Every hit of a line is the hit of a match on that line. *)
Lemma line_hits_origin env chars h :
  h ∈ line_hits env chars →
  ∃ kind m, resolve_hit env kind chars (line_text chars) m = Ok (Some h).
Proof.
  unfold line_hits, pattern_hits. rewrite !elem_of_app.
  intros [H|[H|[H|H]]]; apply list_elem_of_omap in H as (m & _ & Hm).
  1,2: exists amount, m;
       pose proof (amount_hit_ok env chars (line_text chars) m) as Hok;
       rewrite Hm in Hok; unfold amount_hit in Hok;
       destruct (looks_like_year _); [discriminate|exact Hok].
  1,2: exists date, m; pose proof (date_hit_ok env chars (line_text chars) m) as Hok;
       by rewrite Hm in Hok.
Qed.

Lemma page_hit_origin env page h :
  h ∈ page_hits_of env page →
  ∃ items kind m,
    items ∈ page_lines page
    ∧ resolve_hit env kind (line_chars items) (line_text (line_chars items)) m
      = Ok (Some h).
Proof.
  rewrite page_hits_of_lines. intros (items & Hh & Hit)%list_elem_of_bind.
  destruct (line_hits_origin env _ h Hh) as (kind & m & Hr). eauto.
Qed.

(** The two operators of a hit, in the content that is stacked on its
    page. *)
Lemma hit_ops_in_page env new_amount page h :
  h ∈ page_hits_of env page →
  ∃ before after,
    page_hits_of env page ≫= hit_ops env new_amount (now_nl_date env)
    = before ++ hit_ops env new_amount (now_nl_date env) h ++ after.
Proof.
  intros (l1 & l2 & ->)%list_elem_of_split.
  exists (l1 ≫= hit_ops env new_amount (now_nl_date env)),
         (l2 ≫= hit_ops env new_amount (now_nl_date env)).
  by rewrite bind_app, bind_cons.
Qed.

(** ** What is drawn for a hit (C5, C6, C7) *)

Lemma date_new_text env chars txt m h new_amount :
  date_hit env chars txt m = Ok (Some h) →
  new_text h new_amount (now_nl_date env) = now_nl_date env.
Proof. intros Hk%date_hit_kind. unfold new_text. by rewrite Hk. Qed.

(** C5. A hit made on a line of a page by either date pattern is redrawn,
    on the page the routine writes, with the date read from the clock at
    the call, printed as day-month-year with dashes; the matched text plays
    no part. *)
Theorem date_hit_drawn_as_today env doc new_amount i page items pat m h :
  doc !! i = Some page →
  items ∈ page_lines page →
  pat ∈ [date_pat; date_pat_dots] →
  m ∈ finditer pat (line_text (line_chars items)) →
  date_hit env (line_chars items) (line_text (line_chars items)) m = Ok (Some h) →
  let today := env_now_nl env in
  ∃ out opage page0 ops y font,
    head doc = Some page0
    ∧ notary_replace_amount_pdf_purepy env doc new_amount = Ok out
    ∧ out !! i = Some opage
    ∧ contents opage
      = contents page
        ++ [OpClipped 0 0 (mediabox_width page0) (mediabox_height page0) ops]
    ∧ OpText (hit_x0 h) y font (hit_size h) black
        (pad2 (dt_day today) ++ [MINUS] ++ pad2 (dt_month today) ++ [MINUS]
         ++ digits (dt_year today)) ∈ ops.
Proof.
  intros Hp Hit Hpat Hm Hh today.
  destruct (notary_page env doc new_amount i page Hp) as (out & page0 & H0 & Hout & Hi).
  pose proof (page_hit_intro env page items h Hit
                (date_hit_in_line _ _ _ _ _ Hpat Hm Hh)) as Hin.
  destruct (hit_ops_in_page env new_amount page h Hin) as (before & after & Hops).
  eexists out, _, page0, _, _, _. split; [done|]. split; [done|].
  split; [exact Hi|]. split; [reflexivity|].
  rewrite Hops. unfold hit_ops. rewrite (date_new_text env _ _ m h) by done.
  rewrite !elem_of_app. right. left. apply list_elem_of_further, list_elem_of_here.
Qed.

Lemma date_hit_drawn_as_today_witness :
  ∃ h out opage page0 ops y font,
    date_hit env0 (line_chars (glyph_line (u "€ 5.000,00 op 01.01.2024")))
      (u "€ 5.000,00 op 01.01.2024") (14, 24)%nat = Ok (Some h)
    ∧ head doc_two_sizes = Some page0
    ∧ notary_replace_amount_pdf_purepy env0 doc_two_sizes sample_amount = Ok out
    ∧ out !! 0%nat = Some opage
    ∧ contents opage
      = [OpOther 0] ++ [OpClipped 0 0 (mediabox_width page0) (mediabox_height page0) ops]
    ∧ OpText (hit_x0 h) y font (hit_size h) black (u "03-11-2026") ∈ ops.
Proof.
  eexists.
  destruct (date_hit_drawn_as_today env0 doc_two_sizes sample_amount 0
              (page_of_lines 595 842 [u "€ 5.000,00 op 01.01.2024"])
              (glyph_line (u "€ 5.000,00 op 01.01.2024")) date_pat_dots (14, 24)%nat
              (default (hit_over env0 date [] (0, 0)%nat (glyph_at 0 0) [] 0)
                 (made (date_hit env0
                          (line_chars (glyph_line (u "€ 5.000,00 op 01.01.2024")))
                          (u "€ 5.000,00 op 01.01.2024") (14, 24)%nat))))
    as (out & opage & page0 & ops & y & font & H0 & Hout & Hi & Hc & Hin).
  { reflexivity. }
  { apply list_elem_of_here. }
  { apply list_elem_of_further, list_elem_of_here. }
  { vm_compute. apply list_elem_of_here. }
  { vm_compute. reflexivity. }
  exists out, opage, page0, ops, y, font.
  split; [vm_compute; reflexivity|]. done.
Defined.

(** C6. For every hit of a page, the content the routine stacks on that
    page holds a rectangle and, right after it, the new text. The rectangle
    is filled with white and not stroked; its lower left corner is
    [(x0 - pad, y0 - pad)] and its upper right corner [(x1 + pad, y1 + pad)],
    with [pad = max(1.2, 0.18 * size)]. *)
Theorem blanking_rectangle_geometry env doc new_amount i page hits h :
  doc !! i = Some page →
  scan_layout env (layout page) [] = Ok hits →
  h ∈ hits →
  let pad := hit_pad h in
  ∃ out opage page0 before after w ht tx ty font s,
    head doc = Some page0
    ∧ notary_replace_amount_pdf_purepy env doc new_amount = Ok out
    ∧ out !! i = Some opage
    ∧ contents opage
      = contents page
        ++ [OpClipped 0 0 (mediabox_width page0) (mediabox_height page0)
              (before
               ++ [ OpRect (hit_x0 h - pad) (hit_y0 h - pad) w ht white white true false;
                    OpText tx ty font (hit_size h) black s ]
               ++ after)]
    ∧ ((hit_x0 h - pad) + w == hit_x1 h + pad)%Q
    ∧ ((hit_y0 h - pad) + ht == hit_y1 h + pad)%Q
    ∧ (pad == Qmax (12 # 10) ((18 # 100) * hit_size h))%Q.
Proof.
  intros Hp Hscan Hin pad. apply page_hits_of_eq in Hscan. subst hits.
  destruct (notary_page env doc new_amount i page Hp) as (out & page0 & H0 & Hout & Hi).
  destruct (hit_ops_in_page env new_amount page h Hin) as (before & after & Hops).
  exists out. eexists _, page0, before, after, _, _, _, _, _, _.
  split; [done|]. split; [done|]. split; [exact Hi|].
  split; [unfold rewritten_page; cbn [contents fst snd]; rewrite Hops; reflexivity|].
  fold pad. split; [ring|]. split; [ring|]. apply qmax_Qmax.
Qed.

Lemma blanking_rectangle_geometry_witness :
  ∃ h out opage page0 before after w ht tx ty font s,
    head (page_hits_of env0 (page_of_lines 595 842 [u "€ 5.000,00 op 01.01.2024"])) = Some h
    ∧ head doc_two_sizes = Some page0
    ∧ notary_replace_amount_pdf_purepy env0 doc_two_sizes sample_amount = Ok out
    ∧ out !! 0%nat = Some opage
    ∧ contents opage
      = [OpOther 0]
        ++ [OpClipped 0 0 (mediabox_width page0) (mediabox_height page0)
              (before
               ++ [ OpRect (hit_x0 h - hit_pad h) (hit_y0 h - hit_pad h) w ht
                      white white true false;
                    OpText tx ty font (hit_size h) black s ]
               ++ after)]
    ∧ ((hit_x0 h - hit_pad h) + w == hit_x1 h + hit_pad h)%Q
    ∧ ((hit_y0 h - hit_pad h) + ht == hit_y1 h + hit_pad h)%Q
    ∧ (hit_pad h == Qmax (12 # 10) ((18 # 100) * hit_size h))%Q.
Proof.
  eexists.
  destruct (blanking_rectangle_geometry env0 doc_two_sizes sample_amount 0
              (page_of_lines 595 842 [u "€ 5.000,00 op 01.01.2024"])
              (page_hits_of env0 (page_of_lines 595 842 [u "€ 5.000,00 op 01.01.2024"]))
              (default (hit_over env0 date [] (0, 0)%nat (glyph_at 0 0) [] 0)
                 (head (page_hits_of env0
                          (page_of_lines 595 842 [u "€ 5.000,00 op 01.01.2024"])))))
    as (out & opage & page0 & before & after & w & ht & tx & ty & font & s & H).
  { reflexivity. }
  { apply page_hits_of_scan. }
  { vm_compute. apply list_elem_of_here. }
  exists out, opage, page0, before, after, w, ht, tx, ty, font, s.
  split; [vm_compute; reflexivity|]. exact H.
Defined.

(** C7, as stated, fails: the family and the style of a hit are not
    derived from a font name. A date set in the glyphs of the subsetted
    font ABCDEF+Helvetica-Bold makes a hit with family TimesNewRomanPS and
    style regular, as does one set in Courier-Oblique; the name with its
    prefix removed, Helvetica-Bold, plays no part. *)
Lemma font_name_counterexample :
  ∃ h1 h2 g,
    resolve_hit env0 date (line_in (u "ABCDEF+Helvetica-Bold") (u "01-01-2024"))
      (u "01-01-2024") (0, 10)%nat = Ok (Some h1)
    ∧ head (slice (line_in (u "ABCDEF+Helvetica-Bold") (u "01-01-2024")) 0 10) = Some g
    ∧ _strip_subset (ch_fontname g) = u "Helvetica-Bold"
    ∧ resolve_hit env0 date (line_in (u "Courier-Oblique") (u "01-01-2024"))
        (u "01-01-2024") (0, 10)%nat = Ok (Some h2)
    ∧ (hit_family h1, hit_style h1) = (u "TimesNewRomanPS", u "regular")
    ∧ (hit_family h2, hit_style h2) = (u "TimesNewRomanPS", u "regular").
Proof.
  do 3 eexists. split; [vm_compute; reflexivity|]. split; [vm_compute; reflexivity|].
  split; [vm_compute; reflexivity|]. split; [vm_compute; reflexivity|].
  split; vm_compute; reflexivity.
Qed.

(** C7, amended. Every hit of a page has the family TimesNewRomanPS and the
    style regular, whatever the font names of its glyphs; and its new text
    is drawn, on the page the routine writes, in TimesNewRomanPS when that
    font is registered and in Times-Roman when it is not. *)
Theorem hit_font_is_fixed env doc new_amount i page hits h :
  doc !! i = Some page →
  scan_layout env (layout page) [] = Ok hits →
  h ∈ hits →
  hit_family h = u "TimesNewRomanPS" ∧ hit_style h = u "regular"
  ∧ ∃ out opage page0 ops x y s,
      head doc = Some page0
      ∧ notary_replace_amount_pdf_purepy env doc new_amount = Ok out
      ∧ out !! i = Some opage
      ∧ contents opage
        = contents page
          ++ [OpClipped 0 0 (mediabox_width page0) (mediabox_height page0) ops]
      ∧ OpText x y
          (if env_times_registered env then u "TimesNewRomanPS" else u "Times-Roman")
          (hit_size h) black s ∈ ops.
Proof.
  intros Hp Hscan Hin. apply page_hits_of_eq in Hscan. subst hits.
  destruct (page_hit_origin env page h Hin) as (items & kind & m & _ & Hr).
  apply resolve_hit_inv in Hr as (g & rest & sz & _ & _ & Hover).
  split; [by rewrite Hover|]. split; [by rewrite Hover|].
  destruct (notary_page env doc new_amount i page Hp) as (out & page0 & H0 & Hout & Hi).
  destruct (hit_ops_in_page env new_amount page h Hin) as (before & after & Hops).
  eexists out, _, page0, _, _, _, _. split; [done|]. split; [done|].
  split; [exact Hi|]. split; [reflexivity|].
  rewrite Hops. unfold hit_ops. rewrite !elem_of_app. right. left.
  apply list_elem_of_further, list_elem_of_here.
Qed.

Lemma hit_font_is_fixed_witness :
  ∃ h out opage page0 ops x y s,
    head (page_hits_of env0 (page_of_lines 595 842 [u "€ 5.000,00 op 01.01.2024"])) = Some h
    ∧ hit_family h = u "TimesNewRomanPS" ∧ hit_style h = u "regular"
    ∧ head doc_two_sizes = Some page0
    ∧ notary_replace_amount_pdf_purepy env0 doc_two_sizes sample_amount = Ok out
    ∧ out !! 0%nat = Some opage
    ∧ contents opage
      = [OpOther 0] ++ [OpClipped 0 0 (mediabox_width page0) (mediabox_height page0) ops]
    ∧ OpText x y (u "TimesNewRomanPS") (hit_size h) black s ∈ ops.
Proof.
  eexists.
  destruct (hit_font_is_fixed env0 doc_two_sizes sample_amount 0
              (page_of_lines 595 842 [u "€ 5.000,00 op 01.01.2024"])
              (page_hits_of env0 (page_of_lines 595 842 [u "€ 5.000,00 op 01.01.2024"]))
              (default (hit_over env0 date [] (0, 0)%nat (glyph_at 0 0) [] 0)
                 (head (page_hits_of env0
                          (page_of_lines 595 842 [u "€ 5.000,00 op 01.01.2024"])))))
    as (Hf & Hs & out & opage & page0 & ops & x & y & s & H).
  { reflexivity. }
  { apply page_hits_of_scan. }
  { vm_compute. apply list_elem_of_here. }
  exists out, opage, page0, ops, x, y, s.
  split; [vm_compute; reflexivity|]. split; [exact Hf|]. split; [exact Hs|]. exact H.
Defined.

(** ** Occlusion and placement on the written page *)

Lemma line_glyphs_of_page page items :
  items ∈ page_lines page → ∀ g, g ∈ line_chars items → g ∈ page_glyphs page.
Proof. intros Hit g Hg. unfold page_glyphs. apply list_elem_of_bind. eauto. Qed.

Lemma Forall_slice {A} (P : A → Prop) (l : list A) a b :
  Forall P l → Forall P (slice l a b).
Proof. intros H. unfold slice. by apply Forall_take, Forall_drop. Qed.

(** X2. On a line whose glyphs carry one character each, the white
    rectangle drawn for a hit of that line encloses every glyph that carries
    the matched text, with a margin of at least 1.2 on each side. It is
    drawn on the page the routine writes, inside the clip to the box of the
    overlay page. *)
Theorem blanking_rectangle_covers_glyphs env doc new_amount i page items h :
  doc !! i = Some page →
  items ∈ page_lines page →
  one_char_glyphs (line_chars items) →
  h ∈ line_hits env (line_chars items) →
  let chars := line_chars items in
  ∃ out opage page0 before after x y w ht text_op m,
    head doc = Some page0
    ∧ notary_replace_amount_pdf_purepy env doc new_amount = Ok out
    ∧ out !! i = Some opage
    ∧ contents opage
      = contents page
        ++ [OpClipped 0 0 (mediabox_width page0) (mediabox_height page0)
              (before ++ [OpRect x y w ht white white true false; text_op] ++ after)]
    ∧ line_text (slice chars m.1 m.2) = hit_src h
    ∧ Forall (λ g, (x + (12 # 10) <= ch_x0 g)%Q ∧ (ch_x1 g + (12 # 10) <= x + w)%Q
                   ∧ (y + (12 # 10) <= ch_y0 g)%Q ∧ (ch_y1 g + (12 # 10) <= y + ht)%Q)
        (slice chars m.1 m.2).
Proof.
  intros Hp Hit Hone Hh chars.
  destruct (notary_page env doc new_amount i page Hp) as (out & page0 & H0 & Hout & Hi).
  pose proof (page_hit_intro env page items h Hit Hh) as Hin.
  destruct (hit_ops_in_page env new_amount page h Hin) as (before & after & Hops).
  destruct (line_hits_origin env _ h Hh) as (kind & m & Hr).
  exists out. eexists _, page0, before, after, _, _, _, _, _, m.
  split; [done|]. split; [done|]. split; [exact Hi|].
  split; [unfold rewritten_page; cbn [contents fst snd]; rewrite Hops; reflexivity|].
  pose proof (hit_pad_ge h) as Hpad.
  destruct (resolve_hit_inv _ _ _ _ _ _ Hr) as (g & rest & sz & Hseg & _ & Hover).
  split.
  - subst chars. rewrite one_char_slice by done. by rewrite Hover.
  - subst chars. rewrite Hseg.
    pose proof (hit_over_encloses env kind (line_text (line_chars items)) m g rest sz)
      as Hall.
    cbv zeta in Hall. rewrite <- Hover in Hall.
    eapply Forall_impl; [exact Hall|]. intros c (H1 & H2 & H3 & H4).
    cbn beta. repeat split; lra.
Qed.

Lemma blanking_rectangle_covers_glyphs_witness :
  ∃ h out opage page0 before after x y w ht text_op m,
    head (line_hits env0 (line_chars (glyph_line (u "€ 5.000,00 op 01.01.2024")))) = Some h
    ∧ head doc_two_sizes = Some page0
    ∧ notary_replace_amount_pdf_purepy env0 doc_two_sizes sample_amount = Ok out
    ∧ out !! 0%nat = Some opage
    ∧ contents opage
      = [OpOther 0]
        ++ [OpClipped 0 0 (mediabox_width page0) (mediabox_height page0)
              (before ++ [OpRect x y w ht white white true false; text_op] ++ after)]
    ∧ line_text (slice (line_chars (glyph_line (u "€ 5.000,00 op 01.01.2024"))) m.1 m.2)
      = hit_src h
    ∧ Forall (λ g, (x + (12 # 10) <= ch_x0 g)%Q ∧ (ch_x1 g + (12 # 10) <= x + w)%Q
                   ∧ (y + (12 # 10) <= ch_y0 g)%Q ∧ (ch_y1 g + (12 # 10) <= y + ht)%Q)
        (slice (line_chars (glyph_line (u "€ 5.000,00 op 01.01.2024"))) m.1 m.2).
Proof.
  eexists.
  destruct (blanking_rectangle_covers_glyphs env0 doc_two_sizes sample_amount 0
              (page_of_lines 595 842 [u "€ 5.000,00 op 01.01.2024"])
              (glyph_line (u "€ 5.000,00 op 01.01.2024"))
              (default (hit_over env0 date [] (0, 0)%nat (glyph_at 0 0) [] 0)
                 (head (line_hits env0
                          (line_chars (glyph_line (u "€ 5.000,00 op 01.01.2024")))))))
    as (out & opage & page0 & before & after & x & y & w & ht & text_op & m & H).
  { reflexivity. }
  { apply list_elem_of_here. }
  { vm_compute. repeat constructor. }
  { vm_compute. apply list_elem_of_here. }
  exists out, opage, page0, before, after, x, y, w, ht, text_op, m.
  split; [vm_compute; reflexivity|]. exact H.
Defined.

(** X4. For every hit of a page, the content the routine stacks on that
    page holds the white rectangle of the hit and right after it the new
    text, in black, at the size of the hit; the text starts at the left edge
    of the hit's box, with its baseline at the fraction NOTARY_OVERLAY_PCT of
    the height of the box above its bottom. When that setting is absent
    (0.265) and the glyphs of the page are well formed, the baseline lies
    between the bottom and the top of the box. *)
Theorem replacement_text_position env doc new_amount i page hits h :
  doc !! i = Some page →
  scan_layout env (layout page) [] = Ok hits →
  h ∈ hits →
  let pad := hit_pad h in
  let baseline := (hit_y0 h + (hit_y1 h - hit_y0 h) * overlay_pct env)%Q in
  ∃ out opage page0 before after,
    head doc = Some page0
    ∧ notary_replace_amount_pdf_purepy env doc new_amount = Ok out
    ∧ out !! i = Some opage
    ∧ contents opage
      = contents page
        ++ [OpClipped 0 0 (mediabox_width page0) (mediabox_height page0)
              (before
               ++ [ OpRect (hit_x0 h - pad) (hit_y0 h - pad)
                      ((hit_x1 h - hit_x0 h) + 2 * pad) ((hit_y1 h - hit_y0 h) + 2 * pad)
                      white white true false;
                    OpText (hit_x0 h) baseline
                      (_ensure_font env (hit_family h) (hit_style h)) (hit_size h) black
                      (new_text h new_amount (now_nl_date env)) ]
               ++ after)]%Q
    ∧ (env_overlay_pct env = None →
       Forall glyph_well_formed (page_glyphs page) →
       (hit_y0 h <= baseline <= hit_y1 h)%Q).
Proof.
  intros Hp Hscan Hin pad baseline. apply page_hits_of_eq in Hscan. subst hits.
  destruct (notary_page env doc new_amount i page Hp) as (out & page0 & H0 & Hout & Hi).
  destruct (hit_ops_in_page env new_amount page h Hin) as (before & after & Hops).
  destruct (page_hit_origin env page h Hin) as (items & kind & m & Hit & Hr).
  assert (Hk : hit_k h = overlay_pct env).
  { destruct (resolve_hit_inv _ _ _ _ _ _ Hr) as (g & rest & sz & _ & _ & ->). done. }
  exists out. eexists _, page0, before, after.
  split; [done|]. split; [done|]. split; [exact Hi|]. split.
  - unfold rewritten_page. cbn [contents fst snd]. rewrite Hops. unfold hit_ops.
    fold pad. rewrite Hk. reflexivity.
  - intros Henv Hwf.
    assert (Hseg : Forall glyph_well_formed (slice (line_chars items) m.1 m.2)).
    { apply Forall_slice. apply Forall_forall. intros g Hg.
      rewrite Forall_forall in Hwf. by apply Hwf, (line_glyphs_of_page page items). }
    destruct (hit_box_not_inverted _ _ _ _ _ _ Hr Hseg) as [_ Hy].
    subst baseline. unfold overlay_pct. rewrite Henv. cbn [default]. split; nra.
Qed.

Lemma replacement_text_position_witness :
  ∃ h out opage page0 before after,
    head (page_hits_of env0 (page_of_lines 595 842 [u "€ 5.000,00 op 01.01.2024"])) = Some h
    ∧ head doc_two_sizes = Some page0
    ∧ notary_replace_amount_pdf_purepy env0 doc_two_sizes sample_amount = Ok out
    ∧ out !! 0%nat = Some opage
    ∧ contents opage
      = [OpOther 0]
        ++ [OpClipped 0 0 (mediabox_width page0) (mediabox_height page0)
              (before
               ++ [ OpRect (hit_x0 h - hit_pad h) (hit_y0 h - hit_pad h)
                      ((hit_x1 h - hit_x0 h) + 2 * hit_pad h)
                      ((hit_y1 h - hit_y0 h) + 2 * hit_pad h)
                      white white true false;
                    OpText (hit_x0 h)
                      (hit_y0 h + (hit_y1 h - hit_y0 h) * overlay_pct env0)
                      (_ensure_font env0 (hit_family h) (hit_style h)) (hit_size h) black
                      (new_text h sample_amount (now_nl_date env0)) ]
               ++ after)]%Q
    ∧ (hit_y0 h <= hit_y0 h + (hit_y1 h - hit_y0 h) * overlay_pct env0 <= hit_y1 h)%Q.
Proof.
  eexists.
  destruct (replacement_text_position env0 doc_two_sizes sample_amount 0
              (page_of_lines 595 842 [u "€ 5.000,00 op 01.01.2024"])
              (page_hits_of env0 (page_of_lines 595 842 [u "€ 5.000,00 op 01.01.2024"]))
              (default (hit_over env0 date [] (0, 0)%nat (glyph_at 0 0) [] 0)
                 (head (page_hits_of env0
                          (page_of_lines 595 842 [u "€ 5.000,00 op 01.01.2024"])))))
    as (out & opage & page0 & before & after & H0 & Hout & Hi & Hc & Hy).
  { reflexivity. }
  { apply page_hits_of_scan. }
  { vm_compute. apply list_elem_of_here. }
  exists out, opage, page0, before, after.
  split; [vm_compute; reflexivity|]. split; [exact H0|]. split; [exact Hout|].
  split; [exact Hi|]. split; [exact Hc|]. apply Hy; [reflexivity|].
  vm_compute. repeat constructor; discriminate.
Defined.

(** X5. For a document with at least one page the routine returns a
    document; the page written at index [i] is the page of that index with
    its own content first and then, inside a clip to the box of the overlay
    page, which has the size of the first page, the white rectangle and the
    new text of each hit found on that page's own layout, in the order
    found. Nothing found on one page is drawn on another, and media box
    and layout are kept. *)
Theorem output_is_rewritten_page_by_page env page0 rest new_amount :
  ∃ out,
    notary_replace_amount_pdf_purepy env (page0 :: rest) new_amount = Ok out
    ∧ length out = length (page0 :: rest)
    ∧ ∀ i page, (page0 :: rest) !! i = Some page →
        ∃ hits,
          scan_layout env (layout page) [] = Ok hits
          ∧ out !! i
            = Some (mkPage (mediabox_width page) (mediabox_height page)
                      (contents page
                       ++ [OpClipped 0 0 (mediabox_width page0) (mediabox_height page0)
                             (hits ≫= hit_ops env new_amount (now_nl_date env))])
                      (layout page)).
Proof.
  eexists. split; [apply notary_writes|]. split; [by rewrite length_fmap|].
  intros i page Hp. exists (page_hits_of env page).
  split; [apply page_hits_of_scan|]. by rewrite list_lookup_fmap, Hp.
Qed.

(** ** Pages without digits *)

Lemma rep2_digit_needs_digit s i k e :
  rx (Rep 2 (Cls is_digit)) s i k = Some e → ∃ c, s !! i = Some c ∧ is_digit c = true.
Proof.
  cbn [rx]. destruct (s !! i) as [c|]; [|done].
  destruct (is_digit c) eqn:Hc; [|done]. eauto.
Qed.

Lemma money_left_needs_digit s i e :
  match_at money_pat_left s i = Some e → ∃ j c, s !! j = Some c ∧ is_digit c = true.
Proof.
  unfold match_at, money_pat_left. rewrite rx_seq.
  intros (j1 & _ & _ & H)%rx_bounds. rewrite rx_seq in H.
  apply rx_bounds in H as (j2 & _ & _ & H). rewrite rx_seq in H.
  apply rx_bounds in H as (j3 & _ & _ & H). rewrite rx_seq in H.
  apply rx_bounds in H as (j4 & _ & _ & H).
  apply rep2_digit_needs_digit in H as (c & Hc & Hd). eauto.
Qed.

Lemma money_right_needs_digit s i e :
  match_at money_pat_right s i = Some e → ∃ j c, s !! j = Some c ∧ is_digit c = true.
Proof.
  unfold match_at, money_pat_right. rewrite rx_seq.
  intros (j1 & _ & _ & H)%rx_bounds. rewrite rx_seq in H.
  apply rx_bounds in H as (j2 & _ & _ & H). rewrite rx_seq in H.
  apply rep2_digit_needs_digit in H as (c & Hc & Hd). eauto.
Qed.

Lemma date_needs_digit sep s i e :
  match_at (date_re sep) s i = Some e → ∃ j c, s !! j = Some c ∧ is_digit c = true.
Proof.
  intros [_ [Hf _]]%date_match_shape.
  destruct (Hf 0%nat ltac:(lia)) as (c & Hc & Hd). eauto.
Qed.

Lemma no_digit_no_match pat s :
  pat ∈ [money_pat_left; money_pat_right; date_pat; date_pat_dots] →
  Forall (λ c, is_digit c = false) s →
  finditer pat s = [].
Proof.
  intros Hpat Hs. apply scan_nothing. intros i _ _.
  destruct (match_at pat s i) as [e|] eqn:He; [exfalso|done].
  assert (∃ j c, s !! j = Some c ∧ is_digit c = true) as (j & c & Hc & Hd).
  { repeat (apply elem_of_cons in Hpat as [->|Hpat]).
    - by eapply money_left_needs_digit.
    - by eapply money_right_needs_digit.
    - by eapply (date_needs_digit MINUS).
    - by eapply (date_needs_digit DOT).
    - by apply elem_of_nil in Hpat. }
  rewrite Forall_forall in Hs.
  specialize (Hs c (list_elem_of_lookup_2 _ _ _ Hc)). congruence.
Qed.

Lemma line_hits_no_digit env chars :
  Forall (λ c, is_digit c = false) (line_text chars) → line_hits env chars = [].
Proof.
  intros Hs. unfold line_hits, pattern_hits.
  rewrite !no_digit_no_match; [done|..]; try done.
  - do 3 apply list_elem_of_further. apply list_elem_of_here.
  - do 2 apply list_elem_of_further. apply list_elem_of_here.
  - apply list_elem_of_further, list_elem_of_here.
  - apply list_elem_of_here.
Qed.

Lemma scan_box_no_digit env children page_hits :
  Forall (Forall (λ c, is_digit c = false)) (box_line_texts children) →
  scan_box env children page_hits = Ok page_hits.
Proof.
  revert page_hits. induction children as [|[items|] rest IH]; intros ph Hall.
  - done.
  - cbn [box_line_texts omap list_omap] in Hall. apply Forall_cons in Hall as [Hl Hrest].
    cbn [scan_box]. rewrite scan_line_ok, line_hits_no_digit by done.
    rewrite app_nil_r. cbn [rbind]. by apply IH.
  - cbn [scan_box]. by apply IH.
Qed.

Lemma scan_layout_no_digit env lay page_hits :
  Forall (Forall (λ c, is_digit c = false))
    (lay ≫= λ it, match it with
                  | TextContainer children => box_line_texts children
                  | LayoutOther => []
                  end) →
  scan_layout env lay page_hits = Ok page_hits.
Proof.
  revert page_hits. induction lay as [|[children|] rest IH]; intros ph Hall.
  - done.
  - cbn [mbind list_bind] in Hall. apply Forall_app in Hall as [Hc Hrest].
    cbn [scan_layout]. rewrite scan_box_no_digit by done. cbn [rbind]. by apply IH.
  - cbn [scan_layout]. apply IH. by cbn [mbind list_bind app] in Hall.
Qed.

(** X6. On a page on which no line of text contains a decimal digit
    (of any script) nothing is drawn, whatever the other pages hold: the
    page is written with its own content followed by an empty overlay. *)
Theorem page_without_digits_gets_no_overlay env doc new_amount i page :
  doc !! i = Some page →
  Forall (Forall (λ c, is_digit c = false)) (page_line_texts page) →
  ∃ out page0,
    head doc = Some page0
    ∧ notary_replace_amount_pdf_purepy env doc new_amount = Ok out
    ∧ out !! i
      = Some (mkPage (mediabox_width page) (mediabox_height page)
                (contents page
                 ++ [OpClipped 0 0 (mediabox_width page0) (mediabox_height page0) []])
                (layout page)).
Proof.
  intros Hp Hnone.
  destruct (notary_page env doc new_amount i page Hp) as (out & page0 & H0 & Hout & Hi).
  exists out, page0. split; [done|]. split; [done|]. rewrite Hi. f_equal.
  unfold rewritten_page.
  assert (Hnohit : page_hits_of env page = []).
  { unfold page_hits_of. by rewrite scan_layout_no_digit. }
  by rewrite Hnohit.
Qed.

Lemma page_without_digits_gets_no_overlay_witness :
  ∃ out page0,
    head doc_mixed = Some page0
    ∧ notary_replace_amount_pdf_purepy env0 doc_mixed sample_amount = Ok out
    ∧ out !! 1%nat
      = Some (mkPage 595 842 ([OpOther 0] ++ [OpClipped 0 0 (mediabox_width page0)
                                                (mediabox_height page0) []])
                (layout (page_of_lines 595 842 [u "geen bedrag"]))).
Proof.
  apply (page_without_digits_gets_no_overlay env0 doc_mixed sample_amount 1
           (page_of_lines 595 842 [u "geen bedrag"])).
  - reflexivity.
  - apply (bool_decide_unpack _). vm_compute. exact I.
Defined.

(** * Amounts as text: [parse_money] and [fmt_eur] *)

Lemma lstrip_no_space s : Forall (λ c, is_space c = false) s → lstrip s = s.
Proof. destruct 1 as [|c s Hc Hs]; [done|]. exact (lstrip_id c s Hc). Qed.

Lemma strip_no_space s : Forall (λ c, is_space c = false) s → strip s = s.
Proof.
  intros Hs. unfold strip. rewrite (lstrip_no_space s) by done.
  rewrite lstrip_no_space; [apply rev_involutive|].
  apply Forall_forall. intros c Hc%list_elem_of_In%in_rev%list_elem_of_In.
  rewrite Forall_forall in Hs. by apply Hs.
Qed.

Lemma fmap_fixed {A} (f : A → A) (l : list A) : Forall (λ x, f x = x) l → f <$> l = l.
Proof. induction 1 as [|x l Hx Hl IH]; [done|]. cbn. by rewrite Hx, IH. Qed.

Lemma cleaned_keep s :
  Forall not_a_letter s → strip s = s → cleaned s = keep s.
Proof.
  intros Hall Hstrip. unfold cleaned, keep. rewrite Hstrip.
  rewrite upper_id by (eapply Forall_impl; [exact Hall|]; by intros x [? _]).
  rewrite (replace_single_filter EURO).
  change (u "EUR") with [69; 85; 82].
  rewrite (replace_absent 69).
  2:{ apply Forall_forall. intros x [_ Hx]%list_elem_of_filter.
      rewrite Forall_forall in Hall. by apply Hall. }
  by rewrite replace_single_filter.
Qed.

Lemma keep_all s : Forall (λ c, c ≠ SPACE ∧ c ≠ EURO) s → keep s = s.
Proof.
  intros Hall. unfold keep.
  rewrite (filter_all (λ c, c ≠ EURO)) by (eapply Forall_impl; [exact Hall|]; cbn; tauto).
  apply filter_all. eapply Forall_impl; [exact Hall|]. cbn. tauto.
Qed.

Lemma digit_facts c :
  is_digit c = true →
  not_a_letter c ∧ is_space c = false ∧ c ≠ SPACE ∧ c ≠ EURO ∧ c ≠ DOT
  ∧ c ≠ COMMA ∧ c ≠ MINUS ∧ c ≠ LETTER_X.
Proof.
  intros Hd. unfold not_a_letter.
  repeat split; try (by apply digit_ne); try (by_digit c Hd); try (intros ->; done).
Qed.

Lemma filter_dots_digits body :
  Forall (digit_or DOT) body →
  Forall (λ c, is_digit c = true) (filter (λ c, c ≠ DOT) body).
Proof.
  intros Hb. apply Forall_forall. intros c [Hne Hc]%list_elem_of_filter.
  rewrite Forall_forall in Hb. by destruct (Hb c Hc).
Qed.

(** A number as a user may type it: sign, digits and dots, and an
    optional fraction after a comma or a dot. *)
Section TypedNumber.
Variables (neg : bool) (body ds fp : text).
Hypothesis body_ok : Forall (digit_or DOT) body.
Hypothesis body_digits : filter (λ c, c ≠ DOT) body = ds.
Hypothesis ds_ne : ds ≠ [].
Hypothesis fp_digits : Forall (λ c, is_digit c = true) fp.

Lemma ds_digits : Forall (λ c, is_digit c = true) ds.
Proof. rewrite <- body_digits. by apply filter_dots_digits. Qed.

Lemma sign_facts :
  Forall (λ c, not_a_letter c ∧ is_space c = false ∧ c ≠ SPACE ∧ c ≠ EURO
               ∧ c ≠ DOT ∧ c ≠ COMMA) (sign_text neg).
Proof. destruct neg; repeat constructor; done. Qed.

Lemma typed_chars (mid : cp) (front : text) :
  (mid = DOT ∨ mid = COMMA) → Forall (digit_or DOT) front →
  Forall (λ c, not_a_letter c ∧ is_space c = false ∧ c ≠ SPACE ∧ c ≠ EURO)
    (sign_text neg ++ front ++ mid :: fp).
Proof.
  intros Hmid Hfront. apply Forall_app. split.
  { eapply Forall_impl; [apply sign_facts|]. cbn. tauto. }
  apply Forall_app. split.
  - eapply Forall_impl; [exact Hfront|]. intros c [Hd| ->]; [|done].
    apply digit_facts in Hd. tauto.
  - constructor; [destruct Hmid as [-> | ->]; done|].
    eapply Forall_impl; [exact fp_digits|]. intros c Hd%digit_facts. tauto.
Qed.

Lemma cleaned_typed (mid : cp) (front : text) :
  (mid = DOT ∨ mid = COMMA) → Forall (digit_or DOT) front →
  cleaned (sign_text neg ++ front ++ mid :: fp) = sign_text neg ++ front ++ mid :: fp.
Proof.
  intros Hmid Hfront. pose proof (typed_chars mid front Hmid Hfront) as Hall.
  rewrite cleaned_keep.
  - apply keep_all. eapply Forall_impl; [exact Hall|]. cbn. tauto.
  - eapply Forall_impl; [exact Hall|]. cbn. tauto.
  - apply strip_no_space. eapply Forall_impl; [exact Hall|]. cbn. tauto.
Qed.

Lemma cleaned_whole :
  cleaned (sign_text neg ++ ds) = sign_text neg ++ ds.
Proof.
  assert (Hall : Forall (λ c, not_a_letter c ∧ is_space c = false ∧ c ≠ SPACE ∧ c ≠ EURO)
                   (sign_text neg ++ ds)).
  { apply Forall_app. split.
    - eapply Forall_impl; [apply sign_facts|]. cbn. tauto.
    - eapply Forall_impl; [apply ds_digits|]. intros c Hd%digit_facts. tauto. }
  rewrite cleaned_keep.
  - apply keep_all. eapply Forall_impl; [exact Hall|]. cbn. tauto.
  - eapply Forall_impl; [exact Hall|]. cbn. tauto.
  - apply strip_no_space. eapply Forall_impl; [exact Hall|]. cbn. tauto.
Qed.

Lemma comma_becomes_dot :
  replace [COMMA] [DOT] (sign_text neg ++ ds ++ COMMA :: fp)
  = sign_text neg ++ ds ++ DOT :: fp.
Proof.
  rewrite replace_single_map, !fmap_app, fmap_cons. f_equal; [|f_equal; [|f_equal]].
  - by destruct neg.
  - apply fmap_fixed. eapply Forall_impl; [apply ds_digits|]. intros c Hd. cbn.
    by assert ((c =? COMMA) = false) as -> by (by apply N.eqb_neq, digit_ne).
  - apply fmap_fixed. eapply Forall_impl; [exact fp_digits|]. intros c Hd. cbn.
    by assert ((c =? COMMA) = false) as -> by (by apply N.eqb_neq, digit_ne).
Qed.

Lemma decimal_point_comma :
  decimal_point (sign_text neg ++ body ++ COMMA :: fp) = sign_text neg ++ ds ++ DOT :: fp.
Proof.
  unfold decimal_point. set (t := sign_text neg ++ body ++ COMMA :: fp).
  assert (has COMMA t = true) as ->.
  { apply has_spec. subst t. rewrite !elem_of_app. right. right. apply list_elem_of_here. }
  cbn [andb]. destruct (has DOT t) eqn:Hdot.
  - rewrite replace_single_filter. subst t. rewrite !filter_app, body_digits.
    rewrite (filter_all _ (sign_text neg)) by (by destruct neg; repeat constructor).
    rewrite (filter_all _ (COMMA :: fp)).
    + apply comma_becomes_dot.
    + constructor; [done|]. eapply Forall_impl; [exact fp_digits|].
      intros c Hd. by apply digit_ne.
  - assert (Hbd : body = ds).
    { rewrite <- body_digits. symmetry. apply filter_all. apply Forall_forall.
      intros c Hc ->. assert (has DOT t = true); [|congruence].
      apply has_spec. subst t. rewrite !elem_of_app. right. by left. }
    subst t. rewrite Hbd. apply comma_becomes_dot.
Qed.

Lemma decimal_point_dot :
  decimal_point (sign_text neg ++ ds ++ DOT :: fp) = sign_text neg ++ ds ++ DOT :: fp.
Proof.
  unfold decimal_point. rewrite has_false; [done|].
  apply Forall_app. split; [by destruct neg; repeat constructor|].
  apply Forall_app. split.
  - eapply Forall_impl; [apply ds_digits|]. intros c Hd. by apply digit_ne.
  - constructor; [done|]. eapply Forall_impl; [exact fp_digits|].
    intros c Hd. by apply digit_ne.
Qed.

Lemma decimal_point_whole :
  decimal_point (sign_text neg ++ ds) = sign_text neg ++ ds.
Proof.
  unfold decimal_point. rewrite has_false; [done|].
  apply Forall_app. split; [by destruct neg; repeat constructor|].
  eapply Forall_impl; [apply ds_digits|]. intros c Hd. by apply digit_ne.
Qed.
End TypedNumber.

Lemma length_from_drop {A} (s l : list A) i :
  drop i s = l → l ≠ [] → length s = (i + length l)%nat.
Proof.
  intros Hd Hne. assert (Hlen : length l = (length s - i)%nat).
  { by rewrite <- Hd, length_drop. }
  destruct l; [done|]. cbn [length] in *. lia.
Qed.

Lemma digits_then_end s i ds :
  drop i s = ds → ds ≠ [] → Forall (λ c, is_digit c = true) ds →
  rx (PlusCls is_digit ⊙ Opt (Lit DOT ⊙ PlusCls is_digit) ⊙ Eol) s i Some
  = Some (length s).
Proof.
  intros Hd Hne Hds. pose proof (length_from_drop s ds i Hd Hne) as Hlen.
  rewrite rx_seq. apply (rx_plus_step _ s i ds []); [by rewrite app_nil_r|done..|].
  rewrite <- Hlen, rx_seq, rx_opt_miss.
  - apply rx_eol_end.
  - rewrite rx_seq. apply rx_lit_end.
Qed.

Lemma digits_then_fraction s i ds fp :
  drop i s = ds ++ DOT :: fp → ds ≠ [] → Forall (λ c, is_digit c = true) ds →
  fp ≠ [] → Forall (λ c, is_digit c = true) fp →
  rx (PlusCls is_digit ⊙ Opt (Lit DOT ⊙ PlusCls is_digit) ⊙ Eol) s i Some
  = Some (length s).
Proof.
  intros Hd Hne Hds Hfne Hfp.
  assert (Hlen : length s = (i + length (ds ++ DOT :: fp))%nat).
  { apply length_from_drop; [done|by destruct ds]. }
  rewrite length_app in Hlen. cbn [length] in Hlen.
  rewrite rx_seq. apply (rx_plus_step _ s i ds (DOT :: fp)); [done..|].
  apply drop_past in Hd. rewrite rx_seq. apply rx_opt_hit.
  rewrite rx_seq, (rx_lit_step s _ DOT fp) by done. apply drop_next in Hd.
  apply (rx_plus_step _ s _ fp []); [by rewrite app_nil_r|done..|].
  replace (S (i + length ds) + length fp)%nat with (length s) by lia.
  apply rx_eol_end.
Qed.

Lemma money_re_signed neg ds rest :
  ds ≠ [] → Forall (λ c, is_digit c = true) ds →
  (∀ s i, drop i s = ds ++ rest →
     rx (PlusCls is_digit ⊙ Opt (Lit DOT ⊙ PlusCls is_digit) ⊙ Eol) s i Some
     = Some (length s)) →
  re_match money_re (sign_text neg ++ ds ++ rest)
  = Some (length (sign_text neg ++ ds ++ rest)).
Proof.
  intros Hne Hds Hrest. unfold re_match, match_at, money_re.
  rewrite rx_seq, rx_bol_0, rx_seq. destruct neg; cbn [sign_text app].
  - apply rx_opt_hit. rewrite (rx_lit_step _ 0 MINUS (ds ++ rest)) by done.
    by apply Hrest.
  - rewrite rx_opt_miss; [by apply Hrest|].
    destruct ds as [|d ds']; [done|]. apply Forall_cons in Hds as [Hd _].
    apply (rx_lit_miss _ 0 MINUS d (ds' ++ rest)); [done|by apply digit_ne].
Qed.

Lemma Decimal_of_signed neg ds rest :
  ds ≠ [] → Forall (λ c, is_digit c = true) ds →
  Forall (λ c, is_space c = false) rest → run_stops is_digit rest →
  Decimal_of_text (sign_text neg ++ ds ++ rest)
  = match rest with
    | [] => Ok (mkDecimal neg (of_digits ds) 0)
    | c :: fp =>
      if (c =? DOT) && bool_decide (fp ≠ []) && forallb is_digit fp
      then Ok (mkDecimal neg (of_digits (ds ++ fp)) (length fp))
      else Raise InvalidOperation
    end.
Proof.
  intros Hne Hds Hrest Hstop. unfold Decimal_of_text.
  rewrite strip_no_space.
  2:{ apply Forall_app. split; [by destruct neg; repeat constructor|].
      apply Forall_app. split; [|done].
      eapply Forall_impl; [exact Hds|]. intros c Hd. by apply digit_not_space. }
  assert (Htail : ∀ n,
            (let ip := take (run_length is_digit (ds ++ rest)) (ds ++ rest) in
             match ip, drop (length ip) (ds ++ rest) with
             | _ :: _, [] => Ok (mkDecimal n (of_digits ip) 0)
             | _ :: _, c :: fp =>
               if (c =? DOT) && bool_decide (fp ≠ []) && forallb is_digit fp
               then Ok (mkDecimal n (of_digits (ip ++ fp)) (length fp))
               else Raise InvalidOperation
             | [], _ => Raise InvalidOperation
             end)
            = match rest with
              | [] => Ok (mkDecimal n (of_digits ds) 0)
              | c :: fp =>
                if (c =? DOT) && bool_decide (fp ≠ []) && forallb is_digit fp
                then Ok (mkDecimal n (of_digits (ds ++ fp)) (length fp))
                else Raise InvalidOperation
              end).
  { intros n. cbv zeta. rewrite run_length_app by done.
    rewrite take_app_length. destruct ds as [|d ds']; [done|]. cbv beta iota.
    by rewrite drop_app_length. }
  destruct neg; cbn [sign_text app].
  - change (MINUS =? MINUS) with true. cbv beta iota. apply Htail.
  - destruct ds as [|d ds'] eqn:Hdeq; [done|].
    pose proof Hds as [Hd _]%Forall_cons. cbn [app].
    assert ((d =? MINUS) = false) as -> by (by apply N.eqb_neq, digit_ne).
    cbv beta iota. apply (Htail false).
Qed.

Lemma forallb_digits fp : Forall (λ c, is_digit c = true) fp → forallb is_digit fp = true.
Proof. induction 1 as [|c fp Hc Hfp IH]; [done|]. cbn. by rewrite Hc, IH. Qed.

(** X7. How [parse_money] reads a typed number, with or without a minus
    sign. Digits alone are a whole number. A single dot is a decimal
    point, so 1.200 is read as 1.2 and not as 1200. When a comma is present
    it is the decimal point and every dot before it is ignored. *)
Theorem parse_money_reads_separators (neg : bool) (body ds fp : text) :
  Forall (digit_or DOT) body → filter (λ c, c ≠ DOT) body = ds → ds ≠ [] →
  fp ≠ [] → Forall (λ c, is_digit c = true) fp →
  parse_money (sign_text neg ++ ds) = Ok (mkDecimal neg (of_digits ds) 0)
  ∧ parse_money (sign_text neg ++ ds ++ DOT :: fp)
    = Ok (mkDecimal neg (of_digits (ds ++ fp)) (length fp))
  ∧ parse_money (sign_text neg ++ body ++ COMMA :: fp)
    = Ok (mkDecimal neg (of_digits (ds ++ fp)) (length fp)).
Proof.
  intros Hbody Hfil Hne Hfne Hfp.
  pose proof (ds_digits body ds Hbody Hfil) as Hds.
  assert (Hdd : Forall (digit_or DOT) ds).
  { eapply Forall_impl; [exact Hds|]. intros c Hc. by left. }
  assert (Hfilds : filter (λ c, c ≠ DOT) ds = ds).
  { apply filter_all. eapply Forall_impl; [exact Hds|]. intros c Hc. by apply digit_ne. }
  assert (Hfrac : parse_cleaned (sign_text neg ++ ds ++ DOT :: fp)
                  = Ok (mkDecimal neg (of_digits (ds ++ fp)) (length fp))
                  ∧ decimal_point (sign_text neg ++ ds ++ DOT :: fp)
                    = sign_text neg ++ ds ++ DOT :: fp).
  { pose proof (decimal_point_dot neg ds ds fp Hdd Hfilds Hfp) as Hdp.
    split; [|done]. unfold parse_cleaned. fold (decimal_point (sign_text neg ++ ds ++ DOT :: fp)).
    rewrite Hdp, money_re_signed; [|done..|].
    - rewrite (Decimal_of_signed neg ds (DOT :: fp)); [|done..| |done].
      + rewrite N.eqb_refl, bool_decide_eq_true_2, forallb_digits by done. done.
      + constructor; [done|]. eapply Forall_impl; [exact Hfp|].
        intros c Hc. by apply digit_not_space.
    - intros s i Hd. by apply (digits_then_fraction s i ds fp). }
  split; [|split].
  - rewrite parse_money_cleaned, (cleaned_whole neg ds ds) by done.
    unfold parse_cleaned. fold (decimal_point (sign_text neg ++ ds)).
    rewrite (decimal_point_whole neg ds ds) by done.
    replace (sign_text neg ++ ds) with (sign_text neg ++ ds ++ [])
      by (by rewrite app_nil_r).
    rewrite (money_re_signed neg ds []); [|done..|].
    + by rewrite (Decimal_of_signed neg ds []).
    + intros s i Hd. rewrite app_nil_r in Hd. by apply (digits_then_end s i ds).
  - rewrite parse_money_cleaned, (cleaned_typed neg fp Hfp DOT ds) by tauto.
    apply Hfrac.
  - rewrite parse_money_cleaned, (cleaned_typed neg fp Hfp COMMA body) by tauto.
    unfold parse_cleaned. fold (decimal_point (sign_text neg ++ body ++ COMMA :: fp)).
    rewrite (decimal_point_comma neg body ds fp) by done.
    destruct Hfrac as [Hparse Hdp]. unfold parse_cleaned in Hparse.
    fold (decimal_point (sign_text neg ++ ds ++ DOT :: fp)) in Hparse.
    by rewrite Hdp in Hparse.
Qed.

Lemma parse_money_reads_separators_witness :
  parse_money (u "1.200") = Ok (mkDecimal false 1200 3)
  ∧ parse_money (u "-1.234.567,5") = Ok (mkDecimal true 12345675 1).
Proof.
  split.
  - apply (parse_money_reads_separators false (u "1") (u "1") (u "200"));
      [repeat constructor; by left|reflexivity|done|done|by repeat constructor].
  - apply (parse_money_reads_separators true (u "1.234.567") (u "1234567") (u "5"));
      [|reflexivity|done|done|by repeat constructor].
    repeat constructor; (by left) || (by right).
Defined.

Lemma parse_cleaned_comma neg body ds fp :
  Forall (digit_or DOT) body → filter (λ c, c ≠ DOT) body = ds → ds ≠ [] →
  fp ≠ [] → Forall (λ c, is_digit c = true) fp →
  parse_cleaned (sign_text neg ++ body ++ COMMA :: fp)
  = Ok (mkDecimal neg (of_digits (ds ++ fp)) (length fp)).
Proof.
  intros Hbody Hfil Hne Hfne Hfp.
  pose proof (ds_digits body ds Hbody Hfil) as Hds.
  unfold parse_cleaned. fold (decimal_point (sign_text neg ++ body ++ COMMA :: fp)).
  rewrite (decimal_point_comma neg body ds fp) by done.
  rewrite (money_re_signed neg ds (DOT :: fp)); [|done..|].
  - rewrite (Decimal_of_signed neg ds (DOT :: fp)); [|done..| |done].
    + rewrite N.eqb_refl, bool_decide_eq_true_2, forallb_digits by done. done.
    + constructor; [done|]. eapply Forall_impl; [exact Hfp|].
      intros c Hc. by apply digit_not_space.
  - intros s i Hd. by apply (digits_then_fraction s i ds fp).
Qed.

Lemma nl_parts (a : N) :
  ∃ ds f1 f2,
    pad2 (a `mod` 100) = [f1; f2]
    ∧ Forall (digit_or DOT) (nl_body a)
    ∧ filter (λ c, c ≠ DOT) (nl_body a) = ds
    ∧ ds ≠ [] ∧ is_digit f1 = true ∧ is_digit f2 = true
    ∧ of_digits (ds ++ [f1; f2]) = a.
Proof.
  destruct (digits_spec (a / 100)) as (Hne & Hdig & Hof).
  destruct (group3_spec _ Hdig) as (Hgrp & Hfil & Hgne).
  destruct (nl_body_spec _ Hgrp) as (Hbody & Hbfil).
  destruct (pad2_spec (a `mod` 100)) as (f1 & f2 & Hpad & Hf1 & Hf2 & Hpof).
  { apply N.mod_lt. lia. }
  exists (digits (a / 100)), f1, f2.
  split; [done|]. split; [done|]. split. { unfold nl_body. by rewrite Hbfil. }
  split; [done|]. split; [done|]. split; [done|].
  rewrite of_digits_app, Hof, Hpof. cbn [length].
  change (10 ^ N.of_nat 2) with 100.
  pose proof (N.div_mod a 100 ltac:(lia)). lia.
Qed.

Lemma cleaned_with_euro s :
  s ≠ [] → Forall (λ c, not_a_letter c ∧ is_space c = false ∧ c ≠ SPACE ∧ c ≠ EURO) s →
  cleaned (s ++ [SPACE; EURO]) = s.
Proof.
  intros Hne Hall. rewrite cleaned_keep.
  - rewrite keep_app, keep_all.
    + change (keep [SPACE; EURO]) with (@nil N). apply app_nil_r.
    + eapply Forall_impl; [exact Hall|]. cbn. tauto.
  - apply Forall_app. split.
    + eapply Forall_impl; [exact Hall|]. cbn. tauto.
    + by repeat constructor.
  - destruct s as [|c s']; [done|]. pose proof Hall as [(_ & Hc & _) _]%Forall_cons.
    cbn [app]. apply (strip_id c _ EURO); [done| |done].
    change (c :: s' ++ [SPACE; EURO]) with ((c :: s') ++ [SPACE; EURO]).
    by rewrite last_app.
Qed.

Lemma number_nl_of_reads_back neg a :
  parse_money (number_nl_of neg a ++ [SPACE; EURO]) = Ok (mkDecimal neg a 2).
Proof.
  rewrite number_nl_of_eq.
  destruct (nl_parts a) as (ds & f1 & f2 & Hpad & Hbody & Hfil & Hne & H1 & H2 & Hof).
  rewrite Hpad, parse_money_cleaned, cleaned_with_euro.
  - rewrite (parse_cleaned_comma _ (nl_body a) ds [f1; f2]); [|done..|].
    + by rewrite Hof.
    + by repeat constructor.
  - intros Hnil. apply app_eq_nil in Hnil as [_ Hnil].
    apply app_eq_nil in Hnil as [_ Hnil]. discriminate.
  - apply (typed_chars neg [f1; f2]); [by repeat constructor|tauto|done].
Qed.

(** X8. [parse_money] reads back what [fmt_eur] writes for a [Decimal]
    with two decimals whose magnitude is below 2^46, negative values
    included: sign, digits and the two decimals are recovered. *)
Theorem parse_money_reads_fmt_eur (neg : bool) (cents : N) :
  cents < 2 ^ 46 * 100 →
  parse_money (fmt_eur (NumDecimal (mkDecimal neg cents 2))) = Ok (mkDecimal neg cents 2).
Proof.
  intros Hc. unfold fmt_eur.
  destruct (float_of_cents neg cents Hc) as (m & e & -> & Hcents).
  rewrite number_nl_finite, Hcents. apply number_nl_of_reads_back.
Qed.

Lemma parse_money_reads_fmt_eur_witness :
  fmt_eur (NumDecimal (mkDecimal true 123456 2)) = u "-1.234,56 €"
  ∧ parse_money (fmt_eur (NumDecimal (mkDecimal true 123456 2)))
    = Ok (mkDecimal true 123456 2).
Proof.
  split; [vm_compute; reflexivity|].
  apply (parse_money_reads_fmt_eur true 123456). done.
Defined.

(** X17. What [parse_money] reads from the text [fmt_eur] writes for a
    float: for a finite float, the sign of the float and the number of
    cents nearest to its exact value, ties to even; for an infinity and for
    a NaN, whose texts are "inf €", "-inf €" and "nan €", it raises
    ValueError. *)
Theorem parse_money_reads_fmt_eur_of_float (v : float) :
  parse_money (fmt_eur (NumFloat v))
  = match v with
    | Finite neg m e => Ok (mkDecimal neg (cents_of m e) 2)
    | _ => Raise ValueError
    end.
Proof.
  destruct v as [neg m e|neg|]; unfold fmt_eur.
  - rewrite number_nl_finite. apply number_nl_of_reads_back.
  - destruct neg; vm_compute; reflexivity.
  - vm_compute. reflexivity.
Qed.

(** ** What [parse_money] rejects *)

Lemma run_length_lookup p l n :
  (n < run_length p l)%nat → ∃ c, l !! n = Some c ∧ p c = true.
Proof.
  revert n. induction l as [|c l IH]; intros n; cbn [run_length]; [lia|].
  destruct (p c) eqn:Hc; [|lia]. destruct n as [|n]; [eauto|].
  intros Hn. apply IH. lia.
Qed.

(** The characters a match passes over are consumed by atoms of the
    pattern. *)
Lemma rx_consumed r s i k e :
  rx r s i k = Some e →
  ∃ j, (i ≤ j)%nat ∧ k j = Some e
       ∧ ∀ n, (i ≤ n < j)%nat → ∃ c, s !! n = Some c ∧ consumes r c = true.
Proof.
  revert i k. induction r as [c|p|r1 IH1 r2 IH2|r1 IH1|p|n r1 IH1| | |];
    intros i k; cbn [rx consumes].
  - destruct (s !! i) as [c'|] eqn:Hi; [|done]. destruct (N.eqb_spec c' c) as [->|]; [|done].
    intros Hk. exists (S i). split; [lia|]. split; [done|].
    intros n Hn. assert (n = i) as -> by lia. exists c. by rewrite N.eqb_refl.
  - destruct (s !! i) as [c'|] eqn:Hi; [|done]. destruct (p c') eqn:Hp; [|done].
    intros Hk. exists (S i). split; [lia|]. split; [done|].
    intros n Hn. assert (n = i) as -> by lia. eauto.
  - intros (j1 & H1 & (j2 & H2 & Hk & Hc2)%IH2 & Hc1)%IH1.
    exists j2. split; [lia|]. split; [done|]. intros n Hn.
    destruct (decide (n < j1)%nat).
    + destruct (Hc1 n ltac:(lia)) as (c & Hc & Hcons). exists c. by rewrite Hcons.
    + destruct (Hc2 n ltac:(lia)) as (c & Hc & Hcons). exists c.
      by rewrite Hcons, orb_true_r.
  - destruct (rx r1 s i k) eqn:Hr.
    + intros [= <-]. by apply IH1.
    + intros Hk. exists i. split; [lia|]. split; [done|]. intros n Hn. lia.
  - intros (j & Hj & Hk)%greedy_down_inv.
    exists (i + j)%nat. split; [lia|]. split; [done|]. intros n Hn.
    destruct (run_length_lookup p (drop i s) (n - i)) as (c & Hc & Hp); [lia|].
    rewrite lookup_drop in Hc. replace (i + (n - i))%nat with n in Hc by lia. eauto.
  - revert i. induction n as [|n IHn]; intros i.
    + intros Hk. exists i. split; [lia|]. split; [done|]. intros m Hm. lia.
    + intros (j1 & H1 & (j2 & H2 & Hk & Hc2)%IHn & Hc1)%IH1.
      exists j2. split; [lia|]. split; [done|]. intros m Hm.
      destruct (decide (m < j1)%nat); [apply Hc1|apply Hc2]; lia.
  - case_bool_decide; [|done]. intros Hk. exists i. split; [lia|]. split; [done|].
    intros n Hn. lia.
  - destruct (at_eol s i); [|done]. intros Hk. exists i. split; [lia|]. split; [done|].
    intros n Hn. lia.
  - destruct (xorb _ _); [|done]. intros Hk. exists i. split; [lia|]. split; [done|].
    intros n Hn. lia.
Qed.

(** A text the pattern of [parse_money] accepts holds only digits, dots
    and minus signs, and possibly a final line feed. *)
Lemma money_re_chars t e :
  re_match money_re t = Some e →
  Forall (λ c, is_digit c = true ∨ c = DOT ∨ c = MINUS ∨ c = NEWLINE) t.
Proof.
  unfold re_match, match_at, money_re.
  change (rx _ t 0 Some)
    with (rx (Bol ⊙ Opt (Lit MINUS) ⊙ PlusCls is_digit ⊙ Opt (Lit DOT ⊙ PlusCls is_digit))
            t 0 (λ j, rx Eol t j Some)).
  intros (j & _ & Heol & Hchars)%rx_consumed.
  cbn [rx] in Heol. destruct (at_eol t j) eqn:Hend; [|done].
  apply Forall_forall. intros c (n & Hn)%list_elem_of_lookup_1.
  destruct (decide (n < j)%nat) as [Hlt|Hge].
  - destruct (Hchars n ltac:(lia)) as (c' & Hc' & Hcons).
    assert (c' = c) as -> by congruence. cbn [consumes] in Hcons.
    rewrite !orb_false_l in Hcons. remember (is_digit c) as dg eqn:Hdg.
    repeat (apply orb_true_iff in Hcons as [Hcons|Hcons]);
      try (apply N.eqb_eq in Hcons as ->); subst dg; tauto.
  - unfold at_eol in Hend. pose proof (lookup_lt_Some _ _ _ Hn) as Hlen.
    apply orb_true_iff in Hend as [Hend|Hend].
    + apply bool_decide_eq_true in Hend. lia.
    + apply andb_true_iff in Hend as [H1%bool_decide_eq_true H2%bool_decide_eq_true].
      assert (n = j) as -> by lia. do 3 right. congruence.
Qed.

Lemma lstrip_keeps c s : c ∈ s → is_space c = false → c ∈ lstrip s.
Proof.
  intros Hin Hc. induction s as [|x s IH]; [done|]. cbn [lstrip].
  destruct (is_space x) eqn:Hx; [|done].
  apply elem_of_cons in Hin as [->|Hin]; [congruence|by apply IH].
Qed.

Lemma strip_keeps c s : c ∈ s → is_space c = false → c ∈ strip s.
Proof.
  intros Hin Hc. unfold strip.
  apply list_elem_of_In, in_rev. rewrite rev_involutive. apply list_elem_of_In.
  apply lstrip_keeps; [|done]. apply list_elem_of_In. rewrite <- in_rev.
  apply list_elem_of_In. by apply lstrip_keeps.
Qed.

Lemma starts_with_take old s : starts_with old s = true → take (length old) s = old.
Proof.
  revert s. induction old as [|a old IH]; intros s; [done|].
  destruct s as [|b s]; [done|]. cbn [starts_with length take].
  intros [->%N.eqb_eq H]%andb_true_iff. by rewrite IH.
Qed.

Lemma replace_go_keeps c old new s skip :
  old ≠ [] → c ∉ old → Forall (λ x, x ∈ old) (take skip s) → c ∈ s →
  c ∈ replace_go old new s skip.
Proof.
  intros Hne Hc. revert skip. induction s as [|x s IH]; intros skip Hskip Hin.
  - by apply elem_of_nil in Hin.
  - cbn [replace_go]. destruct skip as [|n].
    + destruct (starts_with old (x :: s)) eqn:Hst.
      * apply starts_with_take in Hst. destruct old as [|a old']; [done|].
        cbn [length take] in Hst. injection Hst as -> Htl.
        apply elem_of_app. right. apply IH.
        -- match goal with
           | |- context [(length ?l - 1)%nat] =>
             replace (length l - 1)%nat with (length old') by (cbn [length]; lia)
           end.
           rewrite Htl. apply Forall_forall.
           intros y Hy. by apply list_elem_of_further.
        -- apply elem_of_cons in Hin as [->|Hin]; [|done].
           exfalso. apply Hc. apply list_elem_of_here.
      * apply elem_of_cons in Hin as [->|Hin]; [apply list_elem_of_here|].
        apply list_elem_of_further. apply IH; [by rewrite take_0|done].
    + cbn [take] in Hskip. apply Forall_cons in Hskip as [Hx Hskip].
      apply IH; [done|]. apply elem_of_cons in Hin as [->|Hin]; [done|done].
Qed.

Lemma replace_keeps c old new s :
  old ≠ [] → c ∉ old → c ∈ s → c ∈ replace old new s.
Proof. intros. apply replace_go_keeps; [done..|by rewrite take_0|done]. Qed.

Lemma decimal_point_keeps c t :
  c ≠ DOT → c ≠ COMMA → c ∈ t → c ∈ decimal_point t.
Proof.
  intros Hdot Hcomma Hin. unfold decimal_point.
  assert (Hmap : ∀ s, c ∈ s → c ∈ replace [COMMA] [DOT] s).
  { intros s Hs. rewrite replace_single_map. apply list_elem_of_fmap.
    exists c. split; [|done].
    by assert ((c =? COMMA) = false) as -> by (by apply N.eqb_neq). }
  destruct (has COMMA t && has DOT t); [|destruct (has COMMA t)]; [|by apply Hmap|done].
  apply Hmap. rewrite replace_single_filter. by apply list_elem_of_filter.
Qed.

(** X9. A single character that [parse_money] cannot digest is enough for
    it to raise ValueError: anything other than white space, a digit, a
    dot, a comma, a minus sign, the euro sign or one of the letters E, U
    and R in either case. *)
Theorem parse_money_rejects_foreign_characters (txt : text) (c : cp) :
  c ∈ txt → money_char c = false → parse_money txt = Raise ValueError.
Proof.
  intros Hin Hc. unfold money_char in Hc.
  apply orb_false_iff in Hc as [Hc Hset]. apply orb_false_iff in Hc as [Hsp Hdig].
  apply bool_decide_eq_false in Hset.
  assert (Hne : ∀ x, x ∈ [DOT; COMMA; MINUS; EURO; 69; 85; 82] → upper_cp c ≠ x).
  { intros x Hx Heq. apply Hset. by rewrite Heq. }
  assert (Hnl : upper_cp c ≠ NEWLINE ∧ upper_cp c ≠ SPACE).
  { unfold upper_cp. destruct (is_az c) eqn:Haz.
    - unfold is_az, between in Haz. apply andb_true_iff in Haz as [H1%N.leb_le H2%N.leb_le].
      unfold NEWLINE, SPACE. lia.
    - split; intros ->; done. }
  rewrite parse_money_cleaned.
  assert (Hclean : upper_cp c ∈ cleaned txt).
  { unfold cleaned. rewrite replace_single_filter. apply list_elem_of_filter.
    split; [tauto|]. apply replace_keeps; [done| |].
    - change (u "EUR") with [69; 85; 82]. intros Hx.
      apply (Hne (upper_cp c)); [|done]. by do 4 apply list_elem_of_further.
    - rewrite replace_single_filter. apply list_elem_of_filter. split.
      + apply Hne. do 3 apply list_elem_of_further. apply list_elem_of_here.
      + apply list_elem_of_fmap. exists c. split; [done|]. by apply strip_keeps. }
  unfold parse_cleaned. fold (decimal_point (cleaned txt)).
  destruct (re_match money_re (decimal_point (cleaned txt))) as [e|] eqn:Hre; [|done].
  exfalso. apply money_re_chars in Hre. rewrite Forall_forall in Hre.
  destruct (Hre (upper_cp c)) as [Hd|[Heq|[Heq|Heq]]].
  - apply decimal_point_keeps; [| |done]; apply Hne.
    + apply list_elem_of_here.
    + apply list_elem_of_further, list_elem_of_here.
  - congruence.
  - apply (Hne DOT); [apply list_elem_of_here|done].
  - apply (Hne MINUS); [do 2 apply list_elem_of_further; apply list_elem_of_here|done].
  - tauto.
Qed.

Lemma parse_money_rejects_foreign_characters_witness :
  parse_money (u "5000 usd") = Raise ValueError.
Proof.
  apply (parse_money_rejects_foreign_characters (u "5000 usd") 115).
  - apply (bool_decide_unpack _). vm_compute. exact I.
  - vm_compute. reflexivity.
Defined.

(** * The typesetter: [Typesetter.para] and [Typesetter.kv] *)

Lemma split_go_good s cur :
  Forall (λ c, is_space c = false) cur → Forall good_word (split_go s cur).
Proof.
  revert cur. induction s as [|a s IH]; intros cur Hcur; cbn [split_go].
  - case_bool_decide; [constructor|]. constructor; [by split|constructor].
  - destruct (is_space a) eqn:Ha.
    + case_bool_decide; [by apply IH|]. constructor; [by split|by apply IH].
    + apply IH. apply Forall_app. split; [done|]. by constructor.
Qed.

Lemma split_ws_good s : Forall good_word (split_ws s).
Proof. by apply split_go_good. Qed.

Lemma unwords_snoc g w : g ≠ [] → unwords (g ++ [w]) = unwords g ++ SPACE :: w.
Proof.
  induction g as [|a g IH]; [done|]. intros _. destruct g as [|b g]; [done|].
  change (unwords ((a :: b :: g) ++ [w])) with (a ++ SPACE :: unwords ((b :: g) ++ [w])).
  rewrite IH by done. change (unwords (a :: b :: g)) with (a ++ SPACE :: unwords (b :: g)).
  by rewrite <- app_assoc.
Qed.

Lemma unwords_head g :
  Forall good_word g → g ≠ [] → ∃ c s, unwords g = c :: s ∧ is_space c = false.
Proof.
  intros Hg Hne. destruct g as [|a g]; [done|].
  apply Forall_cons in Hg as [[Ha Hsp] _]. destruct a as [|c a]; [done|].
  apply Forall_cons in Hsp as [Hc _]. destruct g; cbn; eauto.
Qed.

Lemma good_word_last w : good_word w → ∃ d, last w = Some d ∧ is_space d = false.
Proof.
  intros [Hne Hsp]. destruct (last w) as [d|] eqn:Hl.
  - exists d. split; [done|]. apply last_Some in Hl as [l' ->].
    apply Forall_app in Hsp as [_ Hd]. by apply Forall_cons in Hd as [Hd _].
  - by apply last_None in Hl.
Qed.

Lemma unwords_nil g : Forall good_word g → unwords g = [] → g = [].
Proof.
  intros Hg Hu. destruct g as [|a g]; [done|].
  destruct (unwords_head (a :: g) Hg) as (c & s & Heq & _); [done|]. congruence.
Qed.

Lemma trial_word g w :
  Forall good_word g → good_word w →
  strip (unwords g ++ [SPACE] ++ w) = unwords (g ++ [w]).
Proof.
  intros Hg Hw. destruct g as [|a g].
  - cbn [unwords app]. unfold strip. cbn [lstrip].
    change (is_space SPACE) with true. cbv iota.
    apply (strip_no_space w), Hw.
  - rewrite unwords_snoc by done.
    destruct (unwords_head (a :: g) Hg) as (c & s & Heq & Hc); [done|].
    destruct (good_word_last w Hw) as (d & Hl & Hd).
    rewrite Heq. cbn [app]. apply (strip_id c _ d); [done| |done].
    change (c :: s ++ SPACE :: w) with ((c :: s) ++ [SPACE] ++ w).
    rewrite !last_app, Hl. done.
Qed.

Lemma Qle_bool_false a b : Qle_bool a b = false → (b < a)%Q.
Proof.
  intros H. apply Qnot_le_lt. intros Hle. apply Qle_bool_iff in Hle. congruence.
Qed.

Lemma draw_lines_cons font size indent ts l ls :
  draw_lines font size indent ts (l :: ls)
  = draw_lines font size indent (draw_line font size indent ts l.1 (unwords l.2)) ls.
Proof. done. Qed.

Section Para.
Variable stringWidth : text → text → Q → Q.
Variable bold : bool.
Variables size max_w indent msize : Q.
Variable font : text.

Lemma para_loop_lines words :
  ∀ fuel g first ts,
    (2 * length words ≤ fuel)%nat →
    ts_font ts bold = font →
    or_default (Some size) (ts_size ts) = msize →
    Forall good_word words → Forall good_word g →
    Forall (λ w, (stringWidth w font msize <= max_w)%Q) words →
    fits stringWidth font msize max_w indent (first, g) →
    ∃ lines g',
      para_loop stringWidth fuel bold size max_w indent words (unwords g) first ts
      = Some (unwords g', (if lines is [] then first else false),
              draw_lines font size indent ts lines)
      ∧ concat (lines.*2) ++ g' = g ++ words
      ∧ Forall good_word g'
      ∧ lines.*1 = (if lines is [] then [] else first :: replicate (length lines - 1) false)
      ∧ Forall (fits stringWidth font msize max_w indent) lines
      ∧ fits stringWidth font msize max_w indent
          ((if lines is [] then first else false), g')
      ∧ Forall (λ l, l.2 ≠ []) (tail lines)
      ∧ (g ≠ [] → Forall (λ l, l.2 ≠ []) lines)
      ∧ (g ++ words ≠ [] → g' ≠ []).
Proof.
  induction words as [|w rest IH]; intros fuel g first ts Hfuel Hfont Hms Hws Hg Hwd Hfit.
  - exists [], g. rewrite app_nil_r. repeat split; try done; try by constructor.
    by destruct fuel.
  - apply Forall_cons in Hws as [Hw Hrest]. apply Forall_cons in Hwd as [Hww Hwrest].
    cbn [length] in Hfuel. destruct fuel as [|fuel]; [lia|].
    cbn [para_loop]. rewrite (trial_word g w Hg Hw).
    unfold _w at 1. rewrite Hfont, Hms.
    destruct (Qle_bool _ _) eqn:Hq.
    + destruct (IH fuel (g ++ [w]) first ts) as (lines & g' & Hrun & Hcat & Hg' & Hfl & Hfits & Hfit' & Htl & Hne & Hne');
        [lia|done|done|done| |done| |].
      { apply Forall_app. split; [done|by constructor]. }
      { right. by apply Qle_bool_iff. }
      exists lines, g'. rewrite Hrun. repeat split; try done.
      * by rewrite Hcat, <- app_assoc.
      * intros _. apply Hne. by destruct g.
      * intros _. apply Hne'. by destruct g.
    + destruct fuel as [|fuel]; [lia|].
      set (ts1 := draw_line font size indent ts first (unwords g)).
      cbn [para_loop].
      rewrite (trial_word [] w (Forall_nil_2 _) Hw : strip ([] ++ [SPACE] ++ w) = [] ++ w).
      cbn [app unwords]. unfold _w at 1.
      change (ts_font ts1 bold) with (ts_font ts bold).
      change (ts_size ts1) with (ts_size ts). rewrite Hfont, Hms.
      assert (Qle_bool (stringWidth w font msize) (max_w - 0) = true) as ->.
      { apply Qle_bool_iff. lra. }
      destruct (IH fuel [w] false ts1) as (lines & g' & Hrun & Hcat & Hg' & Hfl & Hfits & Hfit' & Htl & Hne & Hne');
        [lia|done|done|done|by constructor|done| |].
      { right. cbn. lra. }
      exists ((first, g) :: lines), g'. cbn [unwords] in Hrun. rewrite Hrun.
      rewrite draw_lines_cons. cbn [fst snd]. subst ts1.
      repeat split; try done.
      * destruct lines; done.
      * cbn [fmap list_fmap concat snd]. rewrite <- app_assoc, Hcat. done.
      * cbn [fmap list_fmap fst length]. f_equal.
        change (list_fmap _ _ fst lines) with (lines.*1). rewrite Hfl.
        destruct lines as [|l lines]; [done|]. cbn [length].
        by replace (S (S (length lines)) - 1)%nat with (S (S (length lines) - 1)) by lia.
      * by constructor.
      * by destruct lines.
      * cbn [tail]. by apply Hne.
      * intros Hgne. constructor; [done|by apply Hne].
      * intros _. by apply Hne'.
Qed.

End Para.

Lemma or_default_idem o d : or_default (Some (or_default o d)) d = or_default o d.
Proof.
  destruct o as [q|]; cbn.
  - destruct (Qeq_bool q 0) eqn:Hq; [by destruct (Qeq_bool d 0)|]. by rewrite Hq.
  - by destruct (Qeq_bool d 0).
Qed.

Lemma draw_lines_keeps font size indent ts lines :
  let ts' := draw_lines font size indent ts lines in
  ts_left ts' = ts_left ts ∧ ts_x ts' = ts_x ts ∧ ts_line_h ts' = ts_line_h ts
  ∧ ts_font_r ts' = ts_font_r ts ∧ ts_font_b ts' = ts_font_b ts
  ∧ ts_size ts' = ts_size ts
  ∧ ts_y ts' = y_after (length lines) (ts_y ts) (ts_line_h ts).
Proof.
  revert ts. induction lines as [|l lines IH]; intros ts; [done|].
  rewrite draw_lines_cons. cbv zeta in *.
  destruct (IH (draw_line font size indent ts l.1 (unwords l.2)))
    as (-> & -> & -> & -> & -> & -> & ->).
  repeat split. cbn [length ts_y ts_line_h draw_line]. unfold y_after.
  by rewrite Nat.iter_succ_r.
Qed.

Lemma draw_lines_code font size indent ts lines :
  tc_code (ts_c (draw_lines font size indent ts lines))
  = tc_code (ts_c ts) ++ imap (line_op font size indent ts) lines.
Proof.
  revert ts. induction lines as [|l lines IH]; intros ts.
  - cbn. by rewrite app_nil_r.
  - rewrite draw_lines_cons, IH. cbn [imap].
    cbn [draw_line ts_c drawString setFont tc_code tc_font tc_size].
    rewrite <- app_assoc. f_equal. cbn [app]. f_equal.
    apply imap_ext. intros k x _. unfold "∘", line_op.
    cbn [ts_left ts_y ts_line_h draw_line]. unfold y_after. by rewrite Nat.iter_succ_r.
Qed.

Lemma line_ops_para_ops font size indent ts (lines : list (bool * list text)) :
  (∀ k l, lines !! k = Some l → l.1 = bool_decide (k = 0%nat)) →
  imap (line_op font size indent ts) lines
  = imap (para_op font size indent (ts_left ts) (ts_y ts) (ts_line_h ts)) (lines.*2).
Proof.
  intros Hfl. rewrite imap_fmap. apply imap_ext. intros k l Hl.
  unfold line_op, para_op, compose. rewrite (Hfl k l Hl). by destruct k.
Qed.

Lemma y_after_eq k y h : (y_after k y h == y - inject_Z (Z.of_nat k) * h)%Q.
Proof.
  induction k as [|k IH].
  - change (y == y - 0 * h)%Q. ring.
  - unfold y_after in *. rewrite Nat.iter_succ, IH.
    rewrite Nat2Z.inj_succ. unfold Z.succ. rewrite inject_Z_plus.
    change (inject_Z 1) with 1%Q. ring.
Qed.

Lemma para_lines sw ts text_ bold size indent max_w fuel :
  let font := ts_font ts bold in
  let sz := or_default size (ts_size ts) in
  let mw := or_default max_w (A4.1 - ts_left ts * 2)%Q in
  Forall (λ w, (sw w font sz <= mw)%Q) (split_ws text_) →
  (2 * length (split_ws text_) ≤ fuel)%nat →
  ∃ lines,
    para sw fuel ts text_ bold size indent max_w = Some (draw_lines font sz indent ts lines)
    ∧ concat (lines.*2) = split_ws text_
    ∧ (∀ k l, lines !! k = Some l → l.1 = bool_decide (k = 0%nat))
    ∧ Forall (fits sw font sz mw indent) lines
    ∧ Forall (λ l, l.2 ≠ []) (tail lines)
    ∧ (split_ws text_ ≠ [] → lines ≠ []).
Proof.
  intros font sz mw Hwd Hfuel.
  destruct (para_loop_lines sw bold sz mw indent sz font (split_ws text_) fuel [] true ts)
    as (fl & g' & Hrun & Hcat & Hg' & Hfl & Hfits & Hfit' & Htl & _ & Hne');
    [lia|done|apply or_default_idem|apply split_ws_good|constructor|done|by left|].
  cbn [unwords app] in Hrun, Hcat, Hne'. unfold para. fold sz mw. rewrite Hrun.
  destruct g' as [|a g'].
  - exists fl. cbn [unwords]. rewrite bool_decide_true by done.
    rewrite app_nil_r in Hcat. repeat split; try done.
    + intros k l Hl. apply (f_equal (λ x, x !! k)) in Hfl.
      rewrite list_lookup_fmap, Hl in Hfl. cbn in Hfl.
      destruct fl as [|l0 fl]; [done|]. destruct k as [|k]; cbn in Hfl.
      * by injection Hfl.
      * symmetry in Hfl. apply lookup_replicate in Hfl as [-> _]. done.
    + intros Hne. by destruct (Hne' Hne).
  - exists (fl ++ [((if fl is [] then true else false), a :: g')]).
    rewrite bool_decide_false.
    2:{ intros Hu. by apply unwords_nil in Hu. }
    destruct (draw_lines_keeps font sz indent ts fl) as (_ & _ & _ & Hr & Hb & _).
    assert (ts_font (draw_lines font sz indent ts fl) bold = font) as ->.
    { cbv zeta in Hr, Hb. unfold ts_font at 1. rewrite Hr, Hb. reflexivity. }
    repeat split.
    + unfold draw_lines. by rewrite foldl_app.
    + rewrite fmap_app, concat_app. cbn. by rewrite app_nil_r.
    + intros k l Hl. destruct fl as [|l0 fl].
      * destruct k as [|[|k]]; cbn in Hl; [|done..]. by injection Hl as <-.
      * cbn [fmap list_fmap length] in Hfl. injection Hfl as Hl0 Hfl.
        destruct k as [|k]; cbn in Hl; [by injection Hl as <-|].
        rewrite bool_decide_false by done.
        apply list_elem_of_lookup_2, elem_of_app in Hl as [Hl|Hl].
        -- assert (l.1 ∈ fl.*1) as Hin by (by apply list_elem_of_fmap_2).
           change (list_fmap _ _ fst fl) with (fl.*1) in Hfl.
           rewrite Hfl in Hin. by apply elem_of_replicate in Hin as [-> _].
        -- apply list_elem_of_singleton in Hl. by subst l.
    + apply Forall_app. split; [done|]. by constructor.
    + destruct fl as [|l0 fl]; cbn [tail app]; [constructor|].
      apply Forall_app. split; [done|]. by constructor.
    + intros _. by destruct fl.
Qed.

Lemma nonblank_groups_length (gs : list (list text)) :
  Forall (λ g, g ≠ []) gs → (length gs ≤ length (concat gs))%nat.
Proof.
  induction 1 as [|g gs Hg _ IH]; [done|]. cbn [concat length].
  rewrite length_app. destruct g; [done|]. cbn [length]. lia.
Qed.

Lemma fits_lookup sw font sz mw indent (lines : list (bool * list text)) :
  (∀ k l, lines !! k = Some l → l.1 = bool_decide (k = 0%nat)) →
  Forall (fits sw font sz mw indent) lines →
  ∀ k g, lines.*2 !! k = Some g →
    g = [] ∨ (sw (unwords g) font sz <= mw - (if k is O then indent else 0))%Q.
Proof.
  intros Hfl Hfits k g Hg. rewrite list_lookup_fmap in Hg.
  destruct (lines !! k) as [l|] eqn:Hl; [|done]. injection Hg as <-.
  rewrite Forall_lookup in Hfits. destruct (Hfits k l Hl) as [Hb|Hw]; [by left|right].
  rewrite (Hfl k l Hl) in Hw. by destruct k.
Qed.

(** X10. [Typesetter.para], when every word of the text is at most as wide
    as the column, returns after at most two rounds of its loop per word.
    The strings it draws are the words of the text in their order, split
    into lines and joined by single blanks; line [k] is drawn [k] line
    heights below the start, the first one indented; every line that holds a
    word fits the column (less the indent on the first line), and only the
    first line can be blank. *)
Theorem para_draws_the_words_in_order
    (sw : text → text → Q → Q) (ts : Typesetter) (text_ : text) (bold : bool)
    (size : option Q) (indent : Q) (max_w : option Q) (fuel : nat) :
  let font := ts_font ts bold in
  let sz := or_default size (ts_size ts) in
  let mw := or_default max_w (A4.1 - ts_left ts * 2)%Q in
  Forall (λ w, (sw w font sz <= mw)%Q) (split_ws text_) →
  (2 * length (split_ws text_) ≤ fuel)%nat →
  ∃ ts' groups,
    para sw fuel ts text_ bold size indent max_w = Some ts'
    ∧ concat groups = split_ws text_
    ∧ tc_code (ts_c ts')
      = tc_code (ts_c ts)
        ++ imap (para_op font sz indent (ts_left ts) (ts_y ts) (ts_line_h ts)) groups
    ∧ Forall (λ g, g ≠ []) (tail groups)
    ∧ (∀ k g, groups !! k = Some g →
         g = [] ∨ (sw (unwords g) font sz <= mw - (if k is O then indent else 0))%Q).
Proof.
  intros font sz mw Hwd Hfuel.
  destruct (para_lines sw ts text_ bold size indent max_w fuel Hwd Hfuel)
    as (lines & Hrun & Hcat & Hfl & Hfits & Htl & _).
  exists (draw_lines font sz indent ts lines), (lines.*2).
  split; [done|]. split; [done|]. split; [|split].
  - rewrite draw_lines_code. f_equal. by apply line_ops_para_ops.
  - destruct lines as [|l lines]; [constructor|]. cbn [fmap list_fmap tail] in *.
    by apply Forall_fmap.
  - by apply (fits_lookup sw font sz mw indent).
Qed.

Lemma para_draws_the_words_in_order_witness :
  ∃ ts' groups,
    para sample_width 10 sample_ts sample_para false None 0 (Some 60%Q) = Some ts'
    ∧ concat groups = split_ws sample_para
    ∧ tc_code (ts_c ts')
      = tc_code (ts_c sample_ts)
        ++ imap (para_op (u "PTMono") 11 0 (ts_left sample_ts) (ts_y sample_ts)
                   (ts_line_h sample_ts)) groups
    ∧ Forall (λ g, g ≠ []) (tail groups)
    ∧ (∀ k g, groups !! k = Some g →
         g = [] ∨ (sample_width (unwords g) (u "PTMono") 11 <= 60 - (if k is O then 0 else 0))%Q).
Proof.
  apply (para_draws_the_words_in_order sample_width sample_ts sample_para false None 0
           (Some 60%Q) 10).
  - vm_compute. repeat (constructor; [discriminate|]). constructor.
  - vm_compute. lia.
Defined.

(** X11. Under the same condition [Typesetter.para] leaves the pen one line
    height lower for each string it has drawn, and the left margin and the
    horizontal position as they were. It draws at least one line when the
    text has a word, and at most one line more than the text has words. *)
Theorem para_moves_the_pen_down
    (sw : text → text → Q → Q) (ts : Typesetter) (text_ : text) (bold : bool)
    (size : option Q) (indent : Q) (max_w : option Q) (fuel : nat) :
  let font := ts_font ts bold in
  let sz := or_default size (ts_size ts) in
  let mw := or_default max_w (A4.1 - ts_left ts * 2)%Q in
  Forall (λ w, (sw w font sz <= mw)%Q) (split_ws text_) →
  (2 * length (split_ws text_) ≤ fuel)%nat →
  ∃ ts' (n : nat),
    para sw fuel ts text_ bold size indent max_w = Some ts'
    ∧ length (tc_code (ts_c ts')) = (length (tc_code (ts_c ts)) + n)%nat
    ∧ (ts_y ts' == ts_y ts - inject_Z (Z.of_nat n) * ts_line_h ts)%Q
    ∧ ts_left ts' = ts_left ts ∧ ts_x ts' = ts_x ts
    ∧ (n ≤ length (split_ws text_) + 1)%nat
    ∧ (split_ws text_ ≠ [] → (1 ≤ n)%nat).
Proof.
  intros font sz mw Hwd Hfuel.
  destruct (para_lines sw ts text_ bold size indent max_w fuel Hwd Hfuel)
    as (lines & Hrun & Hcat & Hfl & Hfits & Htl & Hne).
  destruct (draw_lines_keeps font sz indent ts lines) as (Hl & Hx & _ & _ & _ & _ & Hy).
  exists (draw_lines font sz indent ts lines), (length lines).
  split; [done|]. split; [|split; [|split; [done|split; [done|split]]]].
  - by rewrite draw_lines_code, length_app, length_imap.
  - cbv zeta in Hy. rewrite Hy. apply y_after_eq.
  - rewrite <- Hcat. destruct lines as [|l lines]; [cbn; lia|].
    cbn [tail fmap list_fmap concat length] in *. rewrite length_app.
    assert (length lines ≤ length (concat (lines.*2)))%nat; [|lia].
    rewrite <- (length_fmap snd lines). apply nonblank_groups_length.
    by apply Forall_fmap.
  - intros H. specialize (Hne H). destruct lines; [done|]. cbn. lia.
Qed.

Lemma para_moves_the_pen_down_witness :
  ∃ ts' (n : nat),
    para sample_width 10 sample_ts sample_para false None 0 (Some 60%Q) = Some ts'
    ∧ length (tc_code (ts_c ts')) = (length (tc_code (ts_c sample_ts)) + n)%nat
    ∧ (ts_y ts' == ts_y sample_ts - inject_Z (Z.of_nat n) * ts_line_h sample_ts)%Q
    ∧ ts_left ts' = ts_left sample_ts ∧ ts_x ts' = ts_x sample_ts
    ∧ (n ≤ length (split_ws sample_para) + 1)%nat
    ∧ (split_ws sample_para ≠ [] → (1 ≤ n)%nat).
Proof.
  apply (para_moves_the_pen_down sample_width sample_ts sample_para false None 0
           (Some 60%Q) 10).
  - vm_compute. repeat (constructor; [discriminate|]). constructor.
  - vm_compute. lia.
Defined.

Lemma unwords_ends_with g w : ∃ s, unwords (g ++ [w]) = s ++ w.
Proof.
  destruct g as [|a g]; [by exists []|].
  exists (unwords (a :: g) ++ [SPACE]). rewrite unwords_snoc by done.
  by rewrite <- app_assoc.
Qed.

Lemma para_loop_stuck sw bold size max_w indent w font msize :
  (0 <= indent)%Q →
  (∀ s, sw w font msize <= sw (s ++ w) font msize)%Q →
  (max_w < sw w font msize)%Q →
  ∀ fuel words g first ts,
    w ∈ words →
    ts_font ts bold = font →
    or_default (Some size) (ts_size ts) = msize →
    Forall good_word words → Forall good_word g →
    para_loop sw fuel bold size max_w indent words (unwords g) first ts = None.
Proof.
  intros Hind Hmono Hwide. induction fuel as [|fuel IH];
    intros words g first ts Hin Hfont Hms Hws Hg.
  - destruct words; [by apply elem_of_nil in Hin|done].
  - destruct words as [|v rest]; [by apply elem_of_nil in Hin|].
    apply Forall_cons in Hws as [Hv Hrest].
    cbn [para_loop]. rewrite (trial_word g v Hg Hv).
    unfold _w at 1. rewrite Hfont, Hms.
    destruct (Qle_bool _ _) eqn:Hq.
    + apply Qle_bool_iff in Hq. apply elem_of_cons in Hin as [<-|Hin].
      * destruct (unwords_ends_with g w) as [s Hs]. rewrite Hs in Hq.
        specialize (Hmono s). destruct first; lra.
      * apply IH; try done. apply Forall_app. split; [done|by constructor].
    + apply (IH (v :: rest) [] false); try done. by constructor.
Qed.

Lemma sample_width_mono (w s : text) (font : text) (size : Q) :
  (sample_width w font size <= sample_width (s ++ w) font size)%Q.
Proof.
  unfold sample_width. rewrite length_app, Nat2Z.inj_add, inject_Z_plus.
  assert (0 <= inject_Z (Z.of_nat (length s)))%Q.
  { change 0%Q with (inject_Z 0). rewrite <- Zle_Qle. lia. }
  lra.
Qed.

(** X12. [Typesetter.para] never returns when the text has a word wider
    than the column: the loop keeps drawing lines without taking the word.
    The indent is not negative and a string that ends with the word is at
    least as wide as the word. *)
Theorem para_never_returns_on_a_wide_word
    (sw : text → text → Q → Q) (ts : Typesetter) (text_ : text) (bold : bool)
    (size : option Q) (indent : Q) (max_w : option Q) (w : text) :
  let font := ts_font ts bold in
  let sz := or_default size (ts_size ts) in
  let mw := or_default max_w (A4.1 - ts_left ts * 2)%Q in
  w ∈ split_ws text_ →
  (0 <= indent)%Q →
  (∀ s, sw w font sz <= sw (s ++ w) font sz)%Q →
  (mw < sw w font sz)%Q →
  ∀ fuel, para sw fuel ts text_ bold size indent max_w = None.
Proof.
  intros font sz mw Hin Hind Hmono Hwide fuel. unfold para. fold sz mw.
  assert (para_loop sw fuel bold sz mw indent (split_ws text_) [] true ts = None) as ->;
    [|done].
  apply (para_loop_stuck sw bold sz mw indent w font sz Hind Hmono Hwide
           fuel (split_ws text_) [] true ts); try done.
  - apply or_default_idem.
  - apply split_ws_good.
Qed.

Lemma para_never_returns_on_a_wide_word_witness :
  para sample_width 1000 sample_ts sample_iban false None 0 (Some 60%Q) = None.
Proof.
  apply (para_never_returns_on_a_wide_word sample_width sample_ts sample_iban false None 0
           (Some 60%Q) (u "NL91ABNA0417164300")).
  - apply (bool_decide_unpack _). vm_compute. exact I.
  - done.
  - intros s. apply sample_width_mono.
  - vm_compute. reflexivity.
Defined.

(** X13. [Typesetter.kv], when every word of the value is at most as wide as
    what the label leaves of the column, returns; it has drawn the label
    with its colon in the bold font at the left margin and then the words of
    the value in their order, in lines that start where the label ends, and
    the left margin is what it was before the call. When the label takes
    exactly the whole column, the width left is taken to be the page width
    less twice the shifted margin. *)
Theorem kv_draws_label_then_value
    (sw : text → text → Q → Q) (ts : Typesetter) (label value : text)
    (size max_w : option Q) (fuel : nat) :
  let sz := or_default size (ts_size ts) in
  let mw := or_default max_w (A4.1 - ts_left ts * 2)%Q in
  let label_txt := label ++ [58%N; SPACE] in
  let lw := sw label_txt (ts_font_b ts) sz in
  let col := or_default (Some (mw - lw)%Q) (A4.1 - (ts_left ts + lw) * 2)%Q in
  Forall (λ w, (sw w (ts_font_r ts) sz <= col)%Q) (split_ws value) →
  (2 * length (split_ws value) ≤ fuel)%nat →
  ∃ ts' groups,
    kv sw fuel ts label value size max_w = Some ts'
    ∧ concat groups = split_ws value
    ∧ tc_code (ts_c ts')
      = tc_code (ts_c ts)
        ++ DrawString (ts_left ts) (ts_y ts) (ts_font_b ts) sz label_txt
           :: imap (para_op (ts_font_r ts) sz 0 (ts_left ts + lw) (ts_y ts) (ts_line_h ts))
                groups
    ∧ ts_left ts' = ts_left ts
    ∧ ts_y ts' = y_after (length groups) (ts_y ts) (ts_line_h ts).
Proof.
  intros sz mw label_txt lw col Hwd Hfuel.
  assert (Hsz : or_default (Some sz) (ts_size ts) = sz) by apply or_default_idem.
  unfold kv. fold sz mw label_txt. unfold _w. cbn [ts_font]. rewrite Hsz. fold lw.
  set (ts1 := mkTypesetter _ _ _ _ _ _ _ _).
  destruct (para_lines sw ts1 value false (Some sz) 0 (Some (mw - lw)%Q) fuel)
    as (lines & Hrun & Hcat & Hfl & _); [|done|].
  { cbn [ts_font ts1 ts_font_r ts_size ts_left]. rewrite Hsz. exact Hwd. }
  rewrite Hrun. clear Hrun.
  cbn [ts_font ts1 ts_font_r ts_size] in *. rewrite Hsz. fold ts1.
  destruct (draw_lines_keeps (ts_font_r ts) sz 0 ts1 lines) as (_ & _ & _ & _ & _ & _ & Hy).
  exists (mkTypesetter (ts_c (draw_lines (ts_font_r ts) sz 0 ts1 lines)) (ts_left ts)
            (ts_x (draw_lines (ts_font_r ts) sz 0 ts1 lines))
            (ts_y (draw_lines (ts_font_r ts) sz 0 ts1 lines))
            (ts_line_h (draw_lines (ts_font_r ts) sz 0 ts1 lines))
            (ts_font_r (draw_lines (ts_font_r ts) sz 0 ts1 lines))
            (ts_font_b (draw_lines (ts_font_r ts) sz 0 ts1 lines))
            (ts_size (draw_lines (ts_font_r ts) sz 0 ts1 lines))), (lines.*2).
  split; [done|]. split; [done|]. split; [|split; [done|]].
  - cbn [ts_c]. rewrite draw_lines_code, (line_ops_para_ops _ _ _ _ _ Hfl).
    cbn [ts1 ts_c ts_left ts_y ts_line_h drawString setFont tc_code tc_font tc_size].
    by rewrite <- app_assoc.
  - cbn [ts_y]. cbv zeta in Hy. rewrite Hy, length_fmap. done.
Qed.

Lemma kv_draws_label_then_value_witness :
  ∃ ts' groups,
    kv sample_width 10 sample_ts (u "Adres") sample_para None (Some 120%Q) = Some ts'
    ∧ concat groups = split_ws sample_para
    ∧ tc_code (ts_c ts')
      = tc_code (ts_c sample_ts)
        ++ DrawString (ts_left sample_ts) (ts_y sample_ts) (u "PTMono-Bold") 11 (u "Adres: ")
           :: imap (para_op (u "PTMono") 11 0 (ts_left sample_ts + 42) (ts_y sample_ts)
                      (ts_line_h sample_ts)) groups
    ∧ ts_left ts' = ts_left sample_ts
    ∧ ts_y ts' = y_after (length groups) (ts_y sample_ts) (ts_line_h sample_ts).
Proof.
  apply (kv_draws_label_then_value sample_width sample_ts (u "Adres") sample_para None
           (Some 120%Q) 10).
  - vm_compute. repeat (constructor; [discriminate|]). constructor.
  - vm_compute. lia.
Defined.

(** X14. [Typesetter.kv] never returns when the value has a word wider than
    what the label leaves of the column, for a width that does not shrink
    when text is put in front of the word. *)
Theorem kv_never_returns_on_a_wide_word
    (sw : text → text → Q → Q) (ts : Typesetter) (label value : text)
    (size max_w : option Q) (w : text) :
  let sz := or_default size (ts_size ts) in
  let mw := or_default max_w (A4.1 - ts_left ts * 2)%Q in
  let lw := sw (label ++ [58%N; SPACE]) (ts_font_b ts) sz in
  let col := or_default (Some (mw - lw)%Q) (A4.1 - (ts_left ts + lw) * 2)%Q in
  w ∈ split_ws value →
  (∀ s, sw w (ts_font_r ts) sz <= sw (s ++ w) (ts_font_r ts) sz)%Q →
  (col < sw w (ts_font_r ts) sz)%Q →
  ∀ fuel, kv sw fuel ts label value size max_w = None.
Proof.
  intros sz mw lw col Hin Hmono Hwide fuel.
  assert (Hsz : or_default (Some sz) (ts_size ts) = sz) by apply or_default_idem.
  unfold kv. fold sz mw. unfold _w. cbn [ts_font]. rewrite Hsz. fold lw.
  set (ts1 := mkTypesetter _ _ _ _ _ _ _ _).
  unfold para. cbn [ts_size ts_left ts1]. rewrite Hsz. fold ts1. fold col.
  assert (para_loop sw fuel false sz col 0 (split_ws value) [] true ts1 = None) as ->;
    [|done].
  apply (para_loop_stuck sw false sz col 0 w (ts_font_r ts) sz (Qle_refl 0) Hmono Hwide
           fuel (split_ws value) [] true ts1); try done.
  apply split_ws_good.
Qed.

Lemma kv_never_returns_on_a_wide_word_witness :
  kv sample_width 1000 sample_ts (u "IBAN") sample_iban None (Some 120%Q) = None.
Proof.
  apply (kv_never_returns_on_a_wide_word sample_width sample_ts (u "IBAN") sample_iban None
           (Some 120%Q) (u "NL91ABNA0417164300")).
  - apply (bool_decide_unpack _). vm_compute. exact I.
  - intros s. apply sample_width_mono.
  - vm_compute. reflexivity.
Defined.

(** * Looking up an asset: [asset_path] *)

Section AssetPathProperties.
Variable Path : Type.
Variable joinpath : Path → text → Path.
Variable resolve : Path → result Path.
Variable exists_ : Path → result bool.
Variables BASE_DIR BASE_DIR_parent cwd : Path.


Lemma first_under_skip rb root ra name p :
  (∀ r, r ∈ rb → missing_at Path joinpath resolve exists_ r name) →
  found_at Path joinpath resolve exists_ root name p →
  first_under Path joinpath resolve exists_ (rb ++ root :: ra) name = Ok (Some p).
Proof.
  intros Hb [Hres Hex]. induction rb as [|r rb IH]; cbn [app first_under].
  - rewrite Hres. cbn [rbind]. by rewrite Hex.
  - destruct (Hb r ltac:(left)) as (q & -> & Hq). cbn [rbind]. rewrite Hq. cbn [rbind].
    apply IH. intros r' Hr'. apply Hb. by right.
Qed.

Lemma first_under_nothing roots name :
  (∀ r, r ∈ roots → missing_at Path joinpath resolve exists_ r name) →
  first_under Path joinpath resolve exists_ roots name = Ok None.
Proof.
  induction roots as [|r roots IH]; intros H; [done|]. cbn [first_under].
  destruct (H r ltac:(left)) as (q & -> & Hq). cbn [rbind]. rewrite Hq. cbn [rbind].
  apply IH. intros r' Hr'. apply H. by right.
Qed.


End AssetPathProperties.

(** X15. [asset_path] returns the first file that exists, trying the
    candidates in their order and, for each candidate, the four roots in
    theirs: a candidate that exists under a later root is preferred to a
    later candidate under an earlier root. The places tried before are
    resolved and found missing. *)
Theorem asset_path_returns_first_existing
    (Path : Type) (joinpath : Path → text → Path) (resolve : Path → result Path)
    (exists_ : Path → result bool) (BASE_DIR BASE_DIR_parent cwd : Path)
    (candidates before after : list text) (name : text) (rb ra : list Path) (root : Path)
    (p : Path) :
  candidates = before ++ name :: after →
  asset_roots Path joinpath BASE_DIR BASE_DIR_parent cwd = rb ++ root :: ra →
  (∀ n r, n ∈ before → r ∈ asset_roots Path joinpath BASE_DIR BASE_DIR_parent cwd →
     missing_at Path joinpath resolve exists_ r n) →
  (∀ r, r ∈ rb → missing_at Path joinpath resolve exists_ r name) →
  found_at Path joinpath resolve exists_ root name p →
  asset_path Path joinpath resolve exists_ BASE_DIR BASE_DIR_parent cwd candidates = Ok p.
Proof.
  intros -> Hroots Hbefore Hrb He. unfold asset_path.
  assert (first_found Path joinpath resolve exists_
            (asset_roots Path joinpath BASE_DIR BASE_DIR_parent cwd)
            (before ++ name :: after) = Ok (Some p)) as ->; [|done].
  induction before as [|n ns IH]; cbn [app first_found].
  - by rewrite Hroots, (first_under_skip _ _ _ _ rb root ra name p Hrb He).
  - rewrite first_under_nothing.
    + cbn [rbind]. apply IH. intros n' r Hn'. apply Hbefore. by right.
    + intros r Hr. apply Hbefore; [left|done].
Qed.

Lemma asset_path_returns_first_existing_witness :
  asset_path text sample_join sample_resolve sample_exists
    (u "/srv/bot") (u "/srv") (u "/tmp") [u "logo.png"; u "ing.png"]
  = Ok (u "/srv/bot/ing.png").
Proof.
  apply (asset_path_returns_first_existing text sample_join sample_resolve sample_exists
           (u "/srv/bot") (u "/srv") (u "/tmp")
           [u "logo.png"; u "ing.png"] [u "logo.png"] [] (u "ing.png")
           [u "/srv/bot/assets"; u "/srv/assets"; u "/tmp/assets"] [] (u "/srv/bot")).
  - reflexivity.
  - reflexivity.
  - intros n r Hn Hr. apply list_elem_of_singleton in Hn as ->.
    repeat (apply elem_of_cons in Hr as [->|Hr];
            [eexists; split; vm_compute; reflexivity|]).
    by apply elem_of_nil in Hr.
  - intros r Hr.
    repeat (apply elem_of_cons in Hr as [->|Hr];
            [eexists; split; vm_compute; reflexivity|]).
    by apply elem_of_nil in Hr.
  - split; vm_compute; reflexivity.
Defined.


Example asset_path_no_candidate :
  asset_path text sample_join sample_resolve sample_exists
    (u "/srv/bot") (u "/srv") (u "/tmp") [] = Raise IndexError.
Proof. reflexivity. Qed.

Example asset_path_nul_character :
  asset_path text sample_join sample_resolve sample_exists
    (u "/srv/bot") (u "/srv") (u "/tmp") [[97; 0; 98]] = Raise ValueError.
Proof. vm_compute. reflexivity. Qed.
